(** * Transfer / contract lifecycle engine and change capture bus

    A shallow embedding of the services of the football transfer management
    system:
    - [services/contractService.js], class [ContractService]: the file
      holds two listings of the class, the first one cut off inside
      [validateContractData];
    - [services/transferService.js], class [TransferService]: two listings,
      both cut off before the private helpers;
    - [utils/cdc.js], class [CDC];
    - [controllers/transferController.js], [createTransfer];
    together with the Mongoose schemas they rely on ([models/Player] in its
    version with [dateOfBirth] and pre-save hooks, [models/Club],
    [models/Contract], [models/Transfer]) and [utils/errorResponse.js].

    Conventions of the embedding.
    - JavaScript numbers that hold money are whole currency units ([Z]).
      The revaluation after a transfer multiplies a fee by a one-digit
      decimal (0.9, 1.2, 0.8) and rounds at once; it is computed on exact
      rationals ([Q]), with [Math.round] rounding half up.  Where the code
      chains several floating-point operations before it rounds (the
      value factor of a renewal, the budget impacts) the operations are
      those of IEEE 754 binary64 ([Double]), in the order of the code.
    - A [Date] is an instant ([getTime], milliseconds) together with the
      local calendar fields the code reads from it; [new Date()] is an
      explicit argument [now] of every operation.
    - The document store is external: a collection is a finite map from
      [_id] to document, [findById] is a lookup, [find] lists the matching
      documents in the order of the map, [save] writes the modified paths
      of one document and runs the hooks and validators of the schema.
      Two documents loaded for one [_id] are independent copies.
    - A session (transaction) works on its own view of the store; a query
      issued without the session sees the last committed state;
      [abortTransaction] discards the view.
    - Helpers that the listings call but do not contain
      ([reserveFunds], [reserveClubBudgets], [updateClubBudgets],
      [terminateOldContract], [createNewContract],
      [determineTransferWindow]) are modelled from the specification and
      marked as such. *)

From stdpp Require Import gmap strings list fin_maps pretty.
From Stdlib Require Import ZArith QArith Qround Lia.
From Stdlib Require SpecFloat.

Close Scope Q_scope.
Open Scope Z_scope.

(** ** Host values *)

Abbreviation ObjectId := N.

Record Date := mkDate {
  getTime : Z;       (* milliseconds since the epoch *)
  getFullYear : Z;
  getMonth : Z;      (* 0 = January ... 11 = December *)
  getDate : Z        (* day of the month *)
}.

(** An id inside a template literal; an absent one prints as undefined. *)
Definition showId (id : option ObjectId) : string :=
  match id with
  | Some id => pretty id
  | None => "undefined"
  end.

(** [Math.round] on an exact rational: the nearest integer, halves up. *)
Definition Math_round (x : Q) : Z := Qfloor (x + (1 # 2))%Q.

(** JavaScript's [Number]: IEEE 754 binary64, every operation rounded to
    the nearest representable number, ties to even. *)
Module Double.

Definition t : Type := SpecFloat.spec_float.

Definition prec : Z := 53.
Definition emax : Z := 1024.

(** An integer as a number; one beyond 2^53 is rounded, as the result of
    the integer arithmetic that produces it is. *)
Definition ofZ (n : Z) : t := SpecFloat.binary_normalize prec emax n 0 false.

Definition add (x y : t) : t := SpecFloat.SFadd prec emax x y.
Definition sub (x y : t) : t := SpecFloat.SFsub prec emax x y.
Definition mul (x y : t) : t := SpecFloat.SFmul prec emax x y.
Definition div (x y : t) : t := SpecFloat.SFdiv prec emax x y.
Definition opp (x : t) : t := SpecFloat.SFopp x.

(** A decimal literal [n / d] with [d] a power of ten: the double nearest
    to the quotient, which is what the correctly rounded division of the
    two integers gives. *)
Definition literal (n d : Z) : t := div (ofZ n) (ofZ d).

(** [Math.round]: the nearest integer, halves up, computed exactly on the
    value [±m × 2^e]; there is none for [NaN] and the infinities. *)
Definition round (x : t) : option Z :=
  match x with
  | SpecFloat.S754_zero _ => Some 0
  | SpecFloat.S754_finite s m e =>
      let num := if s then Z.neg m else Z.pos m in
      Some (if 0 <=? e then num * 2 ^ e
            else (2 * num + 2 ^ (- e)) / (2 * 2 ^ (- e)))
  | _ => None
  end.

End Double.

(** Values of a [Map] of [Mixed]. *)
Inductive Mixed :=
  | MString (s : string)
  | MNumber (n : Z)
  | MDate (d : Date).

(** [utils/errorResponse.js]: an [Error] carrying an HTTP status code.
    [Error] stands for a plain [Error] (thrown by a schema hook or by the
    schema validation of [save]). *)
Inductive Exception :=
  | ErrorResponse (message : string) (statusCode : Z)
  | Error (message : string).

Definition statusCode (e : Exception) : option Z :=
  match e with
  | ErrorResponse _ c => Some c
  | Error _ => None
  end.

(** The error kinds of the engine, read off the status code. *)
Definition isValidationError (e : Exception) : Prop := statusCode e = Some 400.
Definition isNotFound (e : Exception) : Prop := statusCode e = Some 404.

(** ** Documents *)

Module Player.
Record t := mk {
  dateOfBirth : Date;
  currentClub : option ObjectId;
  marketValue : Z
}.

Definition set_currentClub (v : option ObjectId) (p : t) : t :=
  mk (dateOfBirth p) v (marketValue p).
Definition set_marketValue (v : Z) (p : t) : t :=
  mk (dateOfBirth p) (currentClub p) v.

(** The [age] virtual of the schema. *)
Definition age (today : Date) (p : t) : Z :=
  let birthDate := dateOfBirth p in
  let age := getFullYear today - getFullYear birthDate in
  let monthDifference := getMonth today - getMonth birthDate in
  if (monthDifference <? 0)
     || ((monthDifference =? 0) && (getDate today <? getDate birthDate))
  then age - 1 else age.

(** The pre-save validation hook of the schema. *)
Definition preSave (today : Date) (p : t) : option Exception :=
  if age today p <? 16 then Some (Error "Player must be at least 16 years old")
  else if 50 <? age today p then Some (Error "Player age exceeds 50 years")
  else None.
End Player.

Module Club.
Record t := mk {
  budget : Z;
  currentSquad : list ObjectId
}.

Definition set_budget (v : Z) (c : t) : t := mk v (currentSquad c).
Definition set_currentSquad (v : list ObjectId) (c : t) : t := mk (budget c) v.
End Club.

Inductive ContractStatus := Active | Expired | Terminated.

Definition showContractStatus (s : ContractStatus) : string :=
  match s with
  | Active => "Active"
  | Expired => "Expired"
  | Terminated => "Terminated"
  end.

Global Instance ContractStatus_eq_dec : EqDecision ContractStatus.
Proof. solve_decision. Defined.

Module Contract.
Record t := mk {
  playerId : ObjectId;
  clubId : ObjectId;
  startDate : Date;
  endDate : Date;
  salary : Z;
  clauses : gmap string Mixed;
  status : ContractStatus
}.

Definition set_status (v : ContractStatus) (c : t) : t :=
  mk (playerId c) (clubId c) (startDate c) (endDate c) (salary c) (clauses c) v.
Definition set_clause (k : string) (v : Mixed) (c : t) : t :=
  mk (playerId c) (clubId c) (startDate c) (endDate c) (salary c)
     (<[k := v]> (clauses c)) (status c).
End Contract.

Inductive TransferStatus := Pending | Completed | Cancelled | Failed.

Definition showTransferStatus (s : TransferStatus) : string :=
  match s with
  | Pending => "Pending"
  | Completed => "Completed"
  | Cancelled => "Cancelled"
  | Failed => "Failed"
  end.

Inductive TransferType := Permanent | Loan | FreeTransfer | Swap.
Inductive TransferWindow := Summer | Winter | OutsideWindow.

Global Instance TransferStatus_eq_dec : EqDecision TransferStatus.
Proof. solve_decision. Defined.

Record SellOnClause := mkSellOn {
  percentage : Z;
  active : bool
}.

Module Transfer.
Record t := mk {
  playerId : ObjectId;
  fromClub : ObjectId;
  toClub : ObjectId;
  transferFee : Z;
  date : Date;
  contractDetails : option ObjectId;
  transferType : TransferType;
  status : TransferStatus;
  transferWindow : TransferWindow;
  sellOnClause : SellOnClause;
  additionalTerms : gmap string Mixed
}.

Definition set_status (v : TransferStatus) (x : t) : t :=
  mk (playerId x) (fromClub x) (toClub x) (transferFee x) (date x)
     (contractDetails x) (transferType x) v (transferWindow x)
     (sellOnClause x) (additionalTerms x).
Definition set_contractDetails (v : option ObjectId) (x : t) : t :=
  mk (playerId x) (fromClub x) (toClub x) (transferFee x) (date x)
     v (transferType x) (status x) (transferWindow x)
     (sellOnClause x) (additionalTerms x).
Definition set_additionalTerm (k : string) (v : Mixed) (x : t) : t :=
  mk (playerId x) (fromClub x) (toClub x) (transferFee x) (date x)
     (contractDetails x) (transferType x) (status x) (transferWindow x)
     (sellOnClause x) (<[k := v]> (additionalTerms x)).
End Transfer.

(** ** The document store and sessions *)

Record Store := mkStore {
  players : gmap ObjectId Player.t;
  clubs : gmap ObjectId Club.t;
  contracts : gmap ObjectId Contract.t;
  transfers : gmap ObjectId Transfer.t
}.

Definition set_players (v : gmap ObjectId Player.t) (s : Store) : Store :=
  mkStore v (clubs s) (contracts s) (transfers s).
Definition set_clubs (v : gmap ObjectId Club.t) (s : Store) : Store :=
  mkStore (players s) v (contracts s) (transfers s).
Definition set_contracts (v : gmap ObjectId Contract.t) (s : Store) : Store :=
  mkStore (players s) (clubs s) v (transfers s).
Definition set_transfers (v : gmap ObjectId Transfer.t) (s : Store) : Store :=
  mkStore (players s) (clubs s) (contracts s) v.

(** Code running inside a session: it reads the committed store (first
    argument) when a query is issued without the session, reads and writes
    the session's view (second argument), and may throw. *)
Definition Session (A : Type) : Type :=
  Store -> Store -> Exception + (A * Store).

Global Instance Session_ret : MRet Session :=
  λ A (a : A) _ s, inr (a, s).
Global Instance Session_bind : MBind Session :=
  λ A B (f : A -> Session B) (m : Session A) c s,
    match m c s with
    | inl e => inl e
    | inr (a, s') => f a c s'
    end.

Definition throw {A} (e : Exception) : Session A := λ _ _, inl e.
(** A query bound to the session. *)
Definition inSession {A} (q : Store -> A) : Session A := λ _ s, inr (q s, s).
(** A query issued without the session: it sees committed data only. *)
Definition noSession {A} (q : Store -> A) : Session A := λ c s, inr (q c, s).

(** [startSession(); startTransaction(); try { body; commitTransaction() }
    catch (error) { abortTransaction(); throw error }]. *)
Definition withTransaction {A} (body : Session A) (db : Store)
  : Store * (Exception + A) :=
  match body db db with
  | inl e => (db, inl e)
  | inr (a, db') => (db', inr a)
  end.

(** [Model.find(filter)]: the matching documents with their ids. *)
Definition find {D} (filter : D -> bool) (coll : gmap ObjectId D)
  : list (ObjectId * D) :=
  List.filter (λ kd, filter kd.2) (map_to_list coll).

(** [Model.findOne(filter)]. *)
Definition findOne {D} (filter : D -> bool) (coll : gmap ObjectId D)
  : option (ObjectId * D) :=
  head (find filter coll).

(** [new Model(doc).save()]: the document gets a fresh [_id]. *)
Definition newId {D} (coll : gmap ObjectId D) : ObjectId := fresh (dom coll).

(** [player.save({ session })] after the paths changed by [f] were
    assigned: the pre-save hook runs on the document, then the modified
    paths are written. *)
Definition savePlayer (today : Date) (id : ObjectId)
    (f : Player.t -> Player.t) : Session unit :=
  λ _ s,
    match players s !! id with
    | None => inl (Error "No document found for query")
    | Some p =>
        match Player.preSave today (f p) with
        | Some e => inl e
        | None => inr (tt, set_players (<[id := f p]> (players s)) s)
        end
    end.

(** [player.save({ session })] after [marketValue] was assigned: the
    validator [min: 0] of the modified path runs as well. *)
Definition saveMarketValue (today : Date) (id : ObjectId) (v : Z)
  : Session unit :=
  if v <? 0 then λ _ _, inl (Error "Market value cannot be negative")
  else savePlayer today id (Player.set_marketValue v).

(** [club.save({ session })] after [currentSquad] was modified. *)
Definition saveClub (id : ObjectId) (f : Club.t -> Club.t) : Session unit :=
  λ _ s,
    match clubs s !! id with
    | None => inl (Error "No document found for query")
    | Some c => inr (tt, set_clubs (<[id := f c]> (clubs s)) s)
    end.

(** [club.save({ session })] after [budget] was assigned; the path has the
    validator [min: 0]. *)
Definition saveBudget (id : ObjectId) (v : Z) : Session unit :=
  if v <? 0 then λ _ _, inl (Error "Club validation failed: budget")
  else saveClub id (Club.set_budget v).

(** [contract.save({ session })] of an existing contract. *)
Definition saveContract (id : ObjectId) (f : Contract.t -> Contract.t)
  : Session unit :=
  λ _ s,
    match contracts s !! id with
    | None => inl (Error "No document found for query")
    | Some c => inr (tt, set_contracts (<[id := f c]> (contracts s)) s)
    end.

(** [transfer.save({ session })] of an existing transfer. *)
Definition saveTransfer (id : ObjectId) (f : Transfer.t -> Transfer.t)
  : Session unit :=
  λ _ s,
    match transfers s !! id with
    | None => inl (Error "No document found for query")
    | Some t => inr (tt, set_transfers (<[id := f t]> (transfers s)) s)
    end.

(** ** ContractService (services/contractService.js)

    The file holds two listings of the class.  [ContractService2] embeds the
    second, complete one; [ContractService1] embeds the operations of the
    first listing whose code is complete ([terminateContract],
    [processExpiredContracts]). *)

(** The object literal passed to [createContract]; [None] is a property
    that is absent ([undefined]). *)
Record ContractData := mkContractData {
  cd_playerId : option ObjectId;
  cd_clubId : option ObjectId;
  cd_startDate : option Date;
  cd_endDate : option Date;
  cd_salary : option Z;
  cd_clauses : option (gmap string Mixed)
}.

Definition orElse {A} (over base : option A) : option A :=
  match over with
  | Some v => Some v
  | None => base
  end.

(** [{ ...base, ...over }]: the properties of [over] win. *)
Definition spread (base over : ContractData) : ContractData :=
  mkContractData
    (orElse (cd_playerId over) (cd_playerId base))
    (orElse (cd_clubId over) (cd_clubId base))
    (orElse (cd_startDate over) (cd_startDate base))
    (orElse (cd_endDate over) (cd_endDate base))
    (orElse (cd_salary over) (cd_salary base))
    (orElse (cd_clauses over) (cd_clauses base)).

Record TerminationData := mkTerminationData {
  reason : option string;
  compensationFee : option Z;
  updatePlayerStatus : bool;
  freeAgent : bool
}.

(** [x || fallback] on a string that may be absent or empty. *)
Definition strOr (x : option string) (fallback : string) : string :=
  match x with
  | Some s => if decide (s = "") then fallback else s
  | None => fallback
  end.

(** Truthiness of an optional number. *)
Definition truthy (x : option Z) : bool :=
  match x with
  | Some n => negb (n =? 0)
  | None => false
  end.

(** The validator [min: 0] on an optional number: does it reject? *)
Definition truthyNegative (x : option Z) : bool :=
  match x with
  | Some n => n <? 0
  | None => false
  end.

Definition findPlayer (id : option ObjectId) (s : Store) : option Player.t :=
  id ≫= λ i, players s !! i.
Definition findClub (id : option ObjectId) (s : Store) : option Club.t :=
  id ≫= λ i, clubs s !! i.

Definition isActive (c : Contract.t) : bool :=
  bool_decide (Contract.status c = Active).

Definition sumSalaries (l : list (ObjectId * Contract.t)) : Z :=
  foldr (λ kc total, total + Contract.salary kc.2) 0 l.

(** [new Contract({ ...contractData, status: 'Active' }).save()]; the
    schema requires the five contract fields and [salary >= 0]. *)
Definition insertContract (cd : ContractData) : Session (ObjectId * Contract.t) :=
  λ _ s,
    match cd_playerId cd, cd_clubId cd, cd_startDate cd, cd_endDate cd,
          cd_salary cd with
    | Some p, Some c, Some sd, Some ed, Some sal =>
        if sal <? 0 then inl (Error "Contract validation failed: salary")
        else
          let doc := Contract.mk p c sd ed sal (default ∅ (cd_clauses cd)) Active in
          let id := newId (contracts s) in
          inr ((id, doc), set_contracts (<[id := doc]> (contracts s)) s)
    | _, _, _, _, _ => inl (Error "Contract validation failed: required path")
    end.

Module ContractService2.

Definition calculateClubSalaryExpenses (clubId : option ObjectId) (s : Store) : Z :=
  sumSalaries
    (find (λ c, bool_decide (Some (Contract.clubId c) = clubId) && isActive c)
          (contracts s)).

Definition minDuration : Z := 30 * 24 * 60 * 60 * 1000.
Definition maxDuration : Z := 5 * 365 * 24 * 60 * 60 * 1000.

Definition validateContract (contractData : ContractData) : Session bool :=
  match cd_playerId contractData, cd_clubId contractData,
        cd_startDate contractData, cd_endDate contractData,
        cd_salary contractData with
  | Some playerId, Some clubId, Some startDate, Some endDate, Some salary =>
      player ← inSession (findPlayer (Some playerId));
      club ← inSession (findClub (Some clubId));
      match player, club with
      | None, _ => throw (ErrorResponse ("Player not found with id " +:+ pretty playerId) 404)
      | Some _, None => throw (ErrorResponse ("Club not found with id " +:+ pretty clubId) 404)
      | Some _, Some club =>
          let contractStart := getTime startDate in
          let contractEnd := getTime endDate in
          if contractEnd <=? contractStart then
            throw (ErrorResponse "Contract end date must be after start date" 400)
          else if contractEnd - contractStart <? minDuration then
            throw (ErrorResponse "Contract duration must be at least 30 days" 400)
          else if maxDuration <? contractEnd - contractStart then
            throw (ErrorResponse "Contract duration cannot exceed 5 years" 400)
          else
            existingContract ← inSession (λ s,
              findOne (λ c, bool_decide (Contract.playerId c = playerId)
                            && isActive c
                            && bool_decide (Contract.clubId c ≠ clubId))
                      (contracts s));
            match existingContract with
            | Some _ =>
                throw (ErrorResponse
                  "Player already has an active contract with another club" 400)
            | None =>
                annualSalaryExpense ←
                  noSession (calculateClubSalaryExpenses (Some clubId));
                if Club.budget club <? annualSalaryExpense + salary then
                  throw (ErrorResponse "Contract salary exceeds club budget" 400)
                else mret true
            end
      end
  | _, _, _, _, _ => throw (ErrorResponse "Missing required contract fields" 400)
  end.

(** [createContract(contractData, session)] with a session supplied. *)
Definition createContractIn (now : Date) (contractData : ContractData)
  : Session (ObjectId * Contract.t) :=
  _ ← validateContract contractData;
  contract ← insertContract contractData;
  player ← inSession (findPlayer (cd_playerId contractData));
  _ ← match player, cd_playerId contractData with
      | Some _, Some playerId =>
          savePlayer now playerId (Player.set_currentClub (cd_clubId contractData))
      | _, _ => mret tt
      end;
  club ← inSession (findClub (cd_clubId contractData));
  _ ← match club, cd_clubId contractData, cd_playerId contractData with
      | Some club, Some clubId, Some playerId =>
          if existsb (N.eqb playerId) (Club.currentSquad club) then mret tt
          else saveClub clubId
                 (λ c, Club.set_currentSquad (Club.currentSquad c ++ [playerId]) c)
      | _, _, _ => mret tt
      end;
  mret contract.

(** [createContract(contractData)]: the service opens its own session. *)
Definition createContract (now : Date) (contractData : ContractData) (db : Store)
  : Store * (Exception + (ObjectId * Contract.t)) :=
  withTransaction (createContractIn now contractData) db.

Definition terminateContractIn (now : Date) (contractId : ObjectId)
    (terminationData : TerminationData) : Session Contract.t :=
  contract ← inSession (λ s, contracts s !! contractId);
  match contract with
  | None => throw (ErrorResponse ("Contract not found with id " +:+ pretty contractId) 404)
  | Some contract =>
      if negb (isActive contract) then
        throw (ErrorResponse ("Cannot terminate contract with status "
                              +:+ showContractStatus (Contract.status contract)) 400)
      else
        let annotate (c : Contract.t) :=
          let c := Contract.set_status Terminated c in
          let c := Contract.set_clause "terminationReason"
                     (MString (strOr (reason terminationData) "Transfer")) c in
          let c := Contract.set_clause "terminationDate" (MDate now) c in
          if truthy (compensationFee terminationData) then
            Contract.set_clause "terminationFee"
              (MNumber (default 0 (compensationFee terminationData))) c
          else c in
        _ ← saveContract contractId annotate;
        mret (annotate contract)
  end.

Definition terminateContract (now : Date) (contractId : ObjectId)
    (terminationData : TerminationData) (db : Store)
  : Store * (Exception + Contract.t) :=
  withTransaction (terminateContractIn now contractId terminationData) db.

Definition yearMs : Z := 365 * 24 * 60 * 60 * 1000.

(** The value factor is computed in floating point, step by step as in
    the code: [(endDate - startDate) / (365 * 24 * 60 * 60 * 1000)],
    [1 + (0.05 + (durationYears * 0.02))], then [+= 0.1] or [-= 0.1].
    [Math.round] of a finite product is a whole number.  A product that is
    not finite (it takes a market value beyond 10^307) has no counterpart
    among the whole numbers that [marketValue] holds here: the save is
    taken to fail. *)
Definition updatePlayerValueOnRenewal (now : Date) (playerId : ObjectId)
    (newContract : Contract.t) : Session unit :=
  player ← inSession (findPlayer (Some playerId));
  match player with
  | None => throw (ErrorResponse ("Player not found with id " +:+ pretty playerId) 404)
  | Some player =>
      let durationYears : Double.t :=
        Double.div
          (Double.ofZ (getTime (Contract.endDate newContract)
                       - getTime (Contract.startDate newContract)))
          (Double.ofZ yearMs) in
      let valueIncreaseFactor : Double.t :=
        Double.add (Double.ofZ 1)
          (Double.add (Double.literal 5 100)
             (Double.mul durationYears (Double.literal 2 100))) in
      let valueIncreaseFactor : Double.t :=
        if Player.age now player <? 25
        then Double.add valueIncreaseFactor (Double.literal 1 10)
        else if 30 <? Player.age now player
        then Double.sub valueIncreaseFactor (Double.literal 1 10)
        else valueIncreaseFactor in
      match Double.round
              (Double.mul (Double.ofZ (Player.marketValue player))
                          valueIncreaseFactor) with
      | Some newMarketValue => saveMarketValue now playerId newMarketValue
      | None => throw (Error "Player validation failed: marketValue")
      end
  end.

(** [renewalData] is an object literal of new contract terms; it is spread
    last into the data of the new contract. *)
Definition renewContractIn (now : Date) (contractId : ObjectId)
    (renewalData : ContractData) : Session (ObjectId * Contract.t) :=
  oldContract ← inSession (λ s, contracts s !! contractId);
  match oldContract with
  | None => throw (ErrorResponse ("Contract not found with id " +:+ pretty contractId) 404)
  | Some oldContract =>
      if negb (isActive oldContract) then
        throw (ErrorResponse ("Cannot renew contract with status "
                              +:+ showContractStatus (Contract.status oldContract)) 400)
      else
        _ ← terminateContractIn now contractId
              (mkTerminationData (Some "Renewal") None false false);
        let newContractData :=
          spread (mkContractData (Some (Contract.playerId oldContract))
                                 (Some (Contract.clubId oldContract))
                                 (Some now) None None None)
                 renewalData in
        newContract ← createContractIn now newContractData;
        _ ← updatePlayerValueOnRenewal now (Contract.playerId oldContract)
              newContract.2;
        mret newContract
  end.

Definition renewContract (now : Date) (contractId : ObjectId)
    (renewalData : ContractData) (db : Store)
  : Store * (Exception + (ObjectId * Contract.t)) :=
  withTransaction (renewContractIn now contractId renewalData) db.

Definition isExpiredAt (today : Date) (c : Contract.t) : bool :=
  isActive c && (getTime (Contract.endDate c) <? getTime today).

Fixpoint expireAll (l : list (ObjectId * Contract.t)) (updatedCount : Z)
  : Session Z :=
  match l with
  | [] => mret updatedCount
  | (id, _) :: rest =>
      _ ← saveContract id (Contract.set_status Expired);
      expireAll rest (updatedCount + 1)
  end.

(** One transaction around the whole sweep; a failure aborts and rethrows. *)
Definition processExpiredContracts (today : Date) (db : Store)
  : Store * (Exception + Z) :=
  let expiredContracts := find (isExpiredAt today) (contracts db) in
  withTransaction (expireAll expiredContracts 0) db.

End ContractService2.

Module ContractService1.

(** An optional status of an update: absent (keep the stored one), or a
    member of the enum; [None] when the enum validator rejects it. *)
Definition castOrKeep (x : option string) : option (option ContractStatus) :=
  match x with
  | None => Some None
  | Some s =>
      if decide (s = "Active") then Some (Some Active)
      else if decide (s = "Expired") then Some (Some Expired)
      else if decide (s = "Terminated") then Some (Some Terminated)
      else None
  end.

Definition terminateContractIn (now : Date) (contractId : ObjectId)
    (terminationData : TerminationData) : Session Contract.t :=
  contract ← inSession (λ s, contracts s !! contractId);
  match contract with
  | None => throw (ErrorResponse ("Contract not found with id " +:+ pretty contractId) 404)
  | Some contract =>
      if negb (isActive contract) then
        throw (ErrorResponse ("Cannot terminate "
                              +:+ showContractStatus (Contract.status contract)
                              +:+ " contract") 400)
      else
        let annotate (c : Contract.t) :=
          let c := Contract.set_status Terminated c in
          let c := Contract.set_clause "terminationReason"
                     (MString (strOr (reason terminationData) "Unspecified")) c in
          let c := Contract.set_clause "terminationDate" (MDate now) c in
          if truthy (compensationFee terminationData) then
            Contract.set_clause "compensationFee"
              (MNumber (default 0 (compensationFee terminationData))) c
          else c in
        _ ← saveContract contractId annotate;
        _ ← (if updatePlayerStatus terminationData then
               player ← inSession (findPlayer (Some (Contract.playerId contract)));
               match player with
               | Some _ =>
                   if freeAgent terminationData then
                     savePlayer now (Contract.playerId contract)
                       (Player.set_currentClub None)
                   else mret tt
               | None => mret tt
               end
             else mret tt);
        mret (annotate contract)
  end.

Definition terminateContract (now : Date) (contractId : ObjectId)
    (terminationData : TerminationData) (db : Store)
  : Store * (Exception + Contract.t) :=
  withTransaction (terminateContractIn now contractId terminationData) db.

(** The body of the [try] block run for one expired contract. *)
Definition expireOne (today : Date) (id : ObjectId) (contract : Contract.t)
  : Session unit :=
  _ ← saveContract id (Contract.set_status Expired);
  player ← inSession (findPlayer (Some (Contract.playerId contract)));
  match player with
  | Some player =>
      if bool_decide (Player.currentClub player = Some (Contract.clubId contract))
      then savePlayer today (Contract.playerId contract)
             (Player.set_currentClub None)
      else mret tt
  | None => mret tt
  end.

(** The [for] loop: one transaction per contract; a failing contract is
    rolled back and skipped. *)
Fixpoint sweep (today : Date) (l : list (ObjectId * Contract.t))
    (updatedCount : Z) (db : Store) : Store * Z :=
  match l with
  | [] => (db, updatedCount)
  | (id, contract) :: rest =>
      match withTransaction (expireOne today id contract) db with
      | (db', inr _) => sweep today rest (updatedCount + 1) db'
      | (db', inl _) => sweep today rest updatedCount db'
      end
  end.

Definition processExpiredContracts (today : Date) (db : Store) : Store * Z :=
  let expiredContracts :=
    find (ContractService2.isExpiredAt today) (contracts db) in
  sweep today expiredContracts 0 db.

(** The object literal passed to [updateContract]: contract fields, and a
    status as the caller wrote it. *)
Record UpdateData := mkUpdateData {
  ud_playerId : option ObjectId;
  ud_clubId : option ObjectId;
  ud_status : option string;
  ud_startDate : option Date;
  ud_endDate : option Date;
  ud_salary : option Z;
  ud_clauses : option (gmap string Mixed)
}.

(** [restrictedFields]: the keys deleted from the update data (of the
    modelled fields: playerId, clubId and status). *)
Definition dropRestricted (updateData : UpdateData) : UpdateData :=
  mkUpdateData None None None (ud_startDate updateData) (ud_endDate updateData)
    (ud_salary updateData) (ud_clauses updateData).

(** [Contract.findByIdAndUpdate(id, update, { new: true, runValidators:
    true })]: the paths present in the update are set, after the
    validators of those paths ([salary >= 0], the status enum) passed; the
    updated document is returned, [null] when there is none. *)
Definition findByIdAndUpdate (id : ObjectId) (update : UpdateData) (db : Store)
  : Store * (Exception + option Contract.t) :=
  if truthyNegative (ud_salary update) then
    (db, inl (Error "Validation failed: salary"))
  else
    match castOrKeep (ud_status update) with
    | None => (db, inl (Error "Validation failed: status"))
    | Some newStatus =>
        match contracts db !! id with
        | None => (db, inr None)
        | Some c =>
            let updated :=
              Contract.mk
                (default (Contract.playerId c) (ud_playerId update))
                (default (Contract.clubId c) (ud_clubId update))
                (default (Contract.startDate c) (ud_startDate update))
                (default (Contract.endDate c) (ud_endDate update))
                (default (Contract.salary c) (ud_salary update))
                (default (Contract.clauses c) (ud_clauses update))
                (default (Contract.status c) newStatus) in
            (set_contracts (<[id := updated]> (contracts db)) db,
             inr (Some updated))
        end
    end.

(** [updateContract(contractId, updateData)]; it uses no session. *)
Definition updateContract (contractId : ObjectId) (updateData : UpdateData)
    (db : Store) : Store * (Exception + option Contract.t) :=
  match contracts db !! contractId with
  | None =>
      (db, inl (ErrorResponse ("Contract not found with id "
                               +:+ pretty contractId) 404))
  | Some contract =>
      if negb (isActive contract) then
        (db, inl (ErrorResponse ("Cannot update "
                                 +:+ showContractStatus (Contract.status contract)
                                 +:+ " contract") 400))
      else findByIdAndUpdate contractId (dropRestricted updateData) db
  end.

(** [getContract(contractId)]. *)
Definition getContract (contractId : ObjectId) (db : Store)
  : Exception + Contract.t :=
  match contracts db !! contractId with
  | None =>
      inl (ErrorResponse ("Contract not found with id " +:+ pretty contractId) 404)
  | Some contract => inr contract
  end.

End ContractService1.

(** ** Budget ledger *)

Module BudgetLedger.

(** Modelled from the spec: [reserveFunds] and [reserveClubBudgets] of
    [TransferService] are not part of the listings.  "reserve(clubId,
    amount): fails with InsufficientFunds if amount exceeds the club's
    current budget; otherwise debits the amount as a pending reservation." *)
Definition reserve (clubId : ObjectId) (amount : Z) : Session unit :=
  club ← inSession (λ s, clubs s !! clubId);
  match club with
  | None => throw (ErrorResponse "Club not found" 404)
  | Some club =>
      if Club.budget club <? amount then
        throw (ErrorResponse "Insufficient funds" 400)
      else saveBudget clubId (Club.budget club - amount)
  end.

(** Modelled from the spec: [releaseFunds] and [releaseClubBudgets] of
    [TransferService] are not part of the listings.  "release(clubId,
    amount): credits back a previously reserved amount". *)
Definition release (clubId : ObjectId) (amount : Z) : Session unit :=
  club ← inSession (λ s, clubs s !! clubId);
  match club with
  | None => throw (ErrorResponse "Club not found" 404)
  | Some club => saveBudget clubId (Club.budget club + amount)
  end.

(** Modelled from the spec: [updateClubBudgets] of [TransferService] is not
    part of the listings.  "settle(fromClubId, toClubId, amount): credits
    the amount to the selling club and finalizes the debit already reserved
    on the buying club (no double-charge)." *)
Definition settle (fromClubId toClubId : ObjectId) (amount : Z) : Session unit :=
  fromClub ← inSession (λ s, clubs s !! fromClubId);
  toClub ← inSession (λ s, clubs s !! toClubId);
  match fromClub, toClub with
  | Some fromClub, Some _ => saveBudget fromClubId (Club.budget fromClub + amount)
  | _, _ => throw (ErrorResponse "Club not found" 404)
  end.

End BudgetLedger.

(** ** TransferService (services/transferService.js) *)

(** The object literal passed to [initiateTransfer] or posted to the
    transfer routes; [None] is an absent property, enumerated strings are
    kept as the caller wrote them. *)
Record TransferData := mkTransferData {
  td_playerId : option ObjectId;
  td_fromClub : option ObjectId;
  td_toClub : option ObjectId;
  td_transferFee : option Z;
  td_date : option Date;
  td_transferType : option string;
  td_status : option string;
  td_transferWindow : option string;
  td_loanDuration : option Z;
  td_sellOnClause : option SellOnClause;
  td_contractDetails : option ObjectId;
  td_additionalTerms : option (gmap string Mixed)
}.

Definition with_status (v : string) (d : TransferData) : TransferData :=
  mkTransferData (td_playerId d) (td_fromClub d) (td_toClub d)
    (td_transferFee d) (td_date d) (td_transferType d) (Some v)
    (td_transferWindow d) (td_loanDuration d) (td_sellOnClause d)
    (td_contractDetails d) (td_additionalTerms d).
Definition with_date (v : Date) (d : TransferData) : TransferData :=
  mkTransferData (td_playerId d) (td_fromClub d) (td_toClub d)
    (td_transferFee d) (Some v) (td_transferType d) (td_status d)
    (td_transferWindow d) (td_loanDuration d) (td_sellOnClause d)
    (td_contractDetails d) (td_additionalTerms d).
Definition with_transferWindow (v : string) (d : TransferData) : TransferData :=
  mkTransferData (td_playerId d) (td_fromClub d) (td_toClub d)
    (td_transferFee d) (td_date d) (td_transferType d) (td_status d)
    (Some v) (td_loanDuration d) (td_sellOnClause d)
    (td_contractDetails d) (td_additionalTerms d).

(** The [enum] validators of the Transfer schema. *)
Definition castTransferType (s : string) : option TransferType :=
  if decide (s = "Permanent") then Some Permanent
  else if decide (s = "Loan") then Some Loan
  else if decide (s = "Free Transfer") then Some FreeTransfer
  else if decide (s = "Swap") then Some Swap
  else None.

Definition castTransferStatus (s : string) : option TransferStatus :=
  if decide (s = "Pending") then Some Pending
  else if decide (s = "Completed") then Some Completed
  else if decide (s = "Cancelled") then Some Cancelled
  else if decide (s = "Failed") then Some Failed
  else None.

Definition castTransferWindow (s : string) : option TransferWindow :=
  if decide (s = "Summer") then Some Summer
  else if decide (s = "Winter") then Some Winter
  else if decide (s = "Outside Window") then Some OutsideWindow
  else None.

(** Casting with a schema default for an absent property. *)
Definition castOr {A} (cast : string -> option A) (dflt : A) (x : option string)
  : option A :=
  match x with
  | None => Some dflt
  | Some s => cast s
  end.

(** [new Transfer(data)]: schema defaults ([date: Date.now],
    [transferType: 'Permanent'], [status: 'Completed'], sell-on clause
    [{ percentage: 0, active: false }], no additional terms) and the
    validators run by [save]
    (required paths, enums, [transferFee >= 0], [loanDuration] required
    and at least 1 for a loan, sell-on percentage within 0..100). *)
Definition newTransfer (now : Date) (data : TransferData) : option Transfer.t :=
  playerId ← td_playerId data;
  fromClub ← td_fromClub data;
  toClub ← td_toClub data;
  transferFee ← td_transferFee data;
  transferType ← castOr castTransferType Permanent (td_transferType data);
  status ← castOr castTransferStatus Completed (td_status data);
  transferWindow ← td_transferWindow data ≫= castTransferWindow;
  let sellOn := default (mkSellOn 0 false) (td_sellOnClause data) in
  if (transferFee <? 0)
     || (match transferType, td_loanDuration data with
         | Loan, None => true
         | _, Some n => n <? 1
         | _, None => false
         end)
     || (percentage sellOn <? 0) || (100 <? percentage sellOn)
  then None
  else Some (Transfer.mk playerId fromClub toClub transferFee
               (default now (td_date data)) (td_contractDetails data)
               transferType status transferWindow sellOn
               (default ∅ (td_additionalTerms data))).

(** [new Transfer(data).save({ session })]. *)
Definition insertTransfer (now : Date) (data : TransferData)
  : Session (ObjectId * Transfer.t) :=
  λ _ s,
    match newTransfer now data with
    | None => inl (Error "Transfer validation failed")
    | Some doc =>
        let id := newId (transfers s) in
        inr ((id, doc), set_transfers (<[id := doc]> (transfers s)) s)
    end.

(** [controllers/transferController.js], [createTransfer]:
    [Transfer.create(req.body)], a transfer document written without going
    through the service. *)
Definition createTransfer (now : Date) (body : TransferData) (db : Store)
  : Store * (Exception + (ObjectId * Transfer.t)) :=
  withTransaction (insertTransfer now body) db.

(** Members used by both listings of [TransferService].
    [validateTransferWindow] is the same in both; the validators are those
    of the second listing (the first listing breaks off before its own). *)
Module TransferCommon.

(** [new Date(date).getMonth()]; an absent date gives an invalid date whose
    month is [NaN], and every comparison with [NaN] is false. *)
Definition validateTransferWindow (date : option Date) : bool :=
  match date with
  | None => false
  | Some transferDate =>
      let month := getMonth transferDate in
      ((5 <=? month) && (month <=? 7)) || (month =? 0)
  end.

Definition validateClubBudgets (fromClubId toClubId : option ObjectId)
    (transferFee : option Z) : Session bool :=
  toClub ← noSession (findClub toClubId);
  match toClub with
  | None => throw (ErrorResponse ("Buying club not found with ID " +:+ showId toClubId) 404)
  | Some toClub =>
      if match transferFee with
         | Some fee => Club.budget toClub <? fee
         | None => false
         end
      then throw (ErrorResponse
             "Buying club does not have sufficient budget for this transfer" 400)
      else mret true
  end.

Definition validateContractStatus (playerId : option ObjectId) : Session bool :=
  activeContract ← noSession (λ s,
    findOne (λ c, bool_decide (Some (Contract.playerId c) = playerId) && isActive c)
            (contracts s));
  match activeContract with
  | None => throw (ErrorResponse "Player does not have an active contract" 400)
  | Some _ => mret true
  end.

Definition validateSquadRegistration (clubId : option ObjectId) : Session bool :=
  club ← noSession (findClub clubId);
  match club with
  | None => throw (ErrorResponse ("Club not found with ID " +:+ showId clubId) 404)
  | Some club =>
      if (25 <=? length (Club.currentSquad club))%nat then
        throw (ErrorResponse "Club has reached maximum squad size" 400)
      else mret true
  end.

Definition validateTransfer (transferData : TransferData) : Session bool :=
  player ← inSession (findPlayer (td_playerId transferData));
  match player with
  | None => throw (ErrorResponse ("Player not found with ID "
                             +:+ showId (td_playerId transferData)) 404)
  | Some _ =>
      if negb (validateTransferWindow (td_date transferData)) then
        throw (ErrorResponse "Transfer date is outside valid transfer windows" 400)
      else
        _ ← validateClubBudgets (td_fromClub transferData) (td_toClub transferData)
              (td_transferFee transferData);
        _ ← validateContractStatus (td_playerId transferData);
        _ ← validateSquadRegistration (td_toClub transferData);
        mret true
  end.

(** Modelled from the spec: [terminateOldContract] of [TransferService] is
    not part of the listings.  "Terminates any existing Active contract
    between the player and the origin club (reason: transfer)": the
    contract service's termination inside the caller's session, with its
    default reason. *)
Definition terminateOldContract (now : Date) (contractId : ObjectId)
  : Session Contract.t :=
  ContractService2.terminateContractIn now contractId
    (mkTerminationData None None false false).

(** Modelled from the spec: [createNewContract] of [TransferService] is not
    part of the listings.  "If contractData is supplied, creates a new
    contract with the destination club": the contract service's creation
    inside the caller's session. *)
Definition createNewContract (now : Date) (contractData : ContractData)
  : Session (ObjectId * Contract.t) :=
  ContractService2.createContractIn now contractData.

End TransferCommon.

(** [calculateTransferBudgetImpact] of the two listings, on the
    destructured properties [{ transferFee, transferType, sellOnClause }];
    the result is [(fromClubImpact, toClubImpact)], in floating point.
    [transferFee * (sellOnClause.percentage / 100)]: *)
Definition sellOnAmount (transferFee : Z) (sellOnClause : option SellOnClause)
  : Double.t :=
  match sellOnClause with
  | Some clause =>
      if active clause && (0 <? percentage clause)
      then Double.mul (Double.ofZ transferFee)
             (Double.div (Double.ofZ (percentage clause)) (Double.ofZ 100))
      else Double.ofZ 0
  | None => Double.ofZ 0
  end.

(** The first listing of the class. *)
Module TransferService1.

Import TransferCommon.

(** Modelled from the spec: the listing breaks off at the header of
    [determineTransferWindow].  "transfer window ∈ {Summer, Winter,
    Outside}", Summer being the mid-year months 5-7 and Winter month 0 of
    [validateTransferWindow]. *)
Definition determineTransferWindow (date : Date) : string :=
  let month := getMonth date in
  if (5 <=? month) && (month <=? 7) then "Summer"
  else if month =? 0 then "Winter"
  else "Outside Window".

Definition initiateTransferIn (now : Date) (transferData : TransferData)
  : Session (ObjectId * Transfer.t) :=
  _ ← validateTransfer transferData;
  let date := default now (td_date transferData) in
  transfer ← insertTransfer now
    (with_transferWindow (determineTransferWindow date)
       (with_date date (with_status "Pending" transferData)));
  _ ← BudgetLedger.reserve (Transfer.toClub transfer.2)
        (Transfer.transferFee transfer.2);
  mret transfer.

Definition initiateTransfer (now : Date) (transferData : TransferData) (db : Store)
  : Store * (Exception + (ObjectId * Transfer.t)) :=
  withTransaction (initiateTransferIn now transferData) db.

(** The document returned by [updatePlayerValue]: the listing assigns
    [marketValue] on a document it has just loaded and returns it unsaved
    ("save is handled by calling function"). *)
Definition updatePlayerValue (now : Date) (playerId : ObjectId) (transferFee : Z)
  : Session Player.t :=
  player ← inSession (findPlayer (Some playerId));
  match player with
  | None => throw (ErrorResponse ("Player not found with id " +:+ pretty playerId) 404)
  | Some player =>
      let baseValue := Math_round (inject_Z transferFee * (9 # 10))%Q in
      let age := Player.age now player in
      let ageMultiplier : Q :=
        if age <? 23 then (12 # 10)%Q
        else if 30 <? age then (8 # 10)%Q
        else 1%Q in
      mret (Player.set_marketValue
              (Math_round (inject_Z baseValue * ageMultiplier)%Q) player)
  end.

Definition calculateTransferBudgetImpact (transferFee : Z)
    (transferType : option string) (sellOnClause : option SellOnClause)
  : Double.t * Double.t :=
  let impact : Double.t * Double.t :=
    match transferType with
    | Some "Free Transfer" => (Double.ofZ 0, Double.ofZ 0)
    | _ => (Double.ofZ transferFee, Double.opp (Double.ofZ transferFee))
    end in
  match sellOnClause with
  | Some clause =>
      if active clause && (0 <? percentage clause)
      then (Double.sub impact.1 (sellOnAmount transferFee sellOnClause), impact.2)
      else impact
  | None => impact
  end.

Definition completeTransferIn (now : Date) (transferId : ObjectId)
    (contractData : option ContractData) : Session Transfer.t :=
  transfer ← inSession (λ s, transfers s !! transferId);
  match transfer with
  | None => throw (ErrorResponse ("Transfer not found with id " +:+ pretty transferId) 404)
  | Some transfer =>
      if negb (bool_decide (Transfer.status transfer = Pending)) then
        throw (ErrorResponse ("Cannot complete transfer with status "
                              +:+ showTransferStatus (Transfer.status transfer)) 400)
      else
        let playerId := Transfer.playerId transfer in
        let fromClubId := Transfer.fromClub transfer in
        let toClubId := Transfer.toClub transfer in
        player ← inSession (λ s, players s !! playerId);
        fromClub ← inSession (λ s, clubs s !! fromClubId);
        toClub ← inSession (λ s, clubs s !! toClubId);
        match player, fromClub, toClub with
        | Some player, Some fromClub, Some toClub =>
            oldContract ← inSession (λ s,
              findOne (λ c, bool_decide (Contract.playerId c = playerId)
                            && bool_decide (Contract.clubId c = fromClubId)
                            && isActive c)
                      (contracts s));
            _ ← match oldContract with
                | Some (oldId, _) =>
                    _ ← terminateOldContract now oldId; mret tt
                | None => mret tt
                end;
            newContract ← match contractData with
                | Some contractData =>
                    c ← createNewContract now
                          (spread (mkContractData (Some playerId) (Some toClubId)
                                                  (Some now) None None None)
                                  contractData);
                    mret (Some c.1)
                | None => mret None
                end;
            (* player.currentClub = toClub._id; the revalued document that
               updatePlayerValue returns is not used *)
            _ ← updatePlayerValue now playerId (Transfer.transferFee transfer);
            _ ← savePlayer now playerId (Player.set_currentClub (Some toClubId));
            _ ← BudgetLedger.settle fromClubId toClubId
                  (Transfer.transferFee transfer);
            let complete (t : Transfer.t) :=
              let t := match newContract with
                       | Some id => Transfer.set_contractDetails (Some id) t
                       | None => t
                       end in
              Transfer.set_status Completed t in
            _ ← saveTransfer transferId complete;
            (* fromClub.currentSquad = fromClub.currentSquad.filter(...) *)
            _ ← (if (0 <? length (Club.currentSquad fromClub))%nat then
                   saveClub fromClubId
                     (Club.set_currentSquad
                        (List.filter (λ id, negb (N.eqb id playerId))
                                     (Club.currentSquad fromClub)))
                 else mret tt);
            (* toClub.currentSquad.push(player._id) *)
            _ ← (if existsb (N.eqb playerId) (Club.currentSquad toClub) then mret tt
                 else saveClub toClubId
                        (λ c, Club.set_currentSquad
                                (Club.currentSquad c ++ [playerId]) c));
            mret (complete transfer)
        | _, _, _ => throw (ErrorResponse "Player or clubs not found" 404)
        end
  end.

Definition completeTransfer (now : Date) (transferId : ObjectId)
    (contractData : option ContractData) (db : Store)
  : Store * (Exception + Transfer.t) :=
  withTransaction (completeTransferIn now transferId contractData) db.

(** [cancelTransfer(transferId, reason)]; [releaseFunds] is the ledger's
    release (see [BudgetLedger.release]). *)
Definition cancelTransferIn (transferId : ObjectId) (reason : string)
  : Session Transfer.t :=
  transfer ← inSession (λ s, transfers s !! transferId);
  match transfer with
  | None =>
      throw (ErrorResponse ("Transfer not found with id " +:+ pretty transferId) 404)
  | Some transfer =>
      if negb (bool_decide (Transfer.status transfer = Pending)) then
        throw (ErrorResponse ("Cannot cancel transfer with status "
                              +:+ showTransferStatus (Transfer.status transfer)) 400)
      else
        _ ← BudgetLedger.release (Transfer.toClub transfer)
              (Transfer.transferFee transfer);
        let cancel (t : Transfer.t) :=
          Transfer.set_additionalTerm "cancellationReason" (MString reason)
            (Transfer.set_status Cancelled t) in
        _ ← saveTransfer transferId cancel;
        mret (cancel transfer)
  end.

Definition cancelTransfer (transferId : ObjectId) (reason : string) (db : Store)
  : Store * (Exception + Transfer.t) :=
  withTransaction (cancelTransferIn transferId reason) db.

End TransferService1.

(** The second listing of the class. *)
Module TransferService2.

Import TransferCommon.

Definition calculateTransferBudgetImpact (transferFee : Z)
    (transferType : option string) : Double.t * Double.t :=
  match transferType with
  | Some "Loan" =>
      (Double.mul (Double.ofZ transferFee) (Double.literal 3 10),
       Double.mul (Double.opp (Double.ofZ transferFee)) (Double.literal 3 10))
  | Some "Free Transfer" => (Double.ofZ 0, Double.ofZ 0)
  | _ => (Double.ofZ transferFee, Double.opp (Double.ofZ transferFee))
  end.

(** Modelled from the spec: [reserveClubBudgets] is not part of the
    listing.  "Reserves the fee against the destination club's budget via
    the Budget Ledger": the ledger's reserve on [toClub]; arguments that are
    absent from the data are [undefined] and no club is found for them. *)
Definition reserveClubBudgets (fromClub toClub : option ObjectId)
    (transferFee : option Z) : Session unit :=
  match toClub, transferFee with
  | Some toClub, Some transferFee => BudgetLedger.reserve toClub transferFee
  | _, _ => throw (ErrorResponse "Club not found" 404)
  end.

Definition initiateTransferIn (now : Date) (transferData : TransferData)
  : Session (ObjectId * Transfer.t) :=
  _ ← validateTransfer transferData;
  (* budgetImpact = calculateTransferBudgetImpact(transferData) is not used *)
  transfer ← insertTransfer now (with_status "Pending" transferData);
  _ ← reserveClubBudgets (td_fromClub transferData) (td_toClub transferData)
        (td_transferFee transferData);
  mret transfer.

Definition initiateTransfer (now : Date) (transferData : TransferData) (db : Store)
  : Store * (Exception + (ObjectId * Transfer.t)) :=
  withTransaction (initiateTransferIn now transferData) db.

(** This listing saves the revalued player and applies no age multiplier. *)
Definition updatePlayerValue (now : Date) (playerId : ObjectId) (transferFee : Z)
  : Session Player.t :=
  player ← inSession (findPlayer (Some playerId));
  match player with
  | None => throw (ErrorResponse ("Player not found with ID " +:+ pretty playerId) 404)
  | Some player =>
      let newMarketValue := Math_round (inject_Z transferFee * (9 # 10))%Q in
      _ ← saveMarketValue now playerId newMarketValue;
      mret (Player.set_marketValue newMarketValue player)
  end.

(** [completeTransfer(transferId)] of this listing.  The contract data
    are [{ playerId, clubId, ...transfer.contractDetails }]; the schema
    makes [contractDetails] the id of a contract, and spreading an id adds
    no contract field. *)
Definition completeTransferIn (now : Date) (transferId : ObjectId)
  : Session Transfer.t :=
  transfer ← inSession (λ s, transfers s !! transferId);
  match transfer with
  | None =>
      throw (ErrorResponse ("Transfer not found with ID " +:+ pretty transferId) 404)
  | Some transfer =>
      if negb (bool_decide (Transfer.status transfer = Pending)) then
        throw (ErrorResponse ("Cannot complete transfer with status: "
                              +:+ showTransferStatus (Transfer.status transfer)) 400)
      else
        let playerId := Transfer.playerId transfer in
        let fromClubId := Transfer.fromClub transfer in
        let toClubId := Transfer.toClub transfer in
        player ← inSession (λ s, players s !! playerId);
        fromClub ← inSession (λ s, clubs s !! fromClubId);
        toClub ← inSession (λ s, clubs s !! toClubId);
        match player, fromClub, toClub with
        | Some player, Some fromClub, Some toClub =>
            oldContract ← inSession (λ s,
              findOne (λ c, bool_decide (Contract.playerId c = playerId)
                            && bool_decide (Contract.clubId c = fromClubId)
                            && isActive c)
                      (contracts s));
            _ ← match oldContract with
                | Some (oldId, _) =>
                    _ ← terminateOldContract now oldId; mret tt
                | None => mret tt
                end;
            _ ← match Transfer.contractDetails transfer with
                | Some _ =>
                    _ ← createNewContract now
                          (mkContractData (Some playerId) (Some toClubId)
                                          None None None None);
                    mret tt
                | None => mret tt
                end;
            _ ← updatePlayerValue now playerId (Transfer.transferFee transfer);
            _ ← savePlayer now playerId (Player.set_currentClub (Some toClubId));
            _ ← BudgetLedger.settle fromClubId toClubId
                  (Transfer.transferFee transfer);
            _ ← saveTransfer transferId (Transfer.set_status Completed);
            _ ← saveClub fromClubId
                  (Club.set_currentSquad
                     (List.filter (λ id, negb (N.eqb id playerId))
                                  (Club.currentSquad fromClub)));
            _ ← saveClub toClubId
                  (λ c, Club.set_currentSquad (Club.currentSquad c ++ [playerId]) c);
            mret (Transfer.set_status Completed transfer)
        | _, _, _ => throw (ErrorResponse "Player or clubs not found" 404)
        end
  end.

Definition completeTransfer (now : Date) (transferId : ObjectId) (db : Store)
  : Store * (Exception + Transfer.t) :=
  withTransaction (completeTransferIn now transferId) db.

(** Modelled from the spec: [releaseClubBudgets] is not part of the
    listing.  "Releases the previously reserved destination-club funds":
    the ledger's release on [toClub]. *)
Definition releaseClubBudgets (fromClub toClub : ObjectId) (transferFee : Z)
  : Session unit :=
  BudgetLedger.release toClub transferFee.

Definition cancelTransferIn (transferId : ObjectId) (reason : string)
  : Session Transfer.t :=
  transfer ← inSession (λ s, transfers s !! transferId);
  match transfer with
  | None =>
      throw (ErrorResponse ("Transfer not found with ID " +:+ pretty transferId) 404)
  | Some transfer =>
      if negb (bool_decide (Transfer.status transfer = Pending)) then
        throw (ErrorResponse ("Cannot cancel transfer with status: "
                              +:+ showTransferStatus (Transfer.status transfer)) 400)
      else
        _ ← releaseClubBudgets (Transfer.fromClub transfer)
              (Transfer.toClub transfer) (Transfer.transferFee transfer);
        let cancel (t : Transfer.t) :=
          Transfer.set_additionalTerm "cancellationReason" (MString reason)
            (Transfer.set_status Cancelled t) in
        _ ← saveTransfer transferId cancel;
        mret (cancel transfer)
  end.

Definition cancelTransfer (transferId : ObjectId) (reason : string) (db : Store)
  : Store * (Exception + Transfer.t) :=
  withTransaction (cancelTransferIn transferId reason) db.

End TransferService2.

(** ** Change data capture (utils/cdc.js) *)

Module CDC.

Inductive Document :=
  | PlayerDoc (d : Player.t)
  | ClubDoc (d : Club.t)
  | ContractDoc (d : Contract.t)
  | TransferDoc (d : Transfer.t).

(** A change event of the store's change stream, with the annotations the
    bus adds to it. *)
Record Change := mkChange {
  operationType : string;
  documentKey : ObjectId;
  clusterTime : Z;                  (* timestamp given by the source *)
  fullDocument : option Document;
  cdcTimestamp : option Date;       (* [_cdcTimestamp] *)
  cdcModelName : option string;     (* [_cdcModelName] *)
  cdcManuallyTriggered : bool       (* [_cdcManuallyTriggered] *)
}.

(** The state of a [CDC] instance; [emitted] records, oldest first, every
    [emit(event, payload)] of the underlying [EventEmitter]. *)
Record t := mk {
  isEnabled : bool;
  changeLog : list Change;
  maxChangeLogSize : nat;
  emitted : list (string * Change)
}.

Definition constructor (enabled : bool) : t := mk enabled [] 1000 [].

Definition emit (event : string) (payload : Change) (cdc : t) : t :=
  mk (isEnabled cdc) (changeLog cdc) (maxChangeLogSize cdc)
     (emitted cdc ++ [(event, payload)]).

Definition set_changeLog (v : list Change) (cdc : t) : t :=
  mk (isEnabled cdc) v (maxChangeLogSize cdc) (emitted cdc).

(** [push] then, past the maximum size, [shift]. *)
Definition logChange (change : Change) (cdc : t) : t :=
  let log := changeLog cdc ++ [change] in
  if (maxChangeLogSize cdc <? length log)%nat
  then set_changeLog (tail log) cdc
  else set_changeLog log cdc.

Definition stamp (now : Date) (modelName : string) (change : Change) : Change :=
  mkChange (operationType change) (documentKey change) (clusterTime change)
    (fullDocument change) (Some now) (Some modelName)
    (cdcManuallyTriggered change).

Definition handleChange (now : Date) (modelName : string) (change : Change)
    (cdc : t) : t :=
  let changeWithTimestamp := stamp now modelName change in
  let cdc := logChange changeWithTimestamp cdc in
  let cdc := emit ("change:" +:+ modelName) changeWithTimestamp cdc in
  let cdc := emit "change" changeWithTimestamp cdc in
  let op := operationType change in
  if decide (op = "insert") then emit ("insert:" +:+ modelName) changeWithTimestamp cdc
  else if decide (op = "update") then emit ("update:" +:+ modelName) changeWithTimestamp cdc
  else if decide (op = "delete") then emit ("delete:" +:+ modelName) changeWithTimestamp cdc
  else if decide (op = "replace") then emit ("replace:" +:+ modelName) changeWithTimestamp cdc
  else cdc.

Definition triggerChange (now : Date) (modelName operationType : string)
    (id : ObjectId) (document : Document) (cdc : t) : t :=
  if negb (isEnabled cdc) then cdc
  else
    handleChange now modelName
      (mkChange operationType id 0 (Some document) (Some now) (Some modelName) true)
      cdc.

(** [array.slice(start)]: a negative start counts from the end. *)
Definition slice {A} (start : Z) (l : list A) : list A :=
  let len := Z.of_nat (length l) in
  let from := if start <? 0 then Z.max (len + start) 0 else Z.min start len in
  drop (Z.to_nat from) l.

(** [getAllChanges(limit = 100)]: [changeLog.slice(-limit)]. *)
Definition getAllChanges (limit : option Z) (cdc : t) : list Change :=
  slice (- default 100 limit) (changeLog cdc).

(** [getChangesForModel(modelName, limit = 10)]. *)
Definition getChangesForModel (modelName : string) (limit : option Z) (cdc : t)
  : list Change :=
  slice (- default 10 limit)
    (List.filter (λ change, bool_decide (cdcModelName change = Some modelName))
                 (changeLog cdc)).

(** [resolveConflict(change1, change2)]: [new Date(x) > new Date(y)] on the
    capture timestamps; a missing timestamp is an invalid date, and a
    comparison with it is false. *)
Definition resolveConflict (change1 change2 : Change) : Change :=
  match cdcTimestamp change1, cdcTimestamp change2 with
  | Some t1, Some t2 => if getTime t2 <? getTime t1 then change1 else change2
  | _, _ => change2
  end.

End CDC.

(** ** A small world used to run the operations *)

Module Sample.

Definition day (t y m d : Z) : Date := mkDate t y m d.

Definition jan2000 : Date := day 946684800000 2000 0 1.
Definition jul2024 : Date := day 1719705600000 2024 5 30.
Definition jan2025 : Date := day 1736899200000 2025 0 15.
Definition jul2025 : Date := day 1751328000000 2025 6 1.
Definition oct2025 : Date := day 1759276800000 2025 9 1.
Definition jul2026 : Date := day 1782864000000 2026 6 1.
Definition jul2028 : Date := day 1846022400000 2028 6 1.

Definition clubA : ObjectId := 1%N.
Definition clubB : ObjectId := 2%N.
Definition playerX : ObjectId := 10%N.

(** Club A (budget 10,000,000) holds player X (value 5,000,000); club B has
    a budget of 15,000,000; no contract or transfer exists yet. *)
Definition db0 : Store :=
  mkStore
    {[ playerX := Player.mk jan2000 (Some clubA) 5000000 ]}
    (<[ clubA := Club.mk 10000000 [playerX] ]>
       {[ clubB := Club.mk 15000000 [] ]})
    ∅ ∅.

Definition oneYearWithA : ContractData :=
  mkContractData (Some playerX) (Some clubA) (Some jul2025) (Some jul2026)
                 (Some 100000) None.

(** The world after player X signed the one-year contract with club A. *)
Definition db1 : Store :=
  (ContractService2.createContract jul2025 oneYearWithA db0).1.

(** Club A sells player X to club B for 7,000,000 in the Summer window. *)
Definition sale : TransferData :=
  mkTransferData (Some playerX) (Some clubA) (Some clubB) (Some 7000000)
    (Some jul2025) (Some "Permanent") None (Some "Summer") None None None None.

(** The same sale with an active sell-on clause of 10 percent. *)
Definition saleWithSellOn : TransferData :=
  mkTransferData (Some playerX) (Some clubA) (Some clubB) (Some 7000000)
    (Some jul2025) (Some "Permanent") None (Some "Summer") None
    (Some (mkSellOn 10 true)) None None.

(** A sale dated in October. *)
Definition saleInOctober : TransferData := with_date oct2025 sale.

(** A veteran born in 1970 under a contract with club A that ended in
    July 2026; by 2028 the pre-save hook rejects the player document. *)
Definition veteran : ObjectId := 11%N.
Definition jan1970 : Date := day 0 1970 0 1.
Definition dbVeteran : Store :=
  mkStore
    {[ veteran := Player.mk jan1970 (Some clubA) 100000 ]}
    {[ clubA := Club.mk 10000000 [veteran] ]}
    {[ 0%N := Contract.mk veteran clubA jul2025 jul2026 50000 ∅ Active ]}
    ∅.

End Sample.


Module SampleCDC.

(** An insert of player X as the change feed reports it. *)
Definition inserted : CDC.Change :=
  CDC.mkChange "insert" Sample.playerX 1751328000 None None None false.

(** An update of club A. *)
Definition updated : CDC.Change :=
  CDC.mkChange "update" Sample.clubA 1751328001 None None None false.

(** The n-th insert of a feed: document n, at source time n. *)
Definition numbered (n : nat) : CDC.Change :=
  CDC.mkChange "insert" (N.of_nat n) (Z.of_nat n) None None None false.

End SampleCDC.
(** ** Vocabulary of the properties *)

(** Code that leaves the contracts of the session alone. *)
Definition keepsContracts {A} (m : Session A) : Prop :=
  ∀ c s a s', m c s = inr (a, s') -> contracts s' = contracts s.


(** A player has at most one Active contract. *)
Definition atMostOneActive (db : Store) : Prop :=
  ∀ k1 k2 c1 c2,
    contracts db !! k1 = Some c1 -> contracts db !! k2 = Some c2 ->
    Contract.status c1 = Active -> Contract.status c2 = Active ->
    Contract.playerId c1 = Contract.playerId c2 -> k1 = k2.

(** The Active contracts of a player are all with one club. *)
Definition oneClub (m : gmap ObjectId Contract.t) : Prop :=
  ∀ k1 k2 c1 c2,
    m !! k1 = Some c1 -> m !! k2 = Some c2 ->
    Contract.status c1 = Active -> Contract.status c2 = Active ->
    Contract.playerId c1 = Contract.playerId c2 ->
    Contract.clubId c1 = Contract.clubId c2.

Definition activeWithOneClub (db : Store) : Prop := oneClub (contracts db).

(** The two ways in which the engine writes the contracts collection: a
    document that is not Active is written, or a document is written for a
    player whose Active contracts are all with the club of that document. *)
Inductive contractEvent (m : gmap ObjectId Contract.t)
  : gmap ObjectId Contract.t -> Prop :=
  | ev_close k d :
      Contract.status d ≠ Active -> contractEvent m (<[k := d]> m)
  | ev_open k d :
      (∀ j c, m !! j = Some c -> isActive c = true ->
              Contract.playerId c = Contract.playerId d ->
              Contract.clubId c = Contract.clubId d) ->
      contractEvent m (<[k := d]> m).

(** Code whose successful runs change the contracts by such writes only. *)
Definition evolves {A} (m : Session A) : Prop :=
  ∀ c s a s', m c s = inr (a, s') ->
    rtc contractEvent (contracts s) (contracts s').

(** One committed (or aborted) operation of the engine. *)
Inductive engineStep (db : Store) : Store -> Prop :=
  | step_createContract now contractData :
      engineStep db (ContractService2.createContract now contractData db).1
  | step_renewContract now contractId renewalData :
      engineStep db (ContractService2.renewContract now contractId renewalData db).1
  | step_terminateContract now contractId terminationData :
      engineStep db
        (ContractService2.terminateContract now contractId terminationData db).1
  | step_terminateContract1 now contractId terminationData :
      engineStep db
        (ContractService1.terminateContract now contractId terminationData db).1
  | step_completeTransfer now transferId contractData :
      engineStep db
        (TransferService1.completeTransfer now transferId contractData db).1
  | step_completeTransfer2 now transferId :
      engineStep db (TransferService2.completeTransfer now transferId db).1
  | step_processExpiredContracts today :
      engineStep db (ContractService2.processExpiredContracts today db).1
  | step_processExpiredContracts1 today :
      engineStep db (ContractService1.processExpiredContracts today db).1.

Definition reachable : Store -> Store -> Prop := rtc engineStep.

(** The only change a sweep makes to the contracts: some of them get the
    status Expired. *)
Definition expires (m m' : gmap ObjectId Contract.t) : Prop :=
  ∀ k, m' !! k = m !! k
       ∨ ∃ d, m !! k = Some d ∧ m' !! k = Some (Contract.set_status Expired d).

(** The player of contract [d] is registered with the club of [d] and the
    pre-save hook rejects the player document: expiring [d] fails. *)
Definition blocked (today : Date) (db : Store) (d : Contract.t) : Prop :=
  ∃ p, players db !! Contract.playerId d = Some p
       ∧ Player.currentClub p = Some (Contract.clubId d)
       ∧ Player.preSave today (Player.set_currentClub None p) ≠ None.

Definition stuck (today : Date) (db : Store) (id : ObjectId) (d : Contract.t)
  : Prop :=
  contracts db !! id = None ∨ blocked today db d.

(** What the steps of a sweep preserve: contracts only expire, and a player
    document that the pre-save hook rejects stays as it is. *)
Definition sweeps (today : Date) (db db' : Store) : Prop :=
  expires (contracts db) (contracts db')
  ∧ ∀ i p, players db !! i = Some p ->
           Player.preSave today (Player.set_currentClub None p) ≠ None ->
           players db' !! i = Some p.

(** The budget of a club, if the club exists. *)
Definition budgetOf (club : ObjectId) (db : Store) : option Z :=
  Club.budget <$> clubs db !! club.

(** Code that leaves every club budget of the session alone. *)
Definition keepsBudgets {A} (m : Session A) : Prop :=
  ∀ c s a s', m c s = inr (a, s') -> ∀ i, budgetOf i s' = budgetOf i s.

(** The credit of the origin club in the words of the spec:
    "originClub.budget = preBudget + fee × (1 − sellOnPercentage/100)". *)
Definition specOriginBudget (preBudget fee sellOnPercentage : Z) : Q :=
  (inject_Z preBudget
   + inject_Z fee * (1 - inject_Z sellOnPercentage / 100))%Q.

(** The post-transfer value in the words of the spec's scenario:
    "round(fee × 0.9 × ageMultiplier / 100000) × 100000". *)
Definition specScenarioValue (fee : Z) (ageMultiplier : Q) : Z :=
  Math_round (inject_Z fee * (9 # 10) * ageMultiplier / 100000)%Q * 100000.

(** [Math.round(Math.round(fee * 0.9) * ageMultiplier)] in integer
    arithmetic: the base value and its boosted and discounted forms. *)
Definition baseValue (fee : Z) : Z := (9 * fee + 5) / 10.
Definition revalued (fee age : Z) : Z :=
  if age <? 23 then (12 * baseValue fee + 5) / 10
  else if 30 <? age then (8 * baseValue fee + 5) / 10
  else baseValue fee.

(** The change log after a sequence of logged changes, from a fresh
    instance. *)
Definition logged (enabled : bool) (changes : list CDC.Change) : CDC.t :=
  foldl (λ cdc change, CDC.logChange change cdc) (CDC.constructor enabled) changes.


(** The events one delivery of a change publishes: on the channel of the
    model, on the global channel, and on the channel of the operation. *)
Definition published (now : Date) (modelName : string) (change : CDC.Change)
  : list (string * CDC.Change) :=
  let stamped := CDC.stamp now modelName change in
  let op := CDC.operationType change in
  [("change:" +:+ modelName, stamped); ("change", stamped)]
  ++ (if decide (op = "insert") then [("insert:" +:+ modelName, stamped)]
      else if decide (op = "update") then [("update:" +:+ modelName, stamped)]
      else if decide (op = "delete") then [("delete:" +:+ modelName, stamped)]
      else if decide (op = "replace") then [("replace:" +:+ modelName, stamped)]
      else []).

(** ** Vocabulary of the further properties *)

(** Two versions of a contract with the same parties and terms. *)
Definition sameTerms (d d' : Contract.t) : Prop :=
  Contract.playerId d' = Contract.playerId d
  ∧ Contract.clubId d' = Contract.clubId d
  ∧ Contract.startDate d' = Contract.startDate d
  ∧ Contract.endDate d' = Contract.endDate d
  ∧ Contract.salary d' = Contract.salary d.

(** The life of the contracts collection: an Active contract is closed
    (keeping its parties and terms), or an Active contract appears under an
    unused id. *)
Inductive lifecycle (m : gmap ObjectId Contract.t)
  : gmap ObjectId Contract.t -> Prop :=
  | lc_close k d d' :
      m !! k = Some d -> Contract.status d = Active ->
      Contract.status d' ≠ Active -> sameTerms d d' ->
      lifecycle m (<[k := d']> m)
  | lc_open k d :
      m !! k = None -> Contract.status d = Active ->
      lifecycle m (<[k := d]> m).

(** Code whose successful runs move the contracts along their life only. *)
Definition ages {A} (m : Session A) : Prop :=
  ∀ c s a s', m c s = inr (a, s') ->
    rtc lifecycle (contracts s) (contracts s').

(** Code whose successful runs leave one part of the store (a collection,
    or something read from it) as it was. *)
Definition frames {A B} (field : Store -> B) (m : Session A) : Prop :=
  ∀ c s a s', m c s = inr (a, s') -> field s' = field s.

(** Two versions of a transfer that record the same deal. *)
Definition sameDeal (t t' : Transfer.t) : Prop :=
  Transfer.playerId t' = Transfer.playerId t
  ∧ Transfer.fromClub t' = Transfer.fromClub t
  ∧ Transfer.toClub t' = Transfer.toClub t
  ∧ Transfer.transferFee t' = Transfer.transferFee t
  ∧ Transfer.date t' = Transfer.date t
  ∧ Transfer.transferType t' = Transfer.transferType t
  ∧ Transfer.transferWindow t' = Transfer.transferWindow t
  ∧ Transfer.sellOnClause t' = Transfer.sellOnClause t.

(** The life of the transfers collection: a Pending transfer is settled
    (keeping its deal), or a transfer appears under an unused id. *)
Inductive dealEvent (m : gmap ObjectId Transfer.t)
  : gmap ObjectId Transfer.t -> Prop :=
  | de_settle k t t' :
      m !! k = Some t -> Transfer.status t = Pending ->
      Transfer.status t' ≠ Pending -> sameDeal t t' ->
      dealEvent m (<[k := t']> m)
  | de_open k t :
      m !! k = None -> dealEvent m (<[k := t]> m).

(** One operation of the services or of the transfer controller. *)
Inductive marketStep (db : Store) : Store -> Prop :=
  | ms_engine db' : engineStep db db' -> marketStep db db'
  | ms_updateContract contractId updateData :
      marketStep db (ContractService1.updateContract contractId updateData db).1
  | ms_initiateTransfer1 now transferData :
      marketStep db (TransferService1.initiateTransfer now transferData db).1
  | ms_initiateTransfer2 now transferData :
      marketStep db (TransferService2.initiateTransfer now transferData db).1
  | ms_cancelTransfer1 transferId reason :
      marketStep db (TransferService1.cancelTransfer transferId reason db).1
  | ms_cancelTransfer2 transferId reason :
      marketStep db (TransferService2.cancelTransfer transferId reason db).1
  | ms_createTransfer now body :
      marketStep db (createTransfer now body db).1.

(** The squad of a club, if the club exists. *)
Definition squadOf (club : ObjectId) (db : Store) : option (list ObjectId) :=
  Club.currentSquad <$> clubs db !! club.

(** Two versions of a player document of one person: the date of birth is
    the same and a market value that was not negative is not negative. *)
Definition samePerson (p p' : Player.t) : Prop :=
  Player.dateOfBirth p' = Player.dateOfBirth p
  ∧ (0 <= Player.marketValue p -> 0 <= Player.marketValue p').

(** The only way in which the services write the players: an existing
    document is saved again for the same person. *)
Inductive playerEvent (m : gmap ObjectId Player.t)
  : gmap ObjectId Player.t -> Prop :=
  | pe_save i p p' :
      m !! i = Some p -> samePerson p p' -> playerEvent m (<[i := p']> m).

(** Code whose successful runs change the players by such writes only. *)
Definition grooms {A} (m : Session A) : Prop :=
  ∀ c s a s', m c s = inr (a, s') ->
    rtc playerEvent (players s) (players s').

(** Transfer data that pass the checks of [validateTransfer] against a
    store: the player exists, the date lies in a window, the buying club
    exists, affords the fee and has room in its squad, and the player has
    an Active contract. *)
Definition passesChecks (td : TransferData) (db : Store) : Prop :=
  ∃ d toClub club k contract,
    is_Some (findPlayer (td_playerId td) db)
    ∧ td_date td = Some d
    ∧ (5 <= getMonth d <= 7 ∨ getMonth d = 0)
    ∧ td_toClub td = Some toClub
    ∧ clubs db !! toClub = Some club
    ∧ (∀ fee, td_transferFee td = Some fee -> fee <= Club.budget club)
    ∧ (length (Club.currentSquad club) < 25)%nat
    ∧ contracts db !! k = Some contract
    ∧ Some (Contract.playerId contract) = td_playerId td
    ∧ Contract.status contract = Active.

(** Transfer data that the validators of the Transfer schema accept, the
    status and the transfer window apart: the required references and the
    fee are given, the fee is not negative, the transfer type is one of the
    enumeration, a loan has a duration, a duration is at least 1 and the
    sell-on percentage lies within 0..100. *)
Definition wellFormed (td : TransferData) : Prop :=
  ∃ playerId fromClub toClub fee transferType,
    td_playerId td = Some playerId
    ∧ td_fromClub td = Some fromClub
    ∧ td_toClub td = Some toClub
    ∧ td_transferFee td = Some fee
    ∧ 0 <= fee
    ∧ castOr castTransferType Permanent (td_transferType td) = Some transferType
    ∧ (transferType = Loan -> is_Some (td_loanDuration td))
    ∧ (∀ n, td_loanDuration td = Some n -> 1 <= n)
    ∧ 0 <= percentage (default (mkSellOn 0 false) (td_sellOnClause td)) <= 100.
(** * Properties *)

(** ** Running a session *)

Section SessionFacts.
Context {A B : Type}.
Implicit Types (c s : Store).

Lemma bind_inr (m : Session A) (k : A -> Session B) c s r :
  (m ≫= k) c s = inr r ->
  ∃ a s', m c s = inr (a, s') ∧ k a c s' = inr r.
Proof.
  unfold mbind, Session_bind. destruct (m c s) as [e | [a s']]; [done |].
  intros H. by exists a, s'.
Qed.

Lemma bind_inl_l (m : Session A) (k : A -> Session B) c s e :
  m c s = inl e -> (m ≫= k) c s = inl e.
Proof. unfold mbind, Session_bind. by intros ->. Qed.

Lemma bind_inr_l (m : Session A) (k : A -> Session B) c s a s' :
  m c s = inr (a, s') -> (m ≫= k) c s = k a c s'.
Proof. unfold mbind, Session_bind. by intros ->. Qed.

Lemma withTransaction_inl (body : Session A) db db' e :
  withTransaction body db = (db', inl e) -> db' = db.
Proof.
  unfold withTransaction. destruct (body db db) as [e' | [a s']]; congruence.
Qed.

Lemma withTransaction_inr (body : Session A) db db' a :
  withTransaction body db = (db', inr a) -> body db db = inr (a, db').
Proof.
  unfold withTransaction. destruct (body db db) as [e' | [a' s']]; congruence.
Qed.

Lemma withTransaction_throw (body : Session A) db e :
  body db db = inl e -> withTransaction body db = (db, inl e).
Proof. unfold withTransaction. by intros ->. Qed.

End SessionFacts.

Lemma inSession_inr {A} (q : Store -> A) c s a s' :
  inSession q c s = inr (a, s') -> a = q s ∧ s' = s.
Proof. unfold inSession. intros [= <- <-]. done. Qed.

Lemma noSession_inr {A} (q : Store -> A) c s a s' :
  noSession q c s = inr (a, s') -> a = q c ∧ s' = s.
Proof. unfold noSession. intros [= <- <-]. done. Qed.

Lemma mret_inr {A} (x : A) c s a s' :
  (mret x : Session A) c s = inr (a, s') -> a = x ∧ s' = s.
Proof. unfold mret, Session_ret. intros [= <- <-]. done. Qed.

Lemma savePlayer_inr today id f c s u s' :
  savePlayer today id f c s = inr (u, s') ->
  ∃ p, players s !! id = Some p ∧ Player.preSave today (f p) = None
       ∧ s' = set_players (<[id := f p]> (players s)) s.
Proof.
  unfold savePlayer. destruct (players s !! id) as [p |]; [| done].
  destruct (Player.preSave today (f p)) eqn:Hpre; [done |].
  intros [= <- <-]. by exists p.
Qed.

Lemma saveMarketValue_inr today id v c s u s' :
  saveMarketValue today id v c s = inr (u, s') ->
  ∃ p, players s !! id = Some p
       ∧ s' = set_players (<[id := Player.set_marketValue v p]> (players s)) s.
Proof.
  unfold saveMarketValue. destruct (v <? 0); [done |].
  intros (p & ? & _ & ?)%savePlayer_inr. by exists p.
Qed.

Lemma saveClub_inr id f c s u s' :
  saveClub id f c s = inr (u, s') ->
  ∃ cl, clubs s !! id = Some cl ∧ s' = set_clubs (<[id := f cl]> (clubs s)) s.
Proof.
  unfold saveClub. destruct (clubs s !! id) as [cl |]; [| done].
  intros [= <- <-]. by exists cl.
Qed.

Lemma saveBudget_inr id v c s u s' :
  saveBudget id v c s = inr (u, s') ->
  0 <= v ∧ ∃ cl, clubs s !! id = Some cl
       ∧ s' = set_clubs (<[id := Club.set_budget v cl]> (clubs s)) s.
Proof.
  unfold saveBudget. destruct (v <? 0) eqn:Hv; [done |].
  intros H%saveClub_inr. split; [lia | done].
Qed.

Lemma saveContract_inr id f c s u s' :
  saveContract id f c s = inr (u, s') ->
  ∃ d, contracts s !! id = Some d
       ∧ s' = set_contracts (<[id := f d]> (contracts s)) s.
Proof.
  unfold saveContract. destruct (contracts s !! id) as [d |]; [| done].
  intros [= <- <-]. by exists d.
Qed.

Lemma saveTransfer_inr id f c s u s' :
  saveTransfer id f c s = inr (u, s') ->
  ∃ d, transfers s !! id = Some d
       ∧ s' = set_transfers (<[id := f d]> (transfers s)) s.
Proof.
  unfold saveTransfer. destruct (transfers s !! id) as [d |]; [| done].
  intros [= <- <-]. by exists d.
Qed.

(** Inversion of a successful run, one bind at a time. *)
Ltac run_inv H :=
  repeat first
    [ apply bind_inr in H; destruct H as (? & ? & ? & H)
    | match type of H with
      | throw _ _ _ = inr _ => discriminate H
      end ];
  repeat match goal with
    | H0 : inSession _ _ _ = inr _ |- _ =>
        apply inSession_inr in H0; destruct H0 as [? ?]; subst
    | H0 : noSession _ _ _ = inr _ |- _ =>
        apply noSession_inr in H0; destruct H0 as [? ?]; subst
    | H0 : mret _ _ _ = inr _ |- _ =>
        apply mret_inr in H0; destruct H0 as [? ?]; subst
    end.

(** ** Queries *)

Lemma find_elem {D} (f : D -> bool) (m : gmap ObjectId D) k d :
  (k, d) ∈ find f m ↔ m !! k = Some d ∧ f d = true.
Proof.
  unfold find. rewrite list_elem_of_In, filter_In, <- list_elem_of_In.
  rewrite elem_of_map_to_list. simpl. done.
Qed.

Lemma findOne_None {D} (f : D -> bool) (m : gmap ObjectId D) k d :
  findOne f m = None -> m !! k = Some d -> f d = false.
Proof.
  unfold findOne. intros Hhd Hk. destruct (f d) eqn:Hf; [| done].
  assert (Hin : (k, d) ∈ find f m) by by apply find_elem.
  destruct (find f m); [by apply elem_of_nil in Hin | done].
Qed.

Lemma findOne_Some {D} (f : D -> bool) (m : gmap ObjectId D) k d :
  findOne f m = Some (k, d) -> m !! k = Some d ∧ f d = true.
Proof.
  unfold findOne. intros Hhd. apply find_elem.
  destruct (find f m) as [| x l]; [done |]. simpl in Hhd.
  injection Hhd as ->. apply list_elem_of_here.
Qed.

Lemma newId_fresh {D} (m : gmap ObjectId D) : m !! newId m = None.
Proof. apply not_elem_of_dom. unfold newId. apply is_fresh. Qed.

(** ** Contract service: what a successful run does *)

Lemma validateContract_inr cd c s b s' :
  ContractService2.validateContract cd c s = inr (b, s') ->
  s' = s ∧ ∃ p cl sd ed sal,
    cd_playerId cd = Some p ∧ cd_clubId cd = Some cl
    ∧ cd_startDate cd = Some sd ∧ cd_endDate cd = Some ed
    ∧ cd_salary cd = Some sal
    ∧ is_Some (players s !! p) ∧ is_Some (clubs s !! cl)
    ∧ getTime sd < getTime ed
    ∧ ∀ k d, contracts s !! k = Some d -> isActive d = true ->
             Contract.playerId d = p -> Contract.clubId d = cl.
Proof.
  unfold ContractService2.validateContract. intros H.
  destruct (cd_playerId cd) as [p |]; [| done].
  destruct (cd_clubId cd) as [cl |]; [| done].
  destruct (cd_startDate cd) as [sd |]; [| done].
  destruct (cd_endDate cd) as [ed |]; [| done].
  destruct (cd_salary cd) as [sal |]; [| done].
  run_inv H. simpl in H.
  destruct (players s !! p) as [pl |] eqn:Hp; [| done].
  destruct (clubs s !! cl) as [club |] eqn:Hc; [| done].
  destruct (getTime ed <=? getTime sd) eqn:Hle; [done |].
  destruct (_ <? ContractService2.minDuration); [done |].
  destruct (ContractService2.maxDuration <? _); [done |].
  run_inv H.
  destruct (findOne _ _) eqn:Hfind in H; [done |].
  run_inv H.
  destruct (Club.budget club <? _); [done |].
  run_inv H. split; [done |].
  exists p, cl, sd, ed, sal. repeat split; try done; [lia |].
  intros k d Hk Hact Hpl.
  pose proof (findOne_None _ _ k d Hfind Hk) as Hf. simpl in Hf.
  rewrite Hact, Hpl in Hf. rewrite bool_decide_eq_true_2 in Hf by done.
  simpl in Hf. apply bool_decide_eq_false in Hf.
  destruct (decide (Contract.clubId d = cl)); [done | by exfalso; apply Hf].
Qed.
Lemma insertContract_inr cd c s id doc s' :
  insertContract cd c s = inr ((id, doc), s') ->
  id = newId (contracts s)
  ∧ s' = set_contracts (<[id := doc]> (contracts s)) s
  ∧ cd_playerId cd = Some (Contract.playerId doc)
  ∧ cd_clubId cd = Some (Contract.clubId doc)
  ∧ cd_startDate cd = Some (Contract.startDate doc)
  ∧ cd_endDate cd = Some (Contract.endDate doc)
  ∧ cd_salary cd = Some (Contract.salary doc)
  ∧ Contract.status doc = Active.
Proof.
  unfold insertContract.
  destruct (cd_playerId cd) as [p |]; [| done].
  destruct (cd_clubId cd) as [cl |]; [| done].
  destruct (cd_startDate cd) as [sd |]; [| done].
  destruct (cd_endDate cd) as [ed |]; [| done].
  destruct (cd_salary cd) as [sal |]; [| done].
  destruct (sal <? 0); [done |].
  intros [= <- <- <-]. done.
Qed.

Lemma keeps_mret {A} (x : A) : keepsContracts (mret x).
Proof. intros c s a s' [_ ->]%mret_inr. done. Qed.

Lemma keeps_savePlayer today id f : keepsContracts (savePlayer today id f).
Proof. intros c s a s' (? & _ & _ & ->)%savePlayer_inr. done. Qed.

Lemma keeps_saveMarketValue today id v : keepsContracts (saveMarketValue today id v).
Proof. intros c s a s' (? & _ & ->)%saveMarketValue_inr. done. Qed.

Lemma keeps_saveClub id f : keepsContracts (saveClub id f).
Proof. intros c s a s' (? & _ & ->)%saveClub_inr. done. Qed.

Lemma keeps_saveBudget id v : keepsContracts (saveBudget id v).
Proof. intros c s a s' (_ & ? & _ & ->)%saveBudget_inr. done. Qed.

(** What a successful [createContract] inside a session does to the
    contracts: one fresh Active contract for the player and club of the
    data, accepted only if every Active contract of that player is with
    that club. *)
Lemma createContractIn_inr now cd c s id doc s' :
  ContractService2.createContractIn now cd c s = inr ((id, doc), s') ->
  id = newId (contracts s)
  ∧ contracts s' = <[id := doc]> (contracts s)
  ∧ cd_playerId cd = Some (Contract.playerId doc)
  ∧ cd_clubId cd = Some (Contract.clubId doc)
  ∧ cd_endDate cd = Some (Contract.endDate doc)
  ∧ Contract.status doc = Active
  ∧ getTime (Contract.startDate doc) < getTime (Contract.endDate doc)
  ∧ ∀ k d, contracts s !! k = Some d -> isActive d = true ->
           Contract.playerId d = Contract.playerId doc ->
           Contract.clubId d = Contract.clubId doc.
Proof.
  unfold ContractService2.createContractIn. intros H. run_inv H.
  match goal with
  | Hv : ContractService2.validateContract _ _ _ = _ |- _ =>
      apply validateContract_inr in Hv;
      destruct Hv as (-> & p & cl & sd & ed & sal & Hp & Hcl & Hsd & Hed & Hsal
                      & Hpl & Hclub & Hlt & Hguard)
  end.
  match goal with
  | Hi : insertContract _ _ _ = inr _ |- _ =>
      apply insertContract_inr in Hi;
      destruct Hi as (Hid & -> & Hp' & Hcl' & Hsd' & Hed' & Hsal' & Hst)
  end.
  rewrite Hp in Hp'. rewrite Hcl in Hcl'. rewrite Hsd in Hsd'. rewrite Hed in Hed'.
  injection Hp' as ->. injection Hcl' as ->. injection Hsd' as ->.
  injection Hed' as ->.
  simpl in *. rewrite Hp, Hcl in *. simpl in *. subst id.
  match goal with
  | H1 : (match players _ !! _ with _ => _ end) _ _ = inr (_, ?sa),
    H2 : (match clubs _ !! _ with _ => _ end) _ ?sa = inr (_, ?sb) |- _ =>
      assert (contracts sa = <[newId (contracts s) := doc]> (contracts s)) as Ea;
      [ destruct (players _ !! _) in H1;
        [apply keeps_savePlayer in H1 | apply keeps_mret in H1]; apply H1
      | assert (contracts sb = contracts sa) as Eb;
        [ destruct (clubs _ !! _) in H2; [destruct (existsb _ _) in H2 |];
          [apply keeps_mret in H2 | apply keeps_saveClub in H2 | apply keeps_mret in H2];
          apply H2 | ] ]
  end.
  simplify_eq. rewrite Eb, Ea. repeat split; try done.
Qed.

(** What a successful termination inside a session does. *)
Lemma terminateContractIn_inr now k td c s c' s' :
  ContractService2.terminateContractIn now k td c s = inr (c', s') ->
  ∃ d, contracts s !! k = Some d ∧ Contract.status d = Active
    ∧ s' = set_contracts (<[k := c']> (contracts s)) s
    ∧ Contract.status c' = Terminated
    ∧ Contract.playerId c' = Contract.playerId d
    ∧ Contract.clubId c' = Contract.clubId d
    ∧ Contract.clauses c' !! "terminationReason"
      = Some (MString (strOr (reason td) "Transfer")).
Proof.
  unfold ContractService2.terminateContractIn. intros H. run_inv H.
  destruct (contracts s !! k) as [d |] eqn:Hk; [| done].
  destruct (isActive d) eqn:Hact; [| done]. simpl in H.
  run_inv H.
  match goal with
  | Hs : saveContract _ _ _ _ = inr _ |- _ =>
      apply saveContract_inr in Hs; destruct Hs as (d' & Hk' & ->)
  end.
  rewrite Hk in Hk'. injection Hk' as <-.
  exists d. split; [done |].
  split; [by apply bool_decide_eq_true in Hact |].
  split; [done |].
  destruct (truthy (compensationFee td)); simpl;
    repeat split; try done;
    repeat (rewrite lookup_insert_ne by done); by rewrite lookup_insert_eq.
Qed.

Lemma terminateContractIn1_inr now k td c s c' s' :
  ContractService1.terminateContractIn now k td c s = inr (c', s') ->
  ∃ d, contracts s !! k = Some d ∧ Contract.status d = Active
    ∧ contracts s' = <[k := c']> (contracts s)
    ∧ Contract.status c' = Terminated.
Proof.
  unfold ContractService1.terminateContractIn. intros H. run_inv H.
  destruct (contracts s !! k) as [d |] eqn:Hk; [| done].
  destruct (isActive d) eqn:Hact; [| done]. simpl in H.
  run_inv H.
  match goal with
  | Hs : saveContract _ _ _ _ = inr _ |- _ =>
      apply saveContract_inr in Hs; destruct Hs as (d' & Hk' & ->)
  end.
  rewrite Hk in Hk'. injection Hk' as <-.
  exists d. split; [done |].
  split; [by apply bool_decide_eq_true in Hact |].
  assert (Hkeep : ∀ sa u sb,
     (if updatePlayerStatus td
      then player ← inSession (findPlayer (Some (Contract.playerId d)));
           match player with
           | Some _ =>
               if freeAgent td
               then savePlayer now (Contract.playerId d) (Player.set_currentClub None)
               else mret tt
           | None => mret tt
           end
      else mret tt) c sa = inr (u, sb) -> contracts sb = contracts sa).
  { intros sa u sb Hm. destruct (updatePlayerStatus td).
    - run_inv Hm. destruct (findPlayer _ _); [destruct (freeAgent td) |].
      + by apply keeps_savePlayer in Hm as ->.
      + by apply keeps_mret in Hm as ->.
      + by apply keeps_mret in Hm as ->.
    - by apply keeps_mret in Hm as ->. }
  match goal with
  | Hm : (if updatePlayerStatus td then _ else _) c _ = inr _ |- _ =>
      apply Hkeep in Hm; rewrite Hm
  end.
  split; [done |]. by destruct (truthy (compensationFee td)).
Qed.

Lemma keeps_updatePlayerValueOnRenewal now p doc :
  keepsContracts (ContractService2.updatePlayerValueOnRenewal now p doc).
Proof.
  intros c s a s' H. unfold ContractService2.updatePlayerValueOnRenewal in H.
  run_inv H. destruct (findPlayer _ _); [| done].
  destruct (Double.round _); [| done].
  by apply keeps_saveMarketValue in H.
Qed.

Lemma keeps_saveTransfer id f : keepsContracts (saveTransfer id f).
Proof. intros c s a s' (? & _ & ->)%saveTransfer_inr. done. Qed.

Lemma keeps_inSession {A} (q : Store -> A) : keepsContracts (inSession q).
Proof. intros c s a s' [_ ->]%inSession_inr. done. Qed.

Lemma keeps_bind {A B} (m : Session A) (k : A -> Session B) :
  keepsContracts m -> (∀ a, keepsContracts (k a)) -> keepsContracts (m ≫= k).
Proof.
  intros Hm Hk c s b s' (a & s1 & H1 & H2)%bind_inr.
  apply Hm in H1. apply Hk in H2. congruence.
Qed.

Lemma keeps_reserve id v : keepsContracts (BudgetLedger.reserve id v).
Proof.
  apply keeps_bind; [apply keeps_inSession |]. intros [cl |]; [| done].
  simpl. destruct (Club.budget cl <? v); [done |]. apply keeps_saveBudget.
Qed.

Lemma keeps_settle i j v : keepsContracts (BudgetLedger.settle i j v).
Proof.
  apply keeps_bind; [apply keeps_inSession |]. intros from.
  apply keeps_bind; [apply keeps_inSession |]. intros to.
  destruct from, to; try done. apply keeps_saveBudget.
Qed.

Lemma keeps_updatePlayerValue1 now p fee :
  keepsContracts (TransferService1.updatePlayerValue now p fee).
Proof.
  apply keeps_bind; [apply keeps_inSession |]. intros [pl |]; [| done].
  apply keeps_mret.
Qed.

(** ** Active contracts of a player *)

Lemma isActive_true c : isActive c = true ↔ Contract.status c = Active.
Proof. unfold isActive. apply bool_decide_eq_true. Qed.

Lemma oneClub_event m m' : oneClub m -> contractEvent m m' -> oneClub m'.
Proof.
  intros Hinv [k d Hd | k d Hguard] k1 k2 c1 c2 H1 H2 A1 A2 Hp.
  - destruct (decide (k = k1)) as [-> | ?].
    { rewrite lookup_insert_eq in H1. congruence. }
    destruct (decide (k = k2)) as [-> | ?].
    { rewrite lookup_insert_eq in H2. congruence. }
    rewrite lookup_insert_ne in H1, H2 by done. eauto.
  - destruct (decide (k = k1)) as [-> | ?], (decide (k1 = k2)) as [-> | ?].
    + congruence.
    + rewrite lookup_insert_eq in H1. rewrite lookup_insert_ne in H2 by done.
      injection H1 as ->. symmetry.
      apply (Hguard k2 c2); [done | by apply isActive_true | done].
    + congruence.
    + rewrite lookup_insert_ne in H1 by done.
      destruct (decide (k = k2)) as [-> | ?].
      * rewrite lookup_insert_eq in H2. injection H2 as ->.
        apply (Hguard k1 c1); [done | by apply isActive_true | done].
      * rewrite lookup_insert_ne in H2 by done. eauto.
Qed.

Lemma oneClub_events m m' : rtc contractEvent m m' -> oneClub m -> oneClub m'.
Proof. induction 1; eauto using oneClub_event. Qed.

Lemma evolves_keeps {A} (m : Session A) : keepsContracts m -> evolves m.
Proof. intros H c s a s' ->%H. done. Qed.

Lemma evolves_bind {A B} (m : Session A) (k : A -> Session B) :
  evolves m -> (∀ a, evolves (k a)) -> evolves (m ≫= k).
Proof.
  intros Hm Hk c s b s' (a & s1 & H1 & H2)%bind_inr.
  etrans; [by eapply Hm | by eapply Hk].
Qed.

Lemma evolves_throw {A} e : evolves (throw e : Session A).
Proof. done. Qed.

Lemma evolves_createContractIn now cd :
  evolves (ContractService2.createContractIn now cd).
Proof.
  intros c s [id doc] s' (_ & -> & _ & _ & _ & _ & _ & Hguard)%createContractIn_inr.
  apply rtc_once. by apply ev_open.
Qed.

Lemma evolves_terminateContractIn now k td :
  evolves (ContractService2.terminateContractIn now k td).
Proof.
  intros c s d' s' (d & _ & _ & -> & Hst & _)%terminateContractIn_inr.
  apply rtc_once. apply ev_close. congruence.
Qed.

Lemma evolves_terminateContractIn1 now k td :
  evolves (ContractService1.terminateContractIn now k td).
Proof.
  intros c s d' s' (d & _ & _ & -> & Hst)%terminateContractIn1_inr.
  apply rtc_once. apply ev_close. congruence.
Qed.

Lemma evolves_renewContractIn now k rd :
  evolves (ContractService2.renewContractIn now k rd).
Proof.
  unfold ContractService2.renewContractIn.
  apply evolves_bind; [apply evolves_keeps, keeps_inSession |].
  intros [old |]; [| done]. destruct (negb (isActive old)); [done |].
  apply evolves_bind; [apply evolves_terminateContractIn |]. intros _.
  apply evolves_bind; [apply evolves_createContractIn |]. intros new.
  apply evolves_bind;
    [apply evolves_keeps, keeps_updatePlayerValueOnRenewal |].
  intros _. apply evolves_keeps, keeps_mret.
Qed.

Lemma evolves_completeTransferIn now tid cd :
  evolves (TransferService1.completeTransferIn now tid cd).
Proof.
  unfold TransferService1.completeTransferIn.
  apply evolves_bind; [apply evolves_keeps, keeps_inSession |].
  intros [t |]; [| done]. destruct (negb _); [done |].
  apply evolves_bind; [apply evolves_keeps, keeps_inSession |]. intros player.
  apply evolves_bind; [apply evolves_keeps, keeps_inSession |]. intros fromClub.
  apply evolves_bind; [apply evolves_keeps, keeps_inSession |]. intros toClub.
  destruct player as [player |], fromClub as [fromClub |], toClub as [toClub |];
    try done.
  apply evolves_bind; [apply evolves_keeps, keeps_inSession |]. intros old.
  apply evolves_bind.
  { destruct old as [[oldId ?] |]; [| apply evolves_keeps, keeps_mret].
    apply evolves_bind; [apply evolves_terminateContractIn |].
    intros _. apply evolves_keeps, keeps_mret. }
  intros _. apply evolves_bind.
  { destruct cd as [cd |]; [| apply evolves_keeps, keeps_mret].
    apply evolves_bind; [apply evolves_createContractIn |].
    intros ?. apply evolves_keeps, keeps_mret. }
  intros new.
  apply evolves_bind; [apply evolves_keeps, keeps_updatePlayerValue1 |]. intros _.
  apply evolves_bind; [apply evolves_keeps, keeps_savePlayer |]. intros _.
  apply evolves_bind; [apply evolves_keeps, keeps_settle |]. intros _.
  apply evolves_bind; [apply evolves_keeps, keeps_saveTransfer |]. intros _.
  apply evolves_bind.
  { case_match; apply evolves_keeps; [apply keeps_saveClub | apply keeps_mret]. }
  intros _. apply evolves_bind.
  { case_match; apply evolves_keeps; [apply keeps_mret | apply keeps_saveClub]. }
  intros _. apply evolves_keeps, keeps_mret.
Qed.

Lemma keeps_updatePlayerValue2 now p fee :
  keepsContracts (TransferService2.updatePlayerValue now p fee).
Proof.
  apply keeps_bind; [apply keeps_inSession |]. intros [pl |]; [| done].
  apply keeps_bind; [apply keeps_saveMarketValue |]. intros _. apply keeps_mret.
Qed.

Lemma evolves_completeTransferIn2 now tid :
  evolves (TransferService2.completeTransferIn now tid).
Proof.
  unfold TransferService2.completeTransferIn.
  apply evolves_bind; [apply evolves_keeps, keeps_inSession |].
  intros [t |]; [| done]. destruct (negb _); [done |].
  apply evolves_bind; [apply evolves_keeps, keeps_inSession |]. intros player.
  apply evolves_bind; [apply evolves_keeps, keeps_inSession |]. intros fromClub.
  apply evolves_bind; [apply evolves_keeps, keeps_inSession |]. intros toClub.
  destruct player as [player |], fromClub as [fromClub |], toClub as [toClub |];
    try done.
  apply evolves_bind; [apply evolves_keeps, keeps_inSession |]. intros old.
  apply evolves_bind.
  { destruct old as [[oldId ?] |]; [| apply evolves_keeps, keeps_mret].
    apply evolves_bind; [apply evolves_terminateContractIn |].
    intros _. apply evolves_keeps, keeps_mret. }
  intros _. apply evolves_bind.
  { destruct (Transfer.contractDetails t); [| apply evolves_keeps, keeps_mret].
    apply evolves_bind; [apply evolves_createContractIn |].
    intros ?. apply evolves_keeps, keeps_mret. }
  intros _.
  apply evolves_bind; [apply evolves_keeps, keeps_updatePlayerValue2 |]. intros _.
  apply evolves_bind; [apply evolves_keeps, keeps_savePlayer |]. intros _.
  apply evolves_bind; [apply evolves_keeps, keeps_settle |]. intros _.
  apply evolves_bind; [apply evolves_keeps, keeps_saveTransfer |]. intros _.
  apply evolves_bind; [apply evolves_keeps, keeps_saveClub |]. intros _.
  apply evolves_bind; [apply evolves_keeps, keeps_saveClub |]. intros _.
  apply evolves_keeps, keeps_mret.
Qed.

Lemma evolves_expireAll l n : evolves (ContractService2.expireAll l n).
Proof.
  revert n. induction l as [| [id d] l IH]; intros n; simpl.
  - apply evolves_keeps, keeps_mret.
  - apply evolves_bind; [| intros _; apply IH].
    intros c s a s' (d0 & _ & ->)%saveContract_inr.
    apply rtc_once. by apply ev_close.
Qed.

Lemma evolves_expireOne today id d : evolves (ContractService1.expireOne today id d).
Proof.
  unfold ContractService1.expireOne. apply evolves_bind.
  { intros c s a s' (d0 & _ & ->)%saveContract_inr.
    apply rtc_once. by apply ev_close. }
  intros _. apply evolves_bind; [apply evolves_keeps, keeps_inSession |].
  intros [p |]; [| apply evolves_keeps, keeps_mret].
  case_match; apply evolves_keeps; [apply keeps_savePlayer | apply keeps_mret].
Qed.

(** A transaction either commits the writes of its body or changes nothing. *)
Lemma withTransaction_events {A} (m : Session A) db :
  evolves m -> rtc contractEvent (contracts db) (contracts (withTransaction m db).1).
Proof.
  intros Hm. unfold withTransaction.
  destruct (m db db) as [e | [a s']] eqn:E; simpl; [done |]. by eapply Hm.
Qed.

Lemma sweep_events today l n db :
  rtc contractEvent (contracts db)
      (contracts (ContractService1.sweep today l n db).1).
Proof.
  revert n db. induction l as [| [id d] l IH]; intros n db; simpl; [done |].
  pose proof (withTransaction_events (ContractService1.expireOne today id d) db
                (evolves_expireOne today id d)) as Hstep.
  destruct (withTransaction _ db) as [db' [e | u]]; simpl in Hstep;
    (etrans; [exact Hstep | apply IH]).
Qed.

Lemma engineStep_events db db' :
  engineStep db db' -> rtc contractEvent (contracts db) (contracts db').
Proof.
  destruct 1.
  - apply withTransaction_events, evolves_createContractIn.
  - apply withTransaction_events, evolves_renewContractIn.
  - apply withTransaction_events, evolves_terminateContractIn.
  - apply withTransaction_events, evolves_terminateContractIn1.
  - apply withTransaction_events, evolves_completeTransferIn.
  - apply withTransaction_events, evolves_completeTransferIn2.
  - apply withTransaction_events, evolves_expireAll.
  - apply sweep_events.
Qed.

(** ** Claims about the contract lifecycle *)

(** C1 (as amended).  In every state reached from a state where the Active
    contracts of each player are all with one club, by any sequence of
    createContract, renewContract, terminateContract, completeTransfer and
    expired-contract sweeps (committed or aborted), the Active contracts of
    each player are still all with one club. *)
Theorem active_contracts_with_one_club db0 db :
  activeWithOneClub db0 -> reachable db0 db -> activeWithOneClub db.
Proof.
  intros Hinv Hreach. induction Hreach as [| db1 db2 db3 Hstep _ IH]; [done |].
  apply IH. unfold activeWithOneClub in *.
  eapply oneClub_events; [by apply engineStep_events | done].
Qed.

Lemma active_contracts_with_one_club_witness :
  activeWithOneClub
    (ContractService2.createContract Sample.jul2025 Sample.oneYearWithA
       (ContractService2.createContract Sample.jul2025 Sample.oneYearWithA
          Sample.db0).1).1.
Proof.
  apply (active_contracts_with_one_club Sample.db0).
  - intros k1 k2 c1 c2 H1. vm_compute in H1. discriminate.
  - eapply rtc_l; [apply step_createContract |].
    eapply rtc_l; [apply step_createContract |]. apply rtc_refl.
Defined.

(** C1 (as stated) fails: creating the same one-year contract with club A
    twice is accepted both times, because only an Active contract with a
    different club is looked for, and leaves player X with two Active
    contracts. *)
Lemma two_active_contracts_same_club :
  let db2 :=
    (ContractService2.createContract Sample.jul2025 Sample.oneYearWithA
       (ContractService2.createContract Sample.jul2025 Sample.oneYearWithA
          Sample.db0).1).1 in
  contracts Sample.db0 = ∅ ∧ reachable Sample.db0 db2 ∧ ¬ atMostOneActive db2.
Proof.
  split; [done |]. split.
  - eapply rtc_l; [apply step_createContract |].
    eapply rtc_l; [apply step_createContract |]. apply rtc_refl.
  - intros H.
    specialize (H 0%N 1%N
      (Contract.mk Sample.playerX Sample.clubA Sample.jul2025 Sample.jul2026
                   100000 ∅ Active)
      (Contract.mk Sample.playerX Sample.clubA Sample.jul2025 Sample.jul2026
                   100000 ∅ Active)).
    assert (0%N = 1%N) as Heq; [| discriminate Heq].
    apply H; vm_compute; reflexivity.
Qed.

(** C2 (as amended).  A creation whose endDate is not after its startDate
    always fails and persists nothing: the store after the call is the
    store before it.  The failure is a ValidationError (400) when a
    required field (playerId, clubId or salary) is missing (the
    missing-fields error) and when the fields are given and the referenced
    player and club both exist (the date-order error); when the fields are
    given and the player or the club does not exist it is a NotFound
    (404), the player being looked up first. *)
Theorem createContract_bad_dates_rejected now cd db sd ed :
  cd_startDate cd = Some sd -> cd_endDate cd = Some ed ->
  getTime ed <= getTime sd ->
  ∃ e, ContractService2.createContract now cd db = (db, inl e)
       ∧ (isValidationError e ∨ isNotFound e)
       ∧ (cd_playerId cd = None ∨ cd_clubId cd = None ∨ cd_salary cd = None ->
          e = ErrorResponse "Missing required contract fields" 400)
       ∧ (∀ p cl, cd_playerId cd = Some p -> cd_clubId cd = Some cl ->
            is_Some (cd_salary cd) ->
            (players db !! p = None ->
             e = ErrorResponse ("Player not found with id " +:+ pretty p) 404)
            ∧ (is_Some (players db !! p) -> clubs db !! cl = None ->
               e = ErrorResponse ("Club not found with id " +:+ pretty cl) 404)
            ∧ (is_Some (players db !! p) -> is_Some (clubs db !! cl) ->
               e = ErrorResponse "Contract end date must be after start date"
                     400)).
Proof.
  intros Hsd Hed Hle.
  assert (∃ e, ContractService2.validateContract cd db db = inl e
       ∧ (isValidationError e ∨ isNotFound e)
       ∧ (cd_playerId cd = None ∨ cd_clubId cd = None ∨ cd_salary cd = None ->
          e = ErrorResponse "Missing required contract fields" 400)
       ∧ (∀ p cl, cd_playerId cd = Some p -> cd_clubId cd = Some cl ->
            is_Some (cd_salary cd) ->
            (players db !! p = None ->
             e = ErrorResponse ("Player not found with id " +:+ pretty p) 404)
            ∧ (is_Some (players db !! p) -> clubs db !! cl = None ->
               e = ErrorResponse ("Club not found with id " +:+ pretty cl) 404)
            ∧ (is_Some (players db !! p) -> is_Some (clubs db !! cl) ->
               e = ErrorResponse "Contract end date must be after start date"
                     400)))
    as (e & Hv & Hkind).
  { unfold ContractService2.validateContract. rewrite Hsd, Hed.
    destruct (cd_playerId cd) as [p |];
      [| eexists; split; [done |]; split; [by left |]; split; [done |];
         by intros ? ? [=]].
    destruct (cd_clubId cd) as [cl |];
      [| eexists; split; [done |]; split; [by left |]; split; [done |];
         by intros ? ? _ [=]].
    destruct (cd_salary cd) as [sal |];
      [| eexists; split; [done |]; split; [by left |]; split; [done |];
         by intros ? ? _ _ [? [=]]].
    unfold mbind, Session_bind, inSession. simpl.
    destruct (players db !! p) as [pl |] eqn:Hp.
    2:{ eexists; split; [done |]. split; [by right |].
        split; [by intros [[=] | [[=] | [=]]] |].
        intros p' cl' [= <-] [= <-] _. rewrite Hp.
        split; [done |]. split; by intros [? [=]]. }
    destruct (clubs db !! cl) as [club |] eqn:Hc.
    2:{ eexists; split; [done |]. split; [by right |].
        split; [by intros [[=] | [[=] | [=]]] |].
        intros p' cl' [= <-] [= <-] _. rewrite Hp, Hc.
        split; [done |]. split; [done |]. by intros _ [? [=]]. }
    apply Z.leb_le in Hle. rewrite Hle.
    eexists; split; [done |]. split; [by left |].
    split; [by intros [[=] | [[=] | [=]]] |].
    intros p' cl' [= <-] [= <-] _. rewrite Hp, Hc. by repeat split. }
  exists e. split; [| done].
  unfold ContractService2.createContract. apply withTransaction_throw.
  unfold ContractService2.createContractIn. by apply bind_inl_l.
Qed.

Lemma createContract_bad_dates_rejected_witness :
  ContractService2.createContract Sample.jul2025
    (mkContractData (Some Sample.playerX) (Some Sample.clubA)
       (Some Sample.jul2026) (Some Sample.jul2025) (Some 100000) None)
    Sample.db0
  = (Sample.db0,
     inl (ErrorResponse "Contract end date must be after start date" 400))
  ∧ ContractService2.createContract Sample.jul2025
      (mkContractData (Some 99%N) (Some Sample.clubA)
         (Some Sample.jul2026) (Some Sample.jul2025) None None)
      Sample.db0
    = (Sample.db0, inl (ErrorResponse "Missing required contract fields" 400)).
Proof.
  split.
  - destruct (createContract_bad_dates_rejected Sample.jul2025
                (mkContractData (Some Sample.playerX) (Some Sample.clubA)
                   (Some Sample.jul2026) (Some Sample.jul2025) (Some 100000) None)
                Sample.db0 Sample.jul2026 Sample.jul2025)
      as (e & Hrun & _ & _ & Hkind);
      [reflexivity | reflexivity | vm_compute; discriminate |].
    destruct (Hkind Sample.playerX Sample.clubA) as (_ & _ & He);
      [reflexivity | reflexivity | by eexists |].
    rewrite Hrun, He; [reflexivity | vm_compute; eauto | vm_compute; eauto].
  - destruct (createContract_bad_dates_rejected Sample.jul2025
                (mkContractData (Some 99%N) (Some Sample.clubA)
                   (Some Sample.jul2026) (Some Sample.jul2025) None None)
                Sample.db0 Sample.jul2026 Sample.jul2025)
      as (e & Hrun & _ & He & _);
      [reflexivity | reflexivity | vm_compute; discriminate |].
    rewrite Hrun, He; [reflexivity | by right; right].
Defined.

(** C2 (as stated) fails: for a player that does not exist the creation
    with endDate before startDate is rejected with NotFound (404), not with
    a ValidationError, since the existence checks come before the date
    check. *)
Lemma createContract_bad_dates_unknown_player :
  let cd := mkContractData (Some 99%N) (Some Sample.clubA)
              (Some Sample.jul2026) (Some Sample.jul2025) (Some 100000) None in
  getTime Sample.jul2025 <= getTime Sample.jul2026
  ∧ ContractService2.createContract Sample.jul2025 cd Sample.db0
    = (Sample.db0, inl (ErrorResponse "Player not found with id 99" 404))
  ∧ ¬ ∃ e, ContractService2.createContract Sample.jul2025 cd Sample.db0
           = (Sample.db0, inl e) ∧ isValidationError e.
Proof.
  split; [vm_compute; discriminate |]. split; [vm_compute; reflexivity |].
  intros (e & Hrun & Hkind). vm_compute in Hrun.
  injection Hrun as <-. vm_compute in Hkind. discriminate.
Qed.

(** Renewal under terms that name no party.  For renewal terms that do not
    themselves carry a playerId or clubId: a successful renewContract adds
    exactly one contract, Active, under a fresh id, for the player and club
    of the old contract, turns the old (Active) contract into a Terminated
    one whose "terminationReason" clause is "Renewal", and leaves every
    other contract as it was; a failing renewContract leaves the whole
    store (contracts, players, clubs, transfers) as it was. *)
Lemma renewContract_one_new_one_terminated now contractId renewalData db :
  cd_playerId renewalData = None -> cd_clubId renewalData = None ->
  match ContractService2.renewContract now contractId renewalData db with
  | (db', inr (id, newContract)) =>
      ∃ old old',
        contracts db !! contractId = Some old
        ∧ Contract.status old = Active
        ∧ contracts db !! id = None
        ∧ id ≠ contractId
        ∧ contracts db' = <[id := newContract]> (<[contractId := old']> (contracts db))
        ∧ Contract.status newContract = Active
        ∧ Contract.playerId newContract = Contract.playerId old
        ∧ Contract.clubId newContract = Contract.clubId old
        ∧ Contract.status old' = Terminated
        ∧ Contract.playerId old' = Contract.playerId old
        ∧ Contract.clubId old' = Contract.clubId old
        ∧ Contract.clauses old' !! "terminationReason" = Some (MString "Renewal")
  | (db', inl _) => db' = db
  end.
Proof.
  intros Hp Hc.
  destruct (ContractService2.renewContract now contractId renewalData db)
    as [db' [e | [id newContract]]] eqn:Hrun.
  { by apply withTransaction_inl in Hrun. }
  apply withTransaction_inr in Hrun.
  unfold ContractService2.renewContractIn in Hrun. run_inv Hrun.
  destruct (contracts db !! contractId) as [old |] eqn:Hold; [| done].
  destruct (negb (isActive old)); [done |].
  run_inv Hrun.
  match goal with
  | Ht : ContractService2.terminateContractIn _ _ _ _ _ = inr (?d, _) |- _ =>
      apply terminateContractIn_inr in Ht;
      destruct Ht as (old0 & Hold0 & Hact & -> & Hst & Hpl & Hcl & Hreason);
      exists old, d
  end.
  rewrite Hold in Hold0. injection Hold0 as <-.
  match goal with
  | Hn : ContractService2.createContractIn _ _ _ _ = inr _ |- _ =>
      apply createContractIn_inr in Hn;
      destruct Hn as (Hid & Hcs & Hp' & Hc' & _ & Hactive & _ & _)
  end.
  match goal with
  | Hu : ContractService2.updatePlayerValueOnRenewal _ _ _ _ _ = inr _ |- _ =>
      apply keeps_updatePlayerValueOnRenewal in Hu; rewrite Hu, Hcs
  end.
  simpl in *. rewrite Hp in Hp'. rewrite Hc in Hc'. simpl in *.
  injection Hp' as Hp'. injection Hc' as Hc'.
  match type of Hid with
  | _ = _ ?m => pose proof (newId_fresh m) as Hfresh
  end.
  rewrite <- Hid in Hfresh.
  assert (id ≠ contractId) as Hne.
  { intros ->. by rewrite lookup_insert_eq in Hfresh. }
  rewrite lookup_insert_ne in Hfresh by done.
  repeat split; try done.
Qed.

(** C5.  The renewal terms are spread last into the data of the new
    contract (l.671-676), so a playerId or clubId they carry replaces the
    one of the old contract; updateContract deletes these keys from its
    update data (restrictedFields), renewContract does not.  Renewing
    player X's Active contract with club A under terms that name club B
    succeeds: the old contract is Terminated, but the new Active contract
    is with club B, not with the same club; player X is then registered
    with club B and listed in the squads of both clubs; an update of the
    same contract with the same clubId leaves its club as it was. *)
Theorem renewContract_terms_override_club :
  let terms := mkContractData None (Some Sample.clubB) None
                 (Some Sample.jul2028) (Some 150000) None in
  let renewed :=
    ContractService2.renewContract Sample.jul2025 0%N terms Sample.db1 in
  let updated :=
    ContractService1.updateContract 0%N
      (ContractService1.mkUpdateData None (Some Sample.clubB) None None
         (Some Sample.jul2028) (Some 150000) None) Sample.db1 in
  (contracts Sample.db1 !! 0%N
   = Some (Contract.mk Sample.playerX Sample.clubA Sample.jul2025
             Sample.jul2026 100000 ∅ Active))
  ∧ squadOf Sample.clubA Sample.db1 = Some [Sample.playerX]
  ∧ squadOf Sample.clubB Sample.db1 = Some []
  ∧ (∃ newContract,
       renewed.2 = inr (1%N, newContract)
       ∧ contracts renewed.1 !! 1%N = Some newContract
       ∧ Contract.status newContract = Active
       ∧ Contract.playerId newContract = Sample.playerX
       ∧ Contract.clubId newContract = Sample.clubB
       ∧ Contract.clubId newContract ≠ Sample.clubA)
  ∧ (Contract.status <$> contracts renewed.1 !! 0%N) = Some Terminated
  ∧ (Contract.clubId <$> contracts renewed.1 !! 0%N) = Some Sample.clubA
  ∧ (Player.currentClub <$> players renewed.1 !! Sample.playerX)
    = Some (Some Sample.clubB)
  ∧ squadOf Sample.clubA renewed.1 = Some [Sample.playerX]
  ∧ squadOf Sample.clubB renewed.1 = Some [Sample.playerX]
  ∧ (Contract.clubId <$> contracts updated.1 !! 0%N) = Some Sample.clubA.
Proof.
  split; [vm_compute; reflexivity |].
  split; [vm_compute; reflexivity |].
  split; [vm_compute; reflexivity |].
  split.
  { eexists. split; [vm_compute; reflexivity |].
    split; [vm_compute; reflexivity |].
    split; [reflexivity |]. split; [reflexivity |].
    split; [reflexivity |]. discriminate. }
  repeat split; vm_compute; reflexivity.
Qed.

(** ** Claims about the transfer lifecycle *)

Lemma newTransfer_Some now data t :
  newTransfer now data = Some t ->
  castOr castTransferStatus Completed (td_status data) = Some (Transfer.status t)
  ∧ td_playerId data = Some (Transfer.playerId t)
  ∧ td_fromClub data = Some (Transfer.fromClub t)
  ∧ td_toClub data = Some (Transfer.toClub t)
  ∧ td_transferFee data = Some (Transfer.transferFee t)
  ∧ Transfer.sellOnClause t = default (mkSellOn 0 false) (td_sellOnClause data).
Proof.
  unfold newTransfer. intros H.
  destruct (td_playerId data); [| done].
  destruct (td_fromClub data); [| done].
  destruct (td_toClub data); [| done].
  destruct (td_transferFee data); [| done].
  simpl in H.
  destruct (castOr castTransferType Permanent _); [| done].
  destruct (castOr castTransferStatus Completed _); [| done].
  simpl in H.
  destruct (td_transferWindow data ≫= castTransferWindow); [| done].
  simpl in H. case_match; [done |]. injection H as <-. done.
Qed.

Lemma insertTransfer_inr now data c s id t s' :
  insertTransfer now data c s = inr ((id, t), s') ->
  newTransfer now data = Some t
  ∧ id = newId (transfers s)
  ∧ s' = set_transfers (<[id := t]> (transfers s)) s.
Proof.
  unfold insertTransfer. destruct (newTransfer now data); [| done].
  intros [= <- <- <-]. done.
Qed.

Lemma reserve_inr clubId amount c s u s' :
  BudgetLedger.reserve clubId amount c s = inr (u, s') ->
  ∃ club, clubs s !! clubId = Some club
    ∧ amount <= Club.budget club
    ∧ s' = set_clubs
             (<[clubId := Club.set_budget (Club.budget club - amount) club]> (clubs s)) s.
Proof.
  unfold BudgetLedger.reserve. intros H. run_inv H.
  destruct (clubs s !! clubId) as [club |] eqn:Hc; [| done].
  destruct (Club.budget club <? amount) eqn:Hlt; [done |].
  apply saveBudget_inr in H as (_ & cl & Hc' & ->).
  rewrite Hc in Hc'. injection Hc' as <-.
  exists club. split; [done |]. split; [lia | done].
Qed.

(** What a successful initiation does, in either listing: the transfer is
    stored as built from the data with status "Pending", and the fee is
    debited from the destination club. *)
Lemma initiateTransfer_inr now td db db' id t :
  TransferService1.initiateTransfer now td db = (db', inr (id, t))
  ∨ TransferService2.initiateTransfer now td db = (db', inr (id, t)) ->
  Transfer.status t = Pending
  ∧ td_toClub td = Some (Transfer.toClub t)
  ∧ td_fromClub td = Some (Transfer.fromClub t)
  ∧ td_transferFee td = Some (Transfer.transferFee t)
  ∧ Transfer.sellOnClause t = default (mkSellOn 0 false) (td_sellOnClause td)
  ∧ id = newId (transfers db)
  ∧ contracts db' = contracts db
  ∧ players db' = players db
  ∧ transfers db' = <[id := t]> (transfers db)
  ∧ ∃ club, clubs db !! Transfer.toClub t = Some club
      ∧ Transfer.transferFee t <= Club.budget club
      ∧ clubs db' = <[Transfer.toClub t :=
            Club.set_budget (Club.budget club - Transfer.transferFee t) club]>
          (clubs db).
Proof.
  assert (Hval : ∀ c s b s',
            TransferCommon.validateTransfer td c s = inr (b, s') -> s' = s).
  { unfold TransferCommon.validateTransfer. intros c s b s' H. run_inv H.
    destruct (findPlayer _ _); [| done].
    destruct (negb _); [done |]. run_inv H.
    repeat match goal with
    | H0 : TransferCommon.validateClubBudgets _ _ _ _ _ = inr _ |- _ =>
        unfold TransferCommon.validateClubBudgets in H0; run_inv H0;
        destruct (findClub _ _); [| done];
        match type of H0 with
        | (if ?b then _ else _) _ _ = _ => destruct b; [done |]
        end; run_inv H0
    | H0 : TransferCommon.validateContractStatus _ _ _ = inr _ |- _ =>
        unfold TransferCommon.validateContractStatus in H0; run_inv H0;
        destruct (findOne _ _); [| done]; run_inv H0
    | H0 : TransferCommon.validateSquadRegistration _ _ _ = inr _ |- _ =>
        unfold TransferCommon.validateSquadRegistration in H0; run_inv H0;
        destruct (findClub _ _); [| done];
        match type of H0 with
        | (if ?b then _ else _) _ _ = _ => destruct b; [done |]
        end; run_inv H0
    end.
    done. }
  intros [H | H]; apply withTransaction_inr in H.
  - unfold TransferService1.initiateTransferIn in H. run_inv H.
    match goal with
    | Hv : TransferCommon.validateTransfer _ _ _ = inr _ |- _ =>
        apply Hval in Hv; subst
    end.
    match goal with
    | Hi : insertTransfer _ _ _ _ = inr _ |- _ =>
        apply insertTransfer_inr in Hi; destruct Hi as (Hnew & -> & ->)
    end.
    apply newTransfer_Some in Hnew as (Hst & _ & Hfrom & Hto & Hfee & Hsell).
    simpl in *. injection Hst as Hst.
    match goal with
    | Hr : BudgetLedger.reserve _ _ _ _ = inr _ |- _ =>
        apply reserve_inr in Hr; destruct Hr as (club & Hclub & Hle & ->)
    end.
    simpl in *. repeat split; try done. by exists club.
  - unfold TransferService2.initiateTransferIn in H. run_inv H.
    match goal with
    | Hv : TransferCommon.validateTransfer _ _ _ = inr _ |- _ =>
        apply Hval in Hv; subst
    end.
    match goal with
    | Hi : insertTransfer _ _ _ _ = inr _ |- _ =>
        apply insertTransfer_inr in Hi; destruct Hi as (Hnew & -> & ->)
    end.
    apply newTransfer_Some in Hnew as (Hst & _ & Hfrom & Hto & Hfee & Hsell).
    simpl in *. injection Hst as Hst.
    match goal with
    | Hr : TransferService2.reserveClubBudgets _ _ _ _ _ = inr _ |- _ =>
        unfold TransferService2.reserveClubBudgets in Hr;
        rewrite Hto, Hfee in Hr;
        apply reserve_inr in Hr; destruct Hr as (club & Hclub & Hle & ->)
    end.
    simpl in *. repeat split; try done. by exists club.
Qed.

Lemma findOne_is_Some {D} (f : D -> bool) (m : gmap ObjectId D) k d :
  m !! k = Some d -> f d = true -> is_Some (findOne f m).
Proof.
  intros Hk Hf. destruct (findOne f m) eqn:H; [eauto |].
  apply (findOne_None _ _ k d) in H; [congruence | done].
Qed.

(** Data that pass the checks are validated, and the store is not touched. *)
Lemma validateTransfer_passes td db :
  passesChecks td db ->
  TransferCommon.validateTransfer td db db = inr (true, db).
Proof.
  intros (d & to & club & k & contract & [p Hp] & Hd & Hwin & Hto & Hclub
          & Hfee & Hsq & Hk & Hpl & Hact).
  assert (TransferCommon.validateTransferWindow (td_date td) = true) as Hw.
  { rewrite Hd. unfold TransferCommon.validateTransferWindow.
    apply orb_true_iff. destruct Hwin as [Hwin | Hwin]; [left | right]; [| lia].
    apply andb_true_iff. lia. }
  assert (findClub (td_toClub td) db = Some club) as Hfc.
  { rewrite Hto. done. }
  assert (match td_transferFee td with
          | Some fee => Club.budget club <? fee
          | None => false
          end = false) as Hb.
  { destruct (td_transferFee td) as [fee |] eqn:Hf; [| done].
    specialize (Hfee fee eq_refl). lia. }
  destruct (findOne_is_Some
              (λ c, bool_decide (Some (Contract.playerId c) = td_playerId td)
                    && isActive c) (contracts db) k contract Hk)
    as [kc Hone].
  { apply andb_true_iff. split; [by apply bool_decide_eq_true |].
    by apply bool_decide_eq_true. }
  assert ((25 <=? length (Club.currentSquad club))%nat = false) as Hroom.
  { apply Nat.leb_gt. lia. }
  unfold TransferCommon.validateTransfer, TransferCommon.validateClubBudgets,
    TransferCommon.validateContractStatus,
    TransferCommon.validateSquadRegistration,
    mbind, Session_bind, inSession, noSession.
  rewrite Hp, Hw. cbn [negb]. cbv beta iota.
  rewrite Hfc. cbv beta iota. rewrite Hb.
  unfold mret, Session_ret. cbv beta iota.
  rewrite Hone. cbv beta iota. rewrite Hroom. reflexivity.
Qed.

(** Well-formed data with a status and a transfer window of the
    enumerations make a document, with that status. *)
Lemma newTransfer_accepts now td status :
  wellFormed td ->
  castOr castTransferStatus Completed (td_status td) = Some status ->
  is_Some (td_transferWindow td ≫= castTransferWindow) ->
  ∃ t, newTransfer now td = Some t
       ∧ Transfer.status t = status
       ∧ td_toClub td = Some (Transfer.toClub t)
       ∧ td_transferFee td = Some (Transfer.transferFee t)
       ∧ 0 <= Transfer.transferFee t.
Proof.
  intros (p & from & to & fee & ty & Hp & Hfrom & Hto & Hfee & Hpos & Hty
          & Hloan & Hdur & Hpct) Hst [w Hw].
  unfold newTransfer. rewrite Hp, Hfrom, Hto, Hfee. simpl.
  rewrite Hty, Hst. simpl. rewrite Hw. simpl.
  assert (match ty, td_loanDuration td with
          | Loan, None => true
          | _, Some n => n <? 1
          | _, None => false
          end = false) as ->.
  { destruct (td_loanDuration td) as [n |] eqn:Hn.
    - specialize (Hdur n eq_refl). destruct ty; lia.
    - destruct ty; try done. by destruct (Hloan eq_refl). }
  replace (fee <? 0) with false by lia.
  replace (percentage (default (mkSellOn 0 false) (td_sellOnClause td)) <? 0)
    with false by lia.
  replace (100 <? percentage (default (mkSellOn 0 false) (td_sellOnClause td)))
    with false by lia.
  simpl. eexists. split; [done |]. done.
Qed.

Lemma reserve_succeeds clubId amount club c s :
  clubs s !! clubId = Some club -> 0 <= amount <= Club.budget club ->
  ∃ s', BudgetLedger.reserve clubId amount c s = inr (tt, s')
        ∧ transfers s' = transfers s.
Proof.
  intros Hclub Hle.
  unfold BudgetLedger.reserve, mbind, Session_bind, inSession.
  rewrite Hclub. replace (Club.budget club <? amount) with false by lia.
  unfold saveBudget. replace (Club.budget club - amount <? 0) with false by lia.
  unfold saveClub. rewrite Hclub. eexists. split; [done |]. done.
Qed.

(** Data that pass the checks and the schema are accepted by the first
    listing, and the transfer comes back Pending. *)
Lemma initiateTransfer1_accepts now td db :
  passesChecks td db -> wellFormed td ->
  ∃ db' id t,
    TransferService1.initiateTransfer now td db = (db', inr (id, t))
    ∧ Transfer.status t = Pending
    ∧ transfers db' !! id = Some t.
Proof.
  intros Hchecks Hwf.
  pose proof (validateTransfer_passes td db Hchecks) as Hval.
  destruct Hchecks as (d & to & club & _ & _ & _ & Hd & _ & Hto & Hclub & Hfee
                       & _).
  destruct (newTransfer_accepts now
              (with_transferWindow
                 (TransferService1.determineTransferWindow
                    (default now (td_date td)))
                 (with_date (default now (td_date td))
                    (with_status "Pending" td))) Pending)
    as (t & Hnew & Hst & Hto' & Hfee' & Hpos); [done | done | |].
  { simpl. unfold TransferService1.determineTransferWindow.
    repeat case_match; by eexists. }
  simpl in Hto', Hfee'. rewrite Hto in Hto'. injection Hto' as Hto'.
  destruct (reserve_succeeds (Transfer.toClub t) (Transfer.transferFee t) club
              db (set_transfers (<[newId (transfers db) := t]> (transfers db)) db))
    as (s' & Hres & Htr).
  { by rewrite <- Hto'. }
  { split; [done |]. by apply Hfee. }
  exists s', (newId (transfers db)), t.
  split; [| split; [done |]].
  - unfold TransferService1.initiateTransfer, withTransaction,
      TransferService1.initiateTransferIn.
    rewrite (bind_inr_l _ _ _ _ _ _ Hval).
    unfold insertTransfer at 1. unfold mbind, Session_bind at 1.
    rewrite Hnew. unfold mbind, Session_bind. cbn [snd]. rewrite Hres.
    reflexivity.
  - rewrite Htr. apply lookup_insert_eq.
Qed.

(** The same for the second listing, which takes the transfer window from
    the data. *)
Lemma initiateTransfer2_accepts now td db :
  passesChecks td db -> wellFormed td ->
  is_Some (td_transferWindow td ≫= castTransferWindow) ->
  ∃ db' id t,
    TransferService2.initiateTransfer now td db = (db', inr (id, t))
    ∧ Transfer.status t = Pending
    ∧ transfers db' !! id = Some t.
Proof.
  intros Hchecks Hwf Hwin.
  pose proof (validateTransfer_passes td db Hchecks) as Hval.
  destruct Hchecks as (d & to & club & _ & _ & _ & Hd & _ & Hto & Hclub & Hfee
                       & _).
  destruct (newTransfer_accepts now (with_status "Pending" td) Pending)
    as (t & Hnew & Hst & Hto' & Hfee' & Hpos); [done | done | done |].
  simpl in Hto', Hfee'.
  destruct (reserve_succeeds (Transfer.toClub t) (Transfer.transferFee t) club
              db (set_transfers (<[newId (transfers db) := t]> (transfers db)) db))
    as (s' & Hres & Htr).
  { rewrite Hto in Hto'. by injection Hto' as <-. }
  { split; [done |]. by apply Hfee. }
  exists s', (newId (transfers db)), t.
  split; [| split; [done |]].
  - unfold TransferService2.initiateTransfer, withTransaction,
      TransferService2.initiateTransferIn.
    rewrite (bind_inr_l _ _ _ _ _ _ Hval).
    unfold insertTransfer at 1. unfold mbind, Session_bind at 1.
    rewrite Hnew. unfold mbind, Session_bind.
    unfold TransferService2.reserveClubBudgets. rewrite Hto', Hfee', Hres.
    reflexivity.
  - rewrite Htr. apply lookup_insert_eq.
Qed.

(** C10.  Whatever status the caller put into transferData, a transfer
    returned by a successful initiateTransfer (either listing) has status
    Pending and is stored as returned; and initiateTransfer does succeed,
    with such a transfer, on all data that pass the checks of
    validateTransfer and the validators of the schema (the second listing
    also needs a transfer window of the enumeration in the data; the first
    sets it itself).  A transfer document created through the controller
    from a body without a status gets the schema default Completed, and is
    created whenever the schema accepts the body. *)
Theorem initiateTransfer_status_Pending now td db :
  (∀ db' id t,
     TransferService1.initiateTransfer now td db = (db', inr (id, t))
     ∨ TransferService2.initiateTransfer now td db = (db', inr (id, t)) ->
     Transfer.status t = Pending ∧ transfers db' !! id = Some t)
  ∧ (∀ db' id t,
       td_status td = None ->
       createTransfer now td db = (db', inr (id, t)) ->
       Transfer.status t = Completed ∧ transfers db' !! id = Some t)
  ∧ (passesChecks td db -> wellFormed td ->
     (∃ db' id t,
        TransferService1.initiateTransfer now td db = (db', inr (id, t))
        ∧ Transfer.status t = Pending ∧ transfers db' !! id = Some t)
     ∧ (is_Some (td_transferWindow td ≫= castTransferWindow) ->
        ∃ db' id t,
          TransferService2.initiateTransfer now td db = (db', inr (id, t))
          ∧ Transfer.status t = Pending ∧ transfers db' !! id = Some t))
  ∧ (wellFormed td -> td_status td = None ->
     is_Some (td_transferWindow td ≫= castTransferWindow) ->
     ∃ db' id t,
       createTransfer now td db = (db', inr (id, t))
       ∧ Transfer.status t = Completed ∧ transfers db' !! id = Some t).
Proof.
  split; [| split; [| split]].
  - intros db' id t H. apply initiateTransfer_inr in H
      as (Hst & _ & _ & _ & _ & _ & _ & _ & Htr & _).
    split; [done |]. rewrite Htr. apply lookup_insert_eq.
  - intros db' id t Hnone H. apply withTransaction_inr in H.
    apply insertTransfer_inr in H as (Hnew & _ & ->).
    apply newTransfer_Some in Hnew as (Hst & _). rewrite Hnone in Hst.
    simpl in Hst. injection Hst as <-. split; [done |]. apply lookup_insert_eq.
  - intros Hchecks Hwf. split.
    + by apply initiateTransfer1_accepts.
    + intros Hwin. by apply initiateTransfer2_accepts.
  - intros Hwf Hnone Hwin.
    destruct (newTransfer_accepts now td Completed Hwf)
      as (t & Hnew & Hst & _); [by rewrite Hnone | done |].
    exists (set_transfers (<[newId (transfers db) := t]> (transfers db)) db),
      (newId (transfers db)), t.
    split; [| split; [done | apply lookup_insert_eq]].
    unfold createTransfer, withTransaction, insertTransfer. by rewrite Hnew.
Qed.

Lemma initiateTransfer_status_Pending_witness :
  let td := with_status "Completed" Sample.sale in
  (∃ db' t,
     TransferService1.initiateTransfer Sample.jul2025 td Sample.db1
     = (db', inr (0%N, t))
     ∧ Transfer.status t = Pending ∧ transfers db' !! 0%N = Some t)
  ∧ (∃ db' t,
       TransferService2.initiateTransfer Sample.jul2025 td Sample.db1
       = (db', inr (0%N, t))
       ∧ Transfer.status t = Pending ∧ transfers db' !! 0%N = Some t)
  ∧ ∃ db' t,
      createTransfer Sample.jul2025 Sample.sale Sample.db1 = (db', inr (0%N, t))
      ∧ Transfer.status t = Completed ∧ transfers db' !! 0%N = Some t.
Proof.
  intros td.
  assert (passesChecks td Sample.db1) as Hchecks.
  { exists Sample.jul2025, Sample.clubB, (Club.mk 15000000 []), 0%N,
      (Contract.mk Sample.playerX Sample.clubA Sample.jul2025 Sample.jul2026
         100000 ∅ Active).
    split; [vm_compute; eauto |]. split; [reflexivity |].
    split; [left; vm_compute; split; discriminate |].
    split; [reflexivity |]. split; [vm_compute; reflexivity |].
    split; [intros fee [= <-]; vm_compute; discriminate |].
    split; [simpl; lia |]. split; [vm_compute; reflexivity |].
    split; reflexivity. }
  assert (∀ d, wellFormed (with_status d Sample.sale)) as Hwf.
  { intros d.
    exists Sample.playerX, Sample.clubA, Sample.clubB, 7000000, Permanent.
    split; [reflexivity |]. split; [reflexivity |]. split; [reflexivity |].
    split; [reflexivity |]. split; [lia |]. split; [reflexivity |].
    split; [discriminate |]. split; [discriminate |]. simpl. lia. }
  destruct (initiateTransfer_status_Pending Sample.jul2025 td Sample.db1)
    as (_ & _ & Hengine & _).
  destruct (Hengine Hchecks (Hwf "Completed")) as [H1 H2].
  destruct (initiateTransfer_status_Pending Sample.jul2025 Sample.sale
              Sample.db1) as (_ & _ & _ & Hschema).
  split; [| split].
  - destruct H1 as (db' & id & t & Hrun & Hst & Hin).
    assert (id = 0%N) as ->.
    { apply (f_equal snd) in Hrun. vm_compute in Hrun. congruence. }
    by exists db', t.
  - destruct H2 as (db' & id & t & Hrun & Hst & Hin); [by eexists |].
    assert (id = 0%N) as ->.
    { apply (f_equal snd) in Hrun. vm_compute in Hrun. congruence. }
    by exists db', t.
  - destruct Hschema as (db' & id & t & Hrun & Hst & Hin);
      [| reflexivity | by eexists |].
    { exists Sample.playerX, Sample.clubA, Sample.clubB, 7000000, Permanent.
      split; [reflexivity |]. split; [reflexivity |]. split; [reflexivity |].
      split; [reflexivity |]. split; [lia |]. split; [reflexivity |].
      split; [discriminate |]. split; [discriminate |]. simpl. lia. }
    assert (id = 0%N) as ->.
    { apply (f_equal snd) in Hrun. vm_compute in Hrun. congruence. }
    by exists db', t.
Defined.

(** C4 (as amended).  A transfer request dated in a month outside the
    windows (neither June-August nor January) makes initiateTransfer fail,
    in either listing, and leaves the store as it was: no Transfer record
    is created and no club budget changes.  The failure is a
    ValidationError (400) when the referenced player exists and a NotFound
    (404) when it does not. *)
Theorem initiateTransfer_outside_window_rejected now td db d :
  td_date td = Some d ->
  getMonth d ≠ 0 -> (getMonth d < 5 ∨ 7 < getMonth d) ->
  ∃ e, TransferService1.initiateTransfer now td db = (db, inl e)
       ∧ TransferService2.initiateTransfer now td db = (db, inl e)
       ∧ (is_Some (findPlayer (td_playerId td) db) ->
          e = ErrorResponse "Transfer date is outside valid transfer windows" 400
          ∧ isValidationError e)
       ∧ (findPlayer (td_playerId td) db = None -> isNotFound e).
Proof.
  intros Hd H0 Hout.
  assert (TransferCommon.validateTransferWindow (td_date td) = false) as Hwin.
  { rewrite Hd. simpl. apply orb_false_iff. split; [| by apply Z.eqb_neq].
    apply andb_false_iff. destruct Hout; [left | right]; lia. }
  assert (∃ e, TransferCommon.validateTransfer td db db = inl e
               ∧ (is_Some (findPlayer (td_playerId td) db) ->
                  e = ErrorResponse
                        "Transfer date is outside valid transfer windows" 400
                  ∧ isValidationError e)
               ∧ (findPlayer (td_playerId td) db = None -> isNotFound e))
    as (e & Hv & Hkind).
  { unfold TransferCommon.validateTransfer, mbind, Session_bind, inSession.
    destruct (findPlayer (td_playerId td) db) as [p |].
    - rewrite Hwin. simpl. eexists. split; [done |]. by split.
    - eexists. split; [done |]. split; [by intros [? ?] | done]. }
  exists e. split; [| split; [| done]].
  - apply withTransaction_throw. by apply bind_inl_l.
  - apply withTransaction_throw. by apply bind_inl_l.
Qed.

Lemma initiateTransfer_outside_window_rejected_witness :
  ∃ e, TransferService1.initiateTransfer Sample.jul2025 Sample.saleInOctober
         Sample.db1 = (Sample.db1, inl e)
       ∧ TransferService2.initiateTransfer Sample.jul2025 Sample.saleInOctober
           Sample.db1 = (Sample.db1, inl e)
       ∧ isValidationError e.
Proof.
  destruct (initiateTransfer_outside_window_rejected Sample.jul2025
              Sample.saleInOctober Sample.db1 Sample.oct2025)
    as (e & H1 & H2 & Hkind & _).
  - reflexivity.
  - simpl. lia.
  - right. simpl. lia.
  - exists e. split; [exact H1 |]. split; [exact H2 |].
    apply Hkind. vm_compute. eauto.
Defined.

(** C4 (as stated) fails: an October request for a player that does not
    exist is rejected with NotFound (404), not with a ValidationError: the
    player is looked up before the window is checked. *)
Lemma initiateTransfer_october_unknown_player :
  let td := mkTransferData (Some 99%N) (Some Sample.clubA) (Some Sample.clubB)
              (Some 7000000) (Some Sample.oct2025) (Some "Permanent") None
              (Some "Outside Window") None None None None in
  getMonth Sample.oct2025 = 9
  ∧ TransferService2.initiateTransfer Sample.jul2025 td Sample.db1
    = (Sample.db1, inl (ErrorResponse "Player not found with ID 99" 404))
  ∧ TransferService1.initiateTransfer Sample.jul2025 td Sample.db1
    = (Sample.db1, inl (ErrorResponse "Player not found with ID 99" 404))
  ∧ ¬ ∃ e, TransferService2.initiateTransfer Sample.jul2025 td Sample.db1
           = (Sample.db1, inl e) ∧ isValidationError e.
Proof.
  split; [reflexivity |]. split; [vm_compute; reflexivity |].
  split; [vm_compute; reflexivity |].
  intros (e & Hrun & Hkind). vm_compute in Hrun.
  injection Hrun as <-. vm_compute in Hkind. discriminate.
Qed.

(** ** The sweep of expired contracts *)

Lemma expires_refl m : expires m m.
Proof. intros k. by left. Qed.

Lemma expires_trans m1 m2 m3 : expires m1 m2 -> expires m2 m3 -> expires m1 m3.
Proof.
  intros H12 H23 k. destruct (H12 k) as [E12 | (d & E1 & E2)],
    (H23 k) as [E23 | (d' & E2' & E3)].
  - left. congruence.
  - right. exists d'. split; congruence.
  - right. exists d. split; congruence.
  - right. exists d. split; [done |]. rewrite E3.
    rewrite E2 in E2'. by injection E2' as <-.
Qed.

Lemma expires_insert m k d :
  m !! k = Some d -> expires m (<[k := Contract.set_status Expired d]> m).
Proof.
  intros Hk j. destruct (decide (k = j)) as [<- | Hne].
  - right. exists d. by rewrite lookup_insert_eq.
  - left. by rewrite lookup_insert_ne.
Qed.

Lemma expires_Expired m m' k d :
  expires m m' -> m !! k = Some d -> Contract.status d = Expired ->
  ∃ d', m' !! k = Some d' ∧ Contract.status d' = Expired.
Proof.
  intros H Hk Hst. destruct (H k) as [E | (d0 & E1 & E2)].
  - exists d. split; congruence.
  - eexists. split; [exact E2 | done].
Qed.

Lemma expires_None m m' k : expires m m' -> m !! k = None -> m' !! k = None.
Proof. intros H Hk. destruct (H k) as [E | (d0 & E1 & E2)]; congruence. Qed.

Lemma expires_Active m m' k d' :
  expires m m' -> m' !! k = Some d' -> Contract.status d' = Active ->
  m !! k = Some d'.
Proof.
  intros H Hk Hst. destruct (H k) as [E | (d0 & E1 & E2)]; [congruence |].
  rewrite Hk in E2. injection E2 as ->. done.
Qed.

Lemma sweeps_refl today db : sweeps today db db.
Proof. split; [apply expires_refl | done]. Qed.

Lemma sweeps_trans today db1 db2 db3 :
  sweeps today db1 db2 -> sweeps today db2 db3 -> sweeps today db1 db3.
Proof.
  intros [E12 P12] [E23 P23]. split; [by eapply expires_trans | eauto].
Qed.

Lemma stuck_sweeps today db db' id d :
  sweeps today db db' -> stuck today db id d -> stuck today db' id d.
Proof.
  intros [Hexp Hpl] [Hnone | (p & Hp & Hclub & Hpre)].
  - left. by eapply expires_None.
  - right. exists p. eauto.
Qed.

Lemma find_nil {D} (f : D -> bool) (m : gmap ObjectId D) :
  (∀ k d, m !! k = Some d -> f d = false) -> find f m = [].
Proof.
  intros H. destruct (find f m) as [| [k d] l] eqn:E; [done |].
  assert ((k, d) ∈ find f m) as [Hk Hf]%find_elem by (rewrite E; left).
  rewrite (H k d Hk) in Hf. done.
Qed.

(** A stuck contract makes its transaction abort, whatever the store. *)
Lemma expireOne_stuck today db id d :
  stuck today db id d ->
  ∃ e, ContractService1.expireOne today id d db db = inl e.
Proof.
  unfold ContractService1.expireOne, mbind, Session_bind, saveContract.
  intros [Hnone | (p & Hp & Hclub & Hpre)].
  - rewrite Hnone. eauto.
  - destruct (contracts db !! id) as [d0 |]; [| eauto].
    unfold inSession, findPlayer, savePlayer. simpl. rewrite Hp.
    rewrite bool_decide_eq_true_2 by done. simpl. rewrite Hp.
    destruct (Player.preSave today (Player.set_currentClub None p)); [eauto | done].
Qed.

(** One step of the loop either commits the expiry of the contract or
    aborts on a stuck contract and changes nothing. *)
Lemma expireOne_step today db id d :
  match withTransaction (ContractService1.expireOne today id d) db with
  | (db', inr _) =>
      sweeps today db db'
      ∧ ∃ d', contracts db' !! id = Some d' ∧ Contract.status d' = Expired
  | (db', inl _) => db' = db ∧ stuck today db id d
  end.
Proof.
  unfold withTransaction, ContractService1.expireOne, mbind, Session_bind,
    saveContract.
  destruct (contracts db !! id) as [d0 |] eqn:Hid; [| by split; [| left]].
  unfold inSession, findPlayer. simpl.
  assert (Hc : sweeps today db
            (set_contracts (<[id := Contract.set_status Expired d0]> (contracts db)) db)).
  { split; [by apply expires_insert | done]. }
  destruct (players db !! Contract.playerId d) as [p |] eqn:Hp; simpl.
  2:{ split; [done |]. eexists. by rewrite lookup_insert_eq. }
  destruct (bool_decide (Player.currentClub p = Some (Contract.clubId d))) eqn:Hclub;
    simpl.
  2:{ split; [done |]. eexists. by rewrite lookup_insert_eq. }
  apply bool_decide_eq_true in Hclub.
  unfold savePlayer. simpl. rewrite Hp.
  destruct (Player.preSave today (Player.set_currentClub None p)) as [e |] eqn:Hpre.
  - split; [done |]. right. exists p. rewrite Hpre. done.
  - simpl. split.
    + split; [by apply (expires_insert _ _ d0) |]. simpl. intros i q Hi Hq.
      destruct (decide (Contract.playerId d = i)) as [<- | Hne].
      * rewrite Hp in Hi. injection Hi as <-. congruence.
      * by rewrite lookup_insert_ne.
    + eexists. by rewrite lookup_insert_eq.
Qed.

Lemma sweep_spec today l n db :
  sweeps today db (ContractService1.sweep today l n db).1
  ∧ ∀ id d, (id, d) ∈ l ->
      (∃ d', contracts (ContractService1.sweep today l n db).1 !! id = Some d'
             ∧ Contract.status d' = Expired)
      ∨ stuck today (ContractService1.sweep today l n db).1 id d.
Proof.
  revert n db. induction l as [| [id d] l IH]; intros n db; simpl.
  { split; [apply sweeps_refl |]. intros id d Hin. by apply elem_of_nil in Hin. }
  pose proof (expireOne_step today db id d) as Hstep.
  destruct (withTransaction _ db) as [db1 [e | u]].
  - destruct Hstep as [-> Hstuck].
    destruct (IH n db) as [Hsw Hrest]. split; [done |].
    intros id' d' [[= -> ->] | Hin]%elem_of_cons; [| by apply Hrest].
    right. by eapply stuck_sweeps.
  - destruct Hstep as [Hsw1 (d1 & Hd1 & Hst1)].
    destruct (IH (n + 1) db1) as [Hsw Hrest]. split; [by eapply sweeps_trans |].
    intros id' d' [[= -> ->] | Hin]%elem_of_cons; [| by apply Hrest].
    left. destruct Hsw as [Hexp _]. by eapply expires_Expired.
Qed.

Lemma sweep_all_stuck today l n db :
  (∀ id d, (id, d) ∈ l -> stuck today db id d) ->
  ContractService1.sweep today l n db = (db, n).
Proof.
  revert n. induction l as [| [id d] l IH]; intros n Hall; simpl; [done |].
  destruct (expireOne_stuck today db id d) as [e He].
  { apply Hall. left. }
  rewrite (withTransaction_throw _ _ _ He). apply IH.
  intros id' d' Hin. apply Hall. by right.
Qed.

Lemma isExpiredAt_Active today d :
  ContractService2.isExpiredAt today d = true -> Contract.status d = Active.
Proof.
  unfold ContractService2.isExpiredAt. intros [H _]%andb_true_iff.
  by apply isActive_true.
Qed.

(** The single-transaction sweep of the second listing always commits. *)
Lemma expireAll_spec l n c s :
  (∀ id d, (id, d) ∈ l -> is_Some (contracts s !! id)) ->
  ∃ s', ContractService2.expireAll l n c s = inr (n + Z.of_nat (length l), s')
    ∧ expires (contracts s) (contracts s')
    ∧ players s' = players s ∧ clubs s' = clubs s ∧ transfers s' = transfers s
    ∧ ∀ id d, (id, d) ∈ l ->
        ∃ d', contracts s' !! id = Some d' ∧ Contract.status d' = Expired.
Proof.
  revert n s. induction l as [| [id d] l IH]; intros n s Hdom; simpl.
  { exists s. rewrite Z.add_0_r. split; [done |]. split; [apply expires_refl |].
    repeat split; try done. intros id d Hin. by apply elem_of_nil in Hin. }
  destruct (Hdom id d) as [d0 Hd0]; [left |].
  unfold mbind, Session_bind, saveContract. rewrite Hd0.
  set (s1 := set_contracts (<[id := Contract.set_status Expired d0]> (contracts s)) s).
  assert (Hexp1 : expires (contracts s) (contracts s1)) by by apply expires_insert.
  destruct (IH (n + 1) s1) as (s' & Hrun & Hexp & Hp & Hcl & Htr & Hall).
  { intros id' d' Hin. destruct (Hdom id' d') as [d1 Hd1]; [by right |].
    destruct (Hexp1 id') as [E | (d2 & _ & E)]; rewrite E; eauto. }
  exists s'. split.
  { fold (ContractService2.expireAll l (n + 1)). rewrite Hrun. do 2 f_equal. lia. }
  split; [by eapply expires_trans |]. repeat split; try done.
  intros id' d' [[= -> ->] | Hin]%elem_of_cons; [| by apply (Hall id' d')].
  apply (expires_Expired _ _ _ (Contract.set_status Expired d0) Hexp); [| done].
  subst s1. simpl. apply lookup_insert_eq.
Qed.

(** C7.  The sweep is idempotent over a fixed as-of date.  In the first
    listing (one transaction per contract, failures skipped) a second run
    on the result of the first changes nothing and counts 0; in the second
    listing (one transaction for the sweep) the first run commits and a
    second run changes nothing and returns 0. *)
Theorem processExpiredContracts_twice today db :
  (let once := ContractService1.processExpiredContracts today db in
   ContractService1.processExpiredContracts today once.1 = (once.1, 0))
  ∧ ∃ db' n,
      ContractService2.processExpiredContracts today db = (db', inr n)
      ∧ ContractService2.processExpiredContracts today db' = (db', inr 0).
Proof.
  split.
  - simpl. unfold ContractService1.processExpiredContracts.
    set (l := find (ContractService2.isExpiredAt today) (contracts db)).
    destruct (sweep_spec today l 0 db) as [[Hexp _] Hall].
    apply sweep_all_stuck. intros id d [Hid Hexpd]%find_elem.
    pose proof (isExpiredAt_Active _ _ Hexpd) as Hact.
    pose proof (expires_Active _ _ _ _ Hexp Hid Hact) as Hid0.
    destruct (Hall id d) as [(d' & Hd' & Hst) | Hstuck]; [| | done].
    + by apply find_elem.
    + rewrite Hid in Hd'. injection Hd' as <-. congruence.
  - unfold ContractService2.processExpiredContracts, withTransaction.
    set (l := find (ContractService2.isExpiredAt today) (contracts db)).
    destruct (expireAll_spec l 0 db db) as (db' & Hrun & Hexp & _ & _ & _ & Hall).
    { intros id d [Hid _]%find_elem. eauto. }
    rewrite Hrun. exists db', (0 + Z.of_nat (length l)). split; [done |].
    rewrite find_nil; [done |]. intros k d Hk.
    destruct (ContractService2.isExpiredAt today d) eqn:Hexpd; [| done].
    pose proof (isExpiredAt_Active _ _ Hexpd) as Hact.
    pose proof (expires_Active _ _ _ _ Hexp Hk Hact) as Hk0.
    destruct (Hall k d) as (d' & Hd' & Hst); [by apply find_elem |].
    rewrite Hk in Hd'. injection Hd' as <-. congruence.
Qed.

(** ** Budgets across initiate and complete *)

Lemma keepsB_mret {A} (x : A) : keepsBudgets (mret x).
Proof. intros c s a s' [_ ->]%mret_inr. done. Qed.

Lemma keepsB_throw {A} e : keepsBudgets (throw e : Session A).
Proof. done. Qed.

Lemma keepsB_inSession {A} (q : Store -> A) : keepsBudgets (inSession q).
Proof. intros c s a s' [_ ->]%inSession_inr. done. Qed.

Lemma keepsB_noSession {A} (q : Store -> A) : keepsBudgets (noSession q).
Proof. intros c s a s' [_ ->]%noSession_inr. done. Qed.

Lemma keepsB_bind {A B} (m : Session A) (k : A -> Session B) :
  keepsBudgets m -> (∀ a, keepsBudgets (k a)) -> keepsBudgets (m ≫= k).
Proof.
  intros Hm Hk c s b s' (a & s1 & H1 & H2)%bind_inr i.
  rewrite (Hk _ _ _ _ _ H2), (Hm _ _ _ _ H1). done.
Qed.

Lemma keepsB_savePlayer today id f : keepsBudgets (savePlayer today id f).
Proof. intros c s a s' (? & _ & _ & ->)%savePlayer_inr. done. Qed.

Lemma keepsB_saveContract id f : keepsBudgets (saveContract id f).
Proof. intros c s a s' (? & _ & ->)%saveContract_inr. done. Qed.

Lemma keepsB_saveTransfer id f : keepsBudgets (saveTransfer id f).
Proof. intros c s a s' (? & _ & ->)%saveTransfer_inr. done. Qed.

Lemma keepsB_insertContract cd : keepsBudgets (insertContract cd).
Proof. intros c s [id doc] s' (_ & -> & _)%insertContract_inr. done. Qed.

(** Saving a change of the squad does not touch the budget. *)
Lemma keepsB_saveSquad id (f : Club.t -> list ObjectId) :
  keepsBudgets (saveClub id (λ c, Club.set_currentSquad (f c) c)).
Proof.
  intros c s a s' (cl & Hcl & ->)%saveClub_inr i. unfold budgetOf. simpl.
  destruct (decide (id = i)) as [<- | ?].
  - by rewrite lookup_insert_eq, Hcl.
  - by rewrite lookup_insert_ne.
Qed.

Ltac keepsB :=
  repeat first
    [ apply keepsB_mret | apply keepsB_throw | apply keepsB_inSession
    | apply keepsB_noSession | apply keepsB_savePlayer
    | apply keepsB_saveContract | apply keepsB_saveTransfer
    | apply keepsB_insertContract
    | apply (keepsB_saveSquad _ (λ c, _ ++ _))
    | apply (keepsB_saveSquad _ (λ _, _))
    | apply keepsB_bind; [| intros ?]
    | match goal with
      | |- keepsBudgets (match ?x with _ => _ end) => destruct x
      | |- keepsBudgets (let _ := _ in _) => simpl
      end ].

Lemma keepsB_validateContract cd :
  keepsBudgets (ContractService2.validateContract cd).
Proof. unfold ContractService2.validateContract. keepsB. Qed.

Lemma keepsB_createContractIn now cd :
  keepsBudgets (ContractService2.createContractIn now cd).
Proof.
  unfold ContractService2.createContractIn.
  apply keepsB_bind; [apply keepsB_validateContract |]. intros _. keepsB.
Qed.

Lemma keepsB_terminateContractIn now k td :
  keepsBudgets (ContractService2.terminateContractIn now k td).
Proof. unfold ContractService2.terminateContractIn. keepsB. Qed.

Lemma keepsB_updatePlayerValue1 now p fee :
  keepsBudgets (TransferService1.updatePlayerValue now p fee).
Proof. unfold TransferService1.updatePlayerValue. keepsB. Qed.

Lemma keepsB_terminateOldContract now k :
  keepsBudgets (TransferCommon.terminateOldContract now k).
Proof. apply keepsB_terminateContractIn. Qed.

Lemma keepsB_createNewContract now cd :
  keepsBudgets (TransferCommon.createNewContract now cd).
Proof. apply keepsB_createContractIn. Qed.

Lemma settle_inr fromId toId amount c s u s' :
  BudgetLedger.settle fromId toId amount c s = inr (u, s') ->
  ∃ club, clubs s !! fromId = Some club
    ∧ s' = set_clubs
             (<[fromId := Club.set_budget (Club.budget club + amount) club]> (clubs s)) s.
Proof.
  unfold BudgetLedger.settle. intros H. run_inv H.
  destruct (clubs s !! fromId) as [club |] eqn:Hc; [| done].
  destruct (clubs s !! toId); [| done].
  apply saveBudget_inr in H as (_ & cl & Hc' & ->).
  rewrite Hc in Hc'. injection Hc' as <-. by exists club.
Qed.

(** What a successful completion does to the budgets: the origin club is
    credited with the transfer fee, whatever the sell-on clause of the
    transfer says, and no other budget moves. *)
Lemma completeTransfer_budgets now transferId contractData db db' t' :
  TransferService1.completeTransfer now transferId contractData db = (db', inr t') ->
  ∃ t before,
    transfers db !! transferId = Some t
    ∧ Transfer.status t = Pending
    ∧ Transfer.status t' = Completed
    ∧ budgetOf (Transfer.fromClub t) db = Some before
    ∧ budgetOf (Transfer.fromClub t) db' = Some (before + Transfer.transferFee t)
    ∧ ∀ i, i ≠ Transfer.fromClub t -> budgetOf i db' = budgetOf i db.
Proof.
  intros H%withTransaction_inr.
  unfold TransferService1.completeTransferIn in H. run_inv H.
  destruct (transfers db !! transferId) as [t |] eqn:Ht; [| done].
  destruct (bool_decide (Transfer.status t = Pending)) eqn:Hst; [| done].
  apply bool_decide_eq_true in Hst. simpl in H. run_inv H.
  destruct (players db !! _) as [player |]; [| done].
  destruct (clubs db !! Transfer.fromClub t) as [fromClub |] eqn:Hfrom; [| done].
  destruct (clubs db !! Transfer.toClub t) as [toClub |] eqn:Hto; [| done].
  run_inv H.
  repeat match goal with
  | Hs : BudgetLedger.settle _ _ _ _ _ = inr _ |- _ =>
      apply settle_inr in Hs; destruct Hs as (club & Hclub & Hsettle)
  | Hm : ?m _ ?s1 = inr (_, ?s2) |- _ =>
      assert (∀ i, budgetOf i s2 = budgetOf i s1)
        by (let K := fresh in
            assert (keepsBudgets m) as K
              by (repeat first [ apply keepsB_terminateOldContract
                               | apply keepsB_createNewContract
                               | apply keepsB_validateContract
                               | apply keepsB_updatePlayerValue1
                               | progress keepsB ]);
            exact (K _ _ _ _ Hm));
      clear Hm
  end.
  exists t, (Club.budget fromClub). split; [done |]. split; [done |].
  split; [done |].
  split; [unfold budgetOf; by rewrite Hfrom |].
  repeat match goal with
  | Hb : ∀ i, budgetOf i ?s2 = budgetOf i ?s1 |- context [budgetOf _ ?s2] =>
      setoid_rewrite Hb; clear Hb
  end.
  match goal with
  | Hs : ?after = set_clubs (<[_ := _]> (clubs ?pre)) ?pre |- _ =>
      assert (Hpre : ∀ i, budgetOf i pre = budgetOf i db)
        by (intros i;
            repeat match goal with
            | Hb : ∀ i, budgetOf i ?s2 = budgetOf i _ |- context [budgetOf _ ?s2] =>
                rewrite Hb
            end; done);
      subst after
  end.
  assert (Club.budget club = Club.budget fromClub) as Hsame.
  { specialize (Hpre (Transfer.fromClub t)). unfold budgetOf in Hpre.
    rewrite Hclub, Hfrom in Hpre. by injection Hpre. }
  split.
  - unfold budgetOf. simpl. rewrite lookup_insert_eq. simpl. by rewrite Hsame.
  - intros i Hi. rewrite <- Hpre. unfold budgetOf. simpl.
    by rewrite lookup_insert_ne.
Qed.

(** Initiation followed by completion, for distinct clubs: the destination
    ends at its budget minus the fee, the origin at its budget plus the
    whole fee. *)
Lemma initiate_then_complete_budgets now now' td cd db db1 db2 id t t' :
  TransferService1.initiateTransfer now td db = (db1, inr (id, t)) ->
  TransferService1.completeTransfer now' id cd db1 = (db2, inr t') ->
  Transfer.fromClub t ≠ Transfer.toClub t ->
  ∃ origin destination,
    budgetOf (Transfer.fromClub t) db = Some origin
    ∧ budgetOf (Transfer.toClub t) db = Some destination
    ∧ budgetOf (Transfer.toClub t) db2 = Some (destination - Transfer.transferFee t)
    ∧ budgetOf (Transfer.fromClub t) db2 = Some (origin + Transfer.transferFee t).
Proof.
  intros Hinit Hcomplete Hne.
  destruct (initiateTransfer_inr now td db db1 id t (or_introl Hinit))
    as (_ & _ & _ & _ & _ & _ & _ & _ & Htr & club & Hclub & _ & Hclubs).
  apply completeTransfer_budgets in Hcomplete
    as (t0 & before & Ht0 & _ & _ & Hbefore & Hafter & Hother).
  rewrite Htr, lookup_insert_eq in Ht0. injection Ht0 as <-.
  exists before, (Club.budget club).
  assert (∀ i, i ≠ Transfer.toClub t -> budgetOf i db1 = budgetOf i db) as Hinit1.
  { intros i Hi. unfold budgetOf. rewrite Hclubs. by rewrite lookup_insert_ne. }
  split; [by rewrite <- Hinit1 |].
  split; [unfold budgetOf; by rewrite Hclub |].
  split; [| done].
  rewrite Hother by done. unfold budgetOf. rewrite Hclubs.
  by rewrite lookup_insert_eq.
Qed.

(** C3.  The sale of player X by club A (budget 10,000,000) to club B
    (budget 15,000,000) for a fee of 7,000,000, with an active sell-on
    clause of 10 percent: initiateTransfer and completeTransfer succeed;
    club B ends at 15,000,000 - 7,000,000, but club A ends at
    10,000,000 + 7,000,000, the whole fee, and not at the 16,300,000 that
    the sell-on clause leaves it according to the spec and to
    calculateTransferBudgetImpact. *)
Theorem completeTransfer_ignores_sell_on_clause :
  let initiated :=
    TransferService1.initiateTransfer Sample.jul2025 Sample.saleWithSellOn
      Sample.db1 in
  let completed :=
    TransferService1.completeTransfer Sample.jul2025 0%N None initiated.1 in
  (∃ t, initiated.2 = inr (0%N, t)
        ∧ Transfer.sellOnClause t = mkSellOn 10 true)
  ∧ (∃ t, completed.2 = inr t ∧ Transfer.status t = Completed)
  ∧ budgetOf Sample.clubA Sample.db1 = Some 10000000
  ∧ budgetOf Sample.clubB Sample.db1 = Some 15000000
  ∧ budgetOf Sample.clubB completed.1 = Some (15000000 - 7000000)
  ∧ budgetOf Sample.clubA completed.1 = Some (10000000 + 7000000)
  ∧ (specOriginBudget 10000000 7000000 10 == 16300000)%Q
  ∧ (TransferService1.calculateTransferBudgetImpact 7000000 (Some "Permanent")
       (Some (mkSellOn 10 true))).1 = Double.ofZ 6300000.
Proof.
  repeat split; try (vm_compute; reflexivity).
  - eexists. split; vm_compute; reflexivity.
  - eexists. split; vm_compute; reflexivity.
Qed.

(** ** Revaluation after a transfer *)

Lemma Math_round_mul n p q :
  Math_round (inject_Z n * (p # q))%Q = (2 * p * n + Z.pos q) / (2 * Z.pos q).
Proof.
  unfold Math_round, Qfloor, Qplus, Qmult, inject_Z. simpl Qnum. simpl Qden.
  f_equal; lia.
Qed.

Lemma Math_round_tenths n p :
  Math_round (inject_Z n * (p # 10))%Q = (p * n + 5) / 10.
Proof.
  rewrite Math_round_mul.
  replace (2 * p * n + 10) with (2 * (p * n + 5)) by lia.
  apply Z.div_mul_cancel_l; lia.
Qed.

Lemma Math_round_one n : Math_round (inject_Z n * 1)%Q = n.
Proof.
  change 1%Q with (1 # 1)%Q. rewrite Math_round_mul.
  replace (2 * 1 * n + 1) with (n * 2 + 1) by lia.
  change (2 * 1) with 2. rewrite Z.div_add_l by lia.
  rewrite Z.div_small by lia. lia.
Qed.

Lemma updatePlayerValue2_inr now playerId fee c s r s' :
  TransferService2.updatePlayerValue now playerId fee c s = inr (r, s') ->
  ∃ player, players s !! playerId = Some player
    ∧ r = Player.set_marketValue (baseValue fee) player
    ∧ s' = set_players (<[playerId := r]> (players s)) s.
Proof.
  intros H. unfold TransferService2.updatePlayerValue in H. run_inv H.
  simpl in H. destruct (players s !! playerId) as [player |] eqn:Hp; [| done].
  run_inv H. rewrite Math_round_tenths in *.
  match goal with
  | Hs : saveMarketValue _ _ _ _ _ = inr _ |- _ =>
      apply saveMarketValue_inr in Hs; destruct Hs as (p & Hp' & ->)
  end.
  rewrite Hp in Hp'. injection Hp' as <-. by exists player.
Qed.

(** What a successful completion of the second listing leaves as the
    market value of the transferred player. *)
Lemma completeTransfer2_value now transferId db db' t' :
  TransferService2.completeTransfer now transferId db = (db', inr t') ->
  ∃ t, transfers db !! transferId = Some t
    ∧ (Player.marketValue <$> players db' !! Transfer.playerId t)
      = Some (baseValue (Transfer.transferFee t)).
Proof.
  intros H%withTransaction_inr.
  unfold TransferService2.completeTransferIn in H. run_inv H.
  destruct (transfers db !! transferId) as [t |] eqn:Ht; [| done].
  destruct (negb _); [done |]. run_inv H.
  destruct (players db !! _) as [player |]; [| done].
  destruct (clubs db !! Transfer.fromClub t) as [fromClub |]; [| done].
  destruct (clubs db !! Transfer.toClub t) as [toClub |]; [| done].
  run_inv H. exists t. split; [done |].
  repeat match goal with
  | Hs : BudgetLedger.settle _ _ _ _ _ = inr _ |- _ =>
      apply settle_inr in Hs; destruct Hs as (? & _ & ->)
  | Hs : saveTransfer _ _ _ _ = inr _ |- _ =>
      apply saveTransfer_inr in Hs; destruct Hs as (? & _ & ->)
  | Hs : saveClub _ _ _ _ = inr _ |- _ =>
      apply saveClub_inr in Hs; destruct Hs as (? & _ & ->)
  | Hs : savePlayer _ _ _ _ _ = inr _ |- _ =>
      apply savePlayer_inr in Hs; destruct Hs as (? & Hsaved & _ & ->)
  | Hs : TransferService2.updatePlayerValue _ _ _ _ _ = inr _ |- _ =>
      apply updatePlayerValue2_inr in Hs; destruct Hs as (? & _ & -> & ->)
  end.
  simpl in *. rewrite lookup_insert_eq in Hsaved. injection Hsaved as <-.
  by rewrite lookup_insert_eq.
Qed.

(** The helper [updatePlayerValue].  For a player of age a and a fee f it
    computes round(round(f × 0.9) × m) with m = 1.2 for a < 23, m = 0.8 for
    a > 30 and m = 1 otherwise, without rounding to a multiple of 100,000:
    the first listing returns the player document with that value (in
    integers: [revalued f a]) and saves nothing.  The second listing
    applies no age multiplier: when it succeeds it stores round(f × 0.9),
    and that is the market value of the player after a successful
    completeTransfer of that listing. *)
Lemma updatePlayerValue_revalues now playerId fee c s player :
  players s !! playerId = Some player ->
  TransferService1.updatePlayerValue now playerId fee c s
  = inr (Player.set_marketValue (revalued fee (Player.age now player)) player, s)
  ∧ (∀ r s', TransferService2.updatePlayerValue now playerId fee c s = inr (r, s') ->
       r = Player.set_marketValue (baseValue fee) player
       ∧ players s' = <[playerId := r]> (players s))
  ∧ (∀ transferId t t' s',
       transfers s !! transferId = Some t ->
       Transfer.playerId t = playerId -> Transfer.transferFee t = fee ->
       TransferService2.completeTransfer now transferId s = (s', inr t') ->
       (Player.marketValue <$> players s' !! playerId) = Some (baseValue fee)).
Proof.
  intros Hp. split; [| split].
  - unfold TransferService1.updatePlayerValue, mbind, Session_bind, inSession,
      findPlayer. simpl. rewrite Hp. unfold mret, Session_ret.
    do 3 f_equal. unfold revalued, baseValue. rewrite Math_round_tenths.
    destruct (Player.age now player <? 23); [apply Math_round_tenths |].
    destruct (30 <? Player.age now player); [apply Math_round_tenths |].
    apply Math_round_one.
  - intros r s' (p & Hp' & -> & ->)%updatePlayerValue2_inr.
    rewrite Hp in Hp'. by injection Hp' as <-.
  - intros transferId t t' s' Ht <- <- (t0 & Ht0 & Hvalue)%completeTransfer2_value.
    rewrite Ht in Ht0. by injection Ht0 as <-.
Qed.

Lemma updatePlayerValue_revalues_witness :
  TransferService1.updatePlayerValue Sample.jul2025 Sample.playerX 7000000
    Sample.db1 Sample.db1
  = inr (Player.mk Sample.jan2000 (Some Sample.clubA) 6300000, Sample.db1)
  ∧ (∃ s', TransferService2.updatePlayerValue Sample.jul2025 Sample.playerX 7000000
             Sample.db1 Sample.db1
           = inr (Player.mk Sample.jan2000 (Some Sample.clubA) 6300000, s')
           ∧ (Player.marketValue <$> players s' !! Sample.playerX) = Some 6300000)
  ∧ let initiated :=
      TransferService2.initiateTransfer Sample.jul2025 Sample.sale Sample.db1 in
    let completed :=
      TransferService2.completeTransfer Sample.jul2025 0%N initiated.1 in
    (∃ t, completed.2 = inr t)
    ∧ (Player.marketValue <$> players completed.1 !! Sample.playerX)
      = Some 6300000.
Proof.
  destruct (updatePlayerValue_revalues Sample.jul2025 Sample.playerX 7000000
              Sample.db1 Sample.db1
              (Player.mk Sample.jan2000 (Some Sample.clubA) 5000000))
    as (H1 & H2 & _).
  { vm_compute. reflexivity. }
  split; [exact H1 |]. split.
  - destruct (TransferService2.updatePlayerValue Sample.jul2025 Sample.playerX
                7000000 Sample.db1 Sample.db1) as [e | [r s']] eqn:Hrun;
      [vm_compute in Hrun; discriminate Hrun |].
    destruct (H2 r s' eq_refl) as [-> Hs']. exists s'. split; [done |].
    rewrite Hs', lookup_insert_eq. done.
  - intros initiated completed.
    destruct (updatePlayerValue_revalues Sample.jul2025 Sample.playerX 7000000
                initiated.1 initiated.1
                (Player.mk Sample.jan2000 (Some Sample.clubA) 5000000))
      as (_ & _ & H3).
    { vm_compute. reflexivity. }
    destruct completed as [s' [e | t']] eqn:Hrun;
      [vm_compute in Hrun; discriminate Hrun |].
    split; [by exists t' |]. simpl.
    eapply (H3 0%N); [| | | exact Hrun]; vm_compute; reflexivity.
Defined.

(** The helper does not round to a multiple of 100,000: for player X (age
    25, multiplier 1) and a fee of 7,040,000 both listings compute
    6,336,000, while the scenario formula
    round(f × 0.9 × m / 100000) × 100000 gives 6,300,000. *)
Lemma updatePlayerValue_not_rounded_to_100000 :
  Player.age Sample.jul2025 (Player.mk Sample.jan2000 (Some Sample.clubA) 5000000) = 25
  ∧ (∃ p s', TransferService1.updatePlayerValue Sample.jul2025 Sample.playerX
               7040000 Sample.db1 Sample.db1 = inr (p, s')
             ∧ Player.marketValue p = 6336000)
  ∧ (∃ p s', TransferService2.updatePlayerValue Sample.jul2025 Sample.playerX
               7040000 Sample.db1 Sample.db1 = inr (p, s')
             ∧ Player.marketValue p = 6336000)
  ∧ specScenarioValue 7040000 1 = 6300000
  ∧ 6336000 ≠ specScenarioValue 7040000 1.
Proof.
  split; [vm_compute; reflexivity |].
  split; [eexists _, _; split; vm_compute; reflexivity |].
  split; [eexists _, _; split; vm_compute; reflexivity |].
  split; [vm_compute; reflexivity |]. vm_compute. discriminate.
Qed.

(** C6.  The first listing's completeTransfer calls updatePlayerValue,
    which assigns the new market value on a document it loads itself and
    returns it unsaved, drops the result and saves its own player document
    (l.327-338): the market value of the transferred player is not changed
    at all.  Player X (age 25, value 5,000,000) is sold by club A to club B
    for 7,000,000: initiateTransfer and completeTransfer of the first
    listing succeed, the player is moved to club B, and the value is still
    5,000,000, where the helper computed 6,300,000, the scenario formula
    gives 6,300,000 and the second listing stores 6,300,000. *)
Theorem completeTransfer_discards_revaluation :
  let initiated :=
    TransferService1.initiateTransfer Sample.jul2025 Sample.sale Sample.db1 in
  let completed :=
    TransferService1.completeTransfer Sample.jul2025 0%N None initiated.1 in
  let completed2 :=
    TransferService2.completeTransfer Sample.jul2025 0%N
      (TransferService2.initiateTransfer Sample.jul2025 Sample.sale
         Sample.db1).1 in
  players Sample.db1 !! Sample.playerX
  = Some (Player.mk Sample.jan2000 (Some Sample.clubA) 5000000)
  ∧ Player.age Sample.jul2025
      (Player.mk Sample.jan2000 (Some Sample.clubA) 5000000) = 25
  ∧ (∃ id t, initiated.2 = inr (id, t) ∧ id = 0%N)
  ∧ (∃ t, completed.2 = inr t
          ∧ Transfer.status t = Completed
          ∧ Transfer.playerId t = Sample.playerX
          ∧ Transfer.transferFee t = 7000000)
  ∧ players completed.1 !! Sample.playerX
    = Some (Player.mk Sample.jan2000 (Some Sample.clubB) 5000000)
  ∧ TransferService1.updatePlayerValue Sample.jul2025 Sample.playerX 7000000
      initiated.1 initiated.1
    = inr (Player.mk Sample.jan2000 (Some Sample.clubA) 6300000, initiated.1)
  ∧ specScenarioValue 7000000 1 = 6300000
  ∧ (∃ t, completed2.2 = inr t)
  ∧ players completed2.1 !! Sample.playerX
    = Some (Player.mk Sample.jan2000 (Some Sample.clubB) 6300000).
Proof.
  split; [vm_compute; reflexivity |].
  split; [vm_compute; reflexivity |].
  split; [eexists _, _; split; vm_compute; reflexivity |].
  split.
  { eexists. split; [vm_compute; reflexivity |]. by repeat split. }
  split; [vm_compute; reflexivity |].
  split; [vm_compute; reflexivity |].
  split; [vm_compute; reflexivity |].
  split; [eexists; vm_compute; reflexivity |].
  vm_compute; reflexivity.
Qed.

(** ** Change capture bus *)

Lemma logChange_max change cdc :
  CDC.maxChangeLogSize (CDC.logChange change cdc) = CDC.maxChangeLogSize cdc.
Proof. unfold CDC.logChange. by case_match. Qed.

Lemma logChange_bound change cdc :
  (length (CDC.changeLog cdc) <= CDC.maxChangeLogSize cdc)%nat ->
  (length (CDC.changeLog (CDC.logChange change cdc))
   <= CDC.maxChangeLogSize cdc)%nat.
Proof.
  unfold CDC.logChange. intros Hle.
  destruct (CDC.maxChangeLogSize cdc <? length (CDC.changeLog cdc ++ [change]))%nat
    eqn:Hfull; simpl.
  - destruct (CDC.changeLog cdc) as [| oldest rest]; simpl in *; [lia |].
    rewrite length_app. simpl. lia.
  - apply Nat.ltb_ge in Hfull. done.
Qed.

Lemma logChange_full change cdc :
  length (CDC.changeLog cdc) = CDC.maxChangeLogSize cdc ->
  CDC.changeLog (CDC.logChange change cdc) = tail (CDC.changeLog cdc ++ [change]).
Proof.
  unfold CDC.logChange. intros Hfull.
  rewrite (proj2 (Nat.ltb_lt _ _)); [done |].
  rewrite length_app. simpl. lia.
Qed.

Lemma logged_inv enabled changes :
  CDC.maxChangeLogSize (logged enabled changes) = 1000%nat
  ∧ (length (CDC.changeLog (logged enabled changes)) <= 1000)%nat.
Proof.
  unfold logged. induction changes as [| change changes IH] using rev_ind.
  - simpl. split; [done | lia].
  - rewrite foldl_app. simpl. destruct IH as [Hmax Hlen].
    rewrite logChange_max, Hmax. split; [done |].
    rewrite <- Hmax. apply logChange_bound. by rewrite Hmax.
Qed.

Lemma handleChange_changeLog now modelName change cdc :
  CDC.changeLog (CDC.handleChange now modelName change cdc)
  = CDC.changeLog (CDC.logChange (CDC.stamp now modelName change) cdc).
Proof. unfold CDC.handleChange. by repeat case_match. Qed.

Lemma handleChange_emitted now modelName change cdc :
  CDC.emitted (CDC.handleChange now modelName change cdc)
  = CDC.emitted cdc ++ published now modelName change.
Proof.
  assert (CDC.emitted (CDC.logChange (CDC.stamp now modelName change) cdc)
          = CDC.emitted cdc) as Hlog.
  { unfold CDC.logChange. by case_match. }
  unfold CDC.handleChange, published.
  repeat case_decide; simpl; by rewrite Hlog, <- ?app_assoc.
Qed.


Lemma logChange_room change cdc :
  (length (CDC.changeLog cdc) + 1 <= CDC.maxChangeLogSize cdc)%nat ->
  CDC.logChange change cdc
  = CDC.set_changeLog (CDC.changeLog cdc ++ [change]) cdc.
Proof.
  unfold CDC.logChange. intros Hroom.
  rewrite (proj2 (Nat.ltb_ge _ _)); [done |]. rewrite length_app. simpl. lia.
Qed.

(** Logging a sequence of changes into any instance with the default
    capacity: the log is the old log followed by the changes, without all
    but the 1000 newest entries. *)
Lemma logChanges_changeLog cdc changes :
  CDC.maxChangeLogSize cdc = 1000%nat ->
  (length (CDC.changeLog cdc) <= 1000)%nat ->
  let cdc' := foldl (λ cdc change, CDC.logChange change cdc) cdc changes in
  CDC.maxChangeLogSize cdc' = 1000%nat
  ∧ CDC.changeLog cdc'
    = drop (length (CDC.changeLog cdc ++ changes) - 1000)
        (CDC.changeLog cdc ++ changes).
Proof.
  intros Hmax Hlen. simpl.
  induction changes as [| change changes [IHmax IH]] using rev_ind.
  { simpl. split; [done |]. rewrite app_nil_r.
    by replace (length (CDC.changeLog cdc) - 1000)%nat with 0%nat by lia. }
  rewrite foldl_app. simpl. rewrite logChange_max. split; [done |].
  rewrite app_assoc.
  set (all := CDC.changeLog cdc ++ changes) in *.
  rewrite length_app. simpl.
  destruct (decide (length all < 1000)%nat) as [Hroom | Hfull].
  - rewrite logChange_room.
    + simpl. rewrite IH.
      replace (length all - 1000)%nat with 0%nat by lia.
      replace (length all + 1 - 1000)%nat with 0%nat by lia. done.
    + rewrite IHmax, IH, length_drop. lia.
  - rewrite logChange_full.
    + rewrite IH.
      replace (length all + 1 - 1000)%nat with (S (length all - 1000)) by lia.
      rewrite (drop_app_le all) by lia.
      destruct (drop (length all - 1000) all) as [| x rest] eqn:Hdrop.
      * apply (f_equal length) in Hdrop. rewrite length_drop in Hdrop.
        simpl in Hdrop. lia.
      * replace (S (length all - 1000))
          with (length all - 1000 + 1)%nat by lia.
        rewrite <- drop_drop, Hdrop. done.
    + rewrite IHmax, IH, length_drop. lia.
Qed.

(** C8.  After any sequence of logged changes the change log holds at most
    1000 entries, and these are the newest changes of the sequence in
    arrival order: the sequence itself while it has at most 1000 changes,
    the sequence without its first (length − 1000) changes after that.
    Logging a change into a log that holds 1000 entries drops exactly the
    oldest entry, which is the change that arrived 1000 changes ago, and
    keeps the others, in arrival order, followed by the new change. *)
Theorem changeLog_bounded_drop_oldest enabled changes :
  (length (CDC.changeLog (logged enabled changes)) <= 1000)%nat
  ∧ CDC.changeLog (logged enabled changes)
    = drop (length changes - 1000) changes
  ∧ ((length changes <= 1000)%nat ->
     CDC.changeLog (logged enabled changes) = changes)
  ∧ ∀ change,
      length (CDC.changeLog (logged enabled changes)) = 1000%nat ->
      ∃ oldest rest,
        CDC.changeLog (logged enabled changes) = oldest :: rest
        ∧ changes !! (length changes - 1000)%nat = Some oldest
        ∧ rest = drop (length changes - 999) changes
        ∧ CDC.changeLog (logged enabled (changes ++ [change]))
          = rest ++ [change].
Proof.
  destruct (logged_inv enabled changes) as [Hmax Hlen]. split; [done |].
  assert (CDC.changeLog (logged enabled changes)
          = drop (length changes - 1000) changes) as Hclosed.
  { apply (logChanges_changeLog (CDC.constructor enabled) changes);
      [done | simpl; lia]. }
  split; [done |]. split.
  { intros Hfew. rewrite Hclosed.
    by replace (length changes - 1000)%nat with 0%nat by lia. }
  intros change Hfull.
  destruct (CDC.changeLog (logged enabled changes)) as [| oldest rest] eqn:Hlog;
    [done |].
  exists oldest, rest. split; [done |].
  assert (length changes - 999 = S (length changes - 1000))%nat as Hnext.
  { apply (f_equal length) in Hclosed. rewrite length_drop in Hclosed.
    simpl in *. lia. }
  split; [| split].
  - apply (f_equal (λ l, l !! 0%nat)) in Hclosed. rewrite lookup_drop in Hclosed.
    by rewrite Nat.add_0_r in Hclosed.
  - rewrite Hnext.
    replace (S (length changes - 1000))
      with (length changes - 1000 + 1)%nat by lia.
    by rewrite <- drop_drop, <- Hclosed.
  - unfold logged. rewrite foldl_app. simpl. fold (logged enabled changes).
    rewrite logChange_full; [by rewrite Hlog | by rewrite Hmax, Hlog].
Qed.

Lemma changeLog_bounded_drop_oldest_witness :
  let changes := SampleCDC.numbered <$> seq 0 1000 in
  CDC.changeLog (logged true changes)
  = SampleCDC.numbered 0 :: (SampleCDC.numbered <$> seq 1 999)
  ∧ CDC.changeLog (logged true (changes ++ [SampleCDC.numbered 1000]))
    = (SampleCDC.numbered <$> seq 1 999) ++ [SampleCDC.numbered 1000].
Proof.
  intros changes.
  destruct (changeLog_bounded_drop_oldest true changes)
    as (_ & Hclosed & _ & Hdrop).
  destruct (Hdrop (SampleCDC.numbered 1000))
    as (oldest & rest & Hlog & Hold & Hrest & Hnext).
  { rewrite Hclosed. vm_compute. reflexivity. }
  split.
  - rewrite Hclosed. vm_compute. reflexivity.
  - rewrite Hnext, Hrest. vm_compute. reflexivity.
Defined.





(** ** The scenarios, run *)

(** The sale without a sell-on clause: budgets and squad move as in the
    scenario of the spec; the first listing leaves the market value of the
    player as it was. *)
Example scenario_sale :
  let initiated :=
    TransferService1.initiateTransfer Sample.jul2025 Sample.sale Sample.db1 in
  let completed :=
    TransferService1.completeTransfer Sample.jul2025 0%N None initiated.1 in
  budgetOf Sample.clubB initiated.1 = Some 8000000
  ∧ budgetOf Sample.clubA initiated.1 = Some 10000000
  ∧ budgetOf Sample.clubA completed.1 = Some 17000000
  ∧ budgetOf Sample.clubB completed.1 = Some 8000000
  ∧ (Player.currentClub <$> players completed.1 !! Sample.playerX)
    = Some (Some Sample.clubB)
  ∧ (Club.currentSquad <$> clubs completed.1 !! Sample.clubB)
    = Some [Sample.playerX]
  ∧ (Contract.status <$> contracts completed.1 !! 0%N) = Some Terminated
  ∧ (Player.marketValue <$> players completed.1 !! Sample.playerX) = Some 5000000.
Proof. repeat split; vm_compute; reflexivity. Qed.

(** In July 2028 the one-year contract of player X has expired: the first
    sweep expires it, the second finds nothing. *)
Example scenario_sweep :
  let first := ContractService1.processExpiredContracts Sample.jul2028 Sample.db1 in
  let second := ContractService1.processExpiredContracts Sample.jul2028 first.1 in
  first.2 = 1 ∧ second.2 = 0
  ∧ (Contract.status <$> contracts first.1 !! 0%N) = Some Expired
  ∧ (Player.currentClub <$> players first.1 !! Sample.playerX) = Some None
  ∧ (ContractService2.processExpiredContracts Sample.jul2028 Sample.db1).2 = inr 1.
Proof. repeat split; vm_compute; reflexivity. Qed.

(** A contract whose player document is rejected by the pre-save hook is
    rolled back and skipped by the first listing, run after run; the second
    listing, which does not touch the player, expires it. *)
Example scenario_sweep_skips :
  ContractService1.processExpiredContracts Sample.jul2028 Sample.dbVeteran
  = (Sample.dbVeteran, 0)
  ∧ (ContractService2.processExpiredContracts Sample.jul2028 Sample.dbVeteran).2
    = inr 1.
Proof. split; vm_compute; reflexivity. Qed.

(** Renewal of player X's contract until July 2028: a three-year term and
    an age of 25 raise the value of 5,000,000 by 11 percent. *)
Example scenario_renewal :
  let renewed :=
    ContractService2.renewContract Sample.jul2025 0%N
      (mkContractData None None None (Some Sample.jul2028) (Some 150000) None)
      Sample.db1 in
  (Contract.status <$> contracts renewed.1 !! 0%N) = Some Terminated
  ∧ (Contract.status <$> contracts renewed.1 !! 1%N) = Some Active
  ∧ (Player.marketValue <$> players renewed.1 !! Sample.playerX) = Some 5550274.
Proof. repeat split; vm_compute; reflexivity. Qed.

(** The value factor of a renewal is computed in floating point: a
    four-year renewal (factor 1.13) for a player of age 25 worth 5,000,050
    stores 5,650,056, where the exact product is 5,650,056.5. *)
Example scenario_renewal_in_doubles :
  let player := Player.mk Sample.jan2000 (Some Sample.clubA) 5000050 in
  let db := mkStore {[ Sample.playerX := player ]} ∅ ∅ ∅ in
  let fourYears :=
    Contract.mk Sample.playerX Sample.clubA Sample.jul2025
      (Sample.day (getTime Sample.jul2025 + 4 * ContractService2.yearMs)
         2029 5 30)
      100000 ∅ Active in
  Player.age Sample.jul2025 player = 25
  ∧ ∃ db', ContractService2.updatePlayerValueOnRenewal Sample.jul2025
             Sample.playerX fourYears db db = inr (tt, db')
           ∧ (Player.marketValue <$> players db' !! Sample.playerX)
             = Some 5650056.
Proof.
  split; [vm_compute; reflexivity |].
  eexists. split; vm_compute; reflexivity.
Qed.

(** The sell-on amount is computed in floating point: 7 percent of
    1,500,000 is the double next above 105,000, and the two budget impacts
    of that sale add up to -105,000. *)
Example scenario_sellOn_in_doubles :
  let impact :=
    TransferService1.calculateTransferBudgetImpact 1500000 (Some "Permanent")
      (Some (mkSellOn 7 true)) in
  sellOnAmount 1500000 (Some (mkSellOn 7 true))
  = SpecFloat.S754_finite false 7215545057280001 (-36)
  ∧ Double.ofZ 105000 = SpecFloat.S754_finite false 7215545057280000 (-36)
  ∧ impact = (Double.ofZ 1395000, Double.opp (Double.ofZ 1500000))
  ∧ Double.add impact.1 impact.2 = Double.opp (Double.ofZ 105000).
Proof. repeat split; vm_compute; reflexivity. Qed.

(** * Further properties of the services *)

(** ** The life of a contract *)

Lemma sameTerms_refl d : sameTerms d d.
Proof. by repeat split. Qed.

Lemma sameTerms_trans d1 d2 d3 :
  sameTerms d1 d2 -> sameTerms d2 d3 -> sameTerms d1 d3.
Proof.
  intros (? & ? & ? & ? & ?) (? & ? & ? & ? & ?). repeat split; congruence.
Qed.

Lemma lifecycle_keeps m m' k d :
  lifecycle m m' -> m !! k = Some d ->
  ∃ d', m' !! k = Some d' ∧ sameTerms d d'
        ∧ (Contract.status d ≠ Active -> d' = d).
Proof.
  intros [j e e' Hj Hact Hclosed Hterms | j e Hj Hact] Hk.
  - destruct (decide (j = k)) as [-> | Hne].
    + rewrite Hk in Hj. injection Hj as <-. exists e'.
      rewrite lookup_insert_eq. split; [done |]. split; [done |]. congruence.
    + exists d. rewrite lookup_insert_ne by done.
      split; [done |]. split; [apply sameTerms_refl | done].
  - destruct (decide (j = k)) as [-> | Hne]; [congruence |].
    exists d. rewrite lookup_insert_ne by done.
    split; [done |]. split; [apply sameTerms_refl | done].
Qed.

Lemma lifecycles_keep m m' :
  rtc lifecycle m m' -> ∀ k d, m !! k = Some d ->
  ∃ d', m' !! k = Some d' ∧ sameTerms d d'
        ∧ (Contract.status d ≠ Active -> d' = d).
Proof.
  induction 1 as [m | m1 m2 m3 Hstep _ IH]; intros k d Hk.
  - exists d. split; [done |]. split; [apply sameTerms_refl | done].
  - destruct (lifecycle_keeps _ _ _ _ Hstep Hk) as (d2 & Hk2 & Ht2 & Hfix2).
    destruct (IH k d2 Hk2) as (d3 & Hk3 & Ht3 & Hfix3).
    exists d3. split; [done |]. split; [by eapply sameTerms_trans |].
    intros Hterminal. rewrite <- (Hfix2 Hterminal).
    apply Hfix3. by rewrite (Hfix2 Hterminal).
Qed.

Lemma ages_keeps {A} (m : Session A) : keepsContracts m -> ages m.
Proof. intros H c s a s' ->%H. done. Qed.

Lemma ages_bind {A B} (m : Session A) (k : A -> Session B) :
  ages m -> (∀ a, ages (k a)) -> ages (m ≫= k).
Proof.
  intros Hm Hk c s b s' (a & s1 & H1 & H2)%bind_inr.
  etrans; [by eapply Hm | by eapply Hk].
Qed.

Lemma ages_createContractIn now cd :
  ages (ContractService2.createContractIn now cd).
Proof.
  intros c s [id doc] s' (-> & -> & _ & _ & _ & Hact & _)%createContractIn_inr.
  apply rtc_once. apply lc_open; [apply newId_fresh | done].
Qed.

(** What a termination writes: the status, and three annotations among the
    clauses; parties, terms and all other clauses stay. *)
Lemma terminateContractIn_annotates now k td c s c' s' :
  ContractService2.terminateContractIn now k td c s = inr (c', s') ->
  ∃ d, contracts s !! k = Some d ∧ Contract.status d = Active
    ∧ s' = set_contracts (<[k := c']> (contracts s)) s
    ∧ Contract.status c' = Terminated
    ∧ sameTerms d c'
    ∧ Contract.clauses c' !! "terminationReason"
      = Some (MString (strOr (reason td) "Transfer"))
    ∧ Contract.clauses c' !! "terminationDate" = Some (MDate now)
    ∧ Contract.clauses c' !! "terminationFee"
      = (if truthy (compensationFee td)
         then MNumber <$> compensationFee td
         else Contract.clauses d !! "terminationFee")
    ∧ ∀ key, key ≠ "terminationReason" -> key ≠ "terminationDate" ->
             key ≠ "terminationFee" ->
             Contract.clauses c' !! key = Contract.clauses d !! key.
Proof.
  unfold ContractService2.terminateContractIn. intros H. run_inv H.
  destruct (contracts s !! k) as [d |] eqn:Hk; [| done].
  destruct (isActive d) eqn:Hact; [| done]. simpl in H.
  run_inv H.
  match goal with
  | Hs : saveContract _ _ _ _ = inr _ |- _ =>
      apply saveContract_inr in Hs; destruct Hs as (d' & Hk' & ->)
  end.
  rewrite Hk in Hk'. injection Hk' as <-.
  exists d. split; [done |].
  split; [by apply bool_decide_eq_true in Hact |].
  split; [done |].
  destruct (compensationFee td) as [fee |]; simpl;
    [destruct (negb (fee =? 0)); simpl |];
    (split; [done |]); (split; [by repeat split |]);
    repeat split;
    try (intros key H1 H2 H3);
    repeat (rewrite lookup_insert_ne by done);
    rewrite ?lookup_insert_eq; done.
Qed.

Lemma ages_terminateContractIn now k td :
  ages (ContractService2.terminateContractIn now k td).
Proof.
  intros c s d' s'
    (d & Hk & Hact & -> & Hst & Hterms & _)%terminateContractIn_annotates.
  apply rtc_once. eapply lc_close; [done | done | congruence | done].
Qed.

Lemma terminateContractIn1_annotates now k td c s c' s' :
  ContractService1.terminateContractIn now k td c s = inr (c', s') ->
  ∃ d, contracts s !! k = Some d ∧ Contract.status d = Active
    ∧ contracts s' = <[k := c']> (contracts s)
    ∧ clubs s' = clubs s ∧ transfers s' = transfers s
    ∧ Contract.status c' = Terminated
    ∧ sameTerms d c'
    ∧ Contract.clauses c' !! "terminationReason"
      = Some (MString (strOr (reason td) "Unspecified"))
    ∧ (players s' = players s
       ∨ updatePlayerStatus td = true ∧ freeAgent td = true
         ∧ ∃ p, players s !! Contract.playerId d = Some p
                ∧ players s'
                  = <[Contract.playerId d := Player.set_currentClub None p]>
                      (players s)).
Proof.
  unfold ContractService1.terminateContractIn. intros H. run_inv H.
  destruct (contracts s !! k) as [d |] eqn:Hk; [| done].
  destruct (isActive d) eqn:Hact; [| done]. simpl in H.
  run_inv H.
  match goal with
  | Hs : saveContract _ _ _ _ = inr _ |- _ =>
      apply saveContract_inr in Hs; destruct Hs as (d' & Hk' & ->)
  end.
  rewrite Hk in Hk'. injection Hk' as <-.
  exists d. split; [done |].
  split; [by apply bool_decide_eq_true in Hact |].
  match goal with
  | Hm : (if updatePlayerStatus td then _ else _) c ?s1 = inr (_, ?s2) |- _ =>
      assert (contracts s2 = contracts s1 ∧ clubs s2 = clubs s1
              ∧ transfers s2 = transfers s1
              ∧ (players s2 = players s1
                 ∨ updatePlayerStatus td = true ∧ freeAgent td = true
                   ∧ ∃ p, players s1 !! Contract.playerId d = Some p
                          ∧ players s2
                            = <[Contract.playerId d := Player.set_currentClub None p]>
                                (players s1)))
        as (-> & -> & -> & Hplayers)
  end.
  { destruct (updatePlayerStatus td); [| by run_inv H1; auto].
    run_inv H1. simpl in H1.
    destruct (players _ !! Contract.playerId d) as [p |] eqn:Hp;
      [| by run_inv H1; auto].
    destruct (freeAgent td); [| by run_inv H1; auto].
    apply savePlayer_inr in H1 as (p' & Hp' & _ & ->). simpl in *.
    rewrite Hp in Hp'. injection Hp' as <-.
    repeat split; try done. right. repeat split; try done. by exists p. }
  simpl in *. split; [done |]. split; [done |]. split; [done |].
  destruct (truthy (compensationFee td)); simpl;
    (split; [done |]); (split; [by repeat split |]);
    (split; [| done]);
    repeat (rewrite lookup_insert_ne by done); by rewrite lookup_insert_eq.
Qed.

Lemma ages_terminateContractIn1 now k td :
  ages (ContractService1.terminateContractIn now k td).
Proof.
  intros c s d' s'
    (d & Hk & Hact & -> & _ & _ & Hst & Hterms & _)%terminateContractIn1_annotates.
  apply rtc_once. eapply lc_close; [done | done | congruence | done].
Qed.

Lemma ages_throw {A} e : ages (throw e : Session A).
Proof. done. Qed.

Lemma ages_renewContractIn now k rd :
  ages (ContractService2.renewContractIn now k rd).
Proof.
  unfold ContractService2.renewContractIn.
  apply ages_bind; [apply ages_keeps, keeps_inSession |].
  intros [old |]; [| done]. destruct (negb (isActive old)); [done |].
  apply ages_bind; [apply ages_terminateContractIn |]. intros _.
  apply ages_bind; [apply ages_createContractIn |]. intros new.
  apply ages_bind; [apply ages_keeps, keeps_updatePlayerValueOnRenewal |].
  intros _. apply ages_keeps, keeps_mret.
Qed.

Lemma ages_completeTransferIn now tid cd :
  ages (TransferService1.completeTransferIn now tid cd).
Proof.
  unfold TransferService1.completeTransferIn.
  apply ages_bind; [apply ages_keeps, keeps_inSession |].
  intros [t |]; [| done]. destruct (negb _); [done |].
  apply ages_bind; [apply ages_keeps, keeps_inSession |]. intros player.
  apply ages_bind; [apply ages_keeps, keeps_inSession |]. intros fromClub.
  apply ages_bind; [apply ages_keeps, keeps_inSession |]. intros toClub.
  destruct player as [player |], fromClub as [fromClub |], toClub as [toClub |];
    try done.
  apply ages_bind; [apply ages_keeps, keeps_inSession |]. intros old.
  apply ages_bind.
  { destruct old as [[oldId ?] |]; [| apply ages_keeps, keeps_mret].
    apply ages_bind; [apply ages_terminateContractIn |].
    intros _. apply ages_keeps, keeps_mret. }
  intros _. apply ages_bind.
  { destruct cd as [cd |]; [| apply ages_keeps, keeps_mret].
    apply ages_bind; [apply ages_createContractIn |].
    intros ?. apply ages_keeps, keeps_mret. }
  intros new.
  apply ages_bind; [apply ages_keeps, keeps_updatePlayerValue1 |]. intros _.
  apply ages_bind; [apply ages_keeps, keeps_savePlayer |]. intros _.
  apply ages_bind; [apply ages_keeps, keeps_settle |]. intros _.
  apply ages_bind; [apply ages_keeps, keeps_saveTransfer |]. intros _.
  apply ages_bind.
  { case_match; apply ages_keeps; [apply keeps_saveClub | apply keeps_mret]. }
  intros _. apply ages_bind.
  { case_match; apply ages_keeps; [apply keeps_mret | apply keeps_saveClub]. }
  intros _. apply ages_keeps, keeps_mret.
Qed.

Lemma ages_completeTransferIn2 now tid :
  ages (TransferService2.completeTransferIn now tid).
Proof.
  unfold TransferService2.completeTransferIn.
  apply ages_bind; [apply ages_keeps, keeps_inSession |].
  intros [t |]; [| done]. destruct (negb _); [done |].
  apply ages_bind; [apply ages_keeps, keeps_inSession |]. intros player.
  apply ages_bind; [apply ages_keeps, keeps_inSession |]. intros fromClub.
  apply ages_bind; [apply ages_keeps, keeps_inSession |]. intros toClub.
  destruct player as [player |], fromClub as [fromClub |], toClub as [toClub |];
    try done.
  apply ages_bind; [apply ages_keeps, keeps_inSession |]. intros old.
  apply ages_bind.
  { destruct old as [[oldId ?] |]; [| apply ages_keeps, keeps_mret].
    apply ages_bind; [apply ages_terminateContractIn |].
    intros _. apply ages_keeps, keeps_mret. }
  intros _. apply ages_bind.
  { destruct (Transfer.contractDetails t); [| apply ages_keeps, keeps_mret].
    apply ages_bind; [apply ages_createContractIn |].
    intros ?. apply ages_keeps, keeps_mret. }
  intros _.
  apply ages_bind; [apply ages_keeps, keeps_updatePlayerValue2 |]. intros _.
  apply ages_bind; [apply ages_keeps, keeps_savePlayer |]. intros _.
  apply ages_bind; [apply ages_keeps, keeps_settle |]. intros _.
  apply ages_bind; [apply ages_keeps, keeps_saveTransfer |]. intros _.
  apply ages_bind; [apply ages_keeps, keeps_saveClub |]. intros _.
  apply ages_bind; [apply ages_keeps, keeps_saveClub |]. intros _.
  apply ages_keeps, keeps_mret.
Qed.

(** The documents listed by a query have distinct ids. *)
Lemma find_NoDup {D} (f : D -> bool) (m : gmap ObjectId D) :
  NoDup (find f m).*1.
Proof.
  unfold find. pose proof (NoDup_fst_map_to_list m) as Hnd.
  induction (map_to_list m) as [| [k d] l IH]; simpl; [constructor |].
  apply NoDup_cons in Hnd as [Hk Hnd]. destruct (f d); simpl; [| by apply IH].
  apply NoDup_cons. split; [| by apply IH].
  intros Hin. apply Hk.
  apply list_elem_of_fmap in Hin as ([k' d'] & -> & Hin).
  apply list_elem_of_fmap. exists (k', d'). split; [done |].
  apply list_elem_of_In, filter_In in Hin. destruct Hin as [Hin _].
  by apply list_elem_of_In.
Qed.

Lemma sameTerms_set_status st d : sameTerms d (Contract.set_status st d).
Proof. by repeat split. Qed.

Lemma expireAll_ages l n c s a s' :
  NoDup l.*1 ->
  (∀ id d, (id, d) ∈ l ->
     ∃ d0, contracts s !! id = Some d0 ∧ Contract.status d0 = Active) ->
  ContractService2.expireAll l n c s = inr (a, s') ->
  rtc lifecycle (contracts s) (contracts s').
Proof.
  revert n s. induction l as [| [id d] l IH]; intros n s Hnd Hall H; simpl in H.
  { by apply mret_inr in H as [_ ->]. }
  apply bind_inr in H as (u & s1 & Hsave & Hrest).
  apply saveContract_inr in Hsave as (d0 & Hd0 & ->).
  simpl in Hnd. apply NoDup_cons in Hnd as [Hid Hnd].
  destruct (Hall id d) as (d0' & Hd0' & Hact); [left |].
  rewrite Hd0 in Hd0'. injection Hd0' as <-.
  eapply rtc_l.
  { apply (lc_close _ id d0 (Contract.set_status Expired d0)); [done | done | |].
    - simpl. discriminate.
    - apply sameTerms_set_status. }
  apply (IH _ _ Hnd) in Hrest; [exact Hrest |].
  intros id' d' Hin. simpl. rewrite lookup_insert_ne.
  - apply (Hall id' d'). by right.
  - intros ->. apply Hid. apply list_elem_of_fmap. by exists (id', d').
Qed.

(** What the transaction of one expired contract commits. *)
Lemma expireOne_inr today id d c s u s' :
  ContractService1.expireOne today id d c s = inr (u, s') ->
  ∃ d0, contracts s !! id = Some d0
    ∧ contracts s' = <[id := Contract.set_status Expired d0]> (contracts s)
    ∧ clubs s' = clubs s ∧ transfers s' = transfers s
    ∧ (players s' = players s
       ∨ ∃ p, players s !! Contract.playerId d = Some p
              ∧ Player.currentClub p = Some (Contract.clubId d)
              ∧ players s'
                = <[Contract.playerId d := Player.set_currentClub None p]> (players s)).
Proof.
  unfold ContractService1.expireOne. intros H. run_inv H.
  match goal with
  | Hs : saveContract _ _ _ _ = inr _ |- _ =>
      apply saveContract_inr in Hs; destruct Hs as (d0 & Hd0 & ->)
  end.
  exists d0. split; [done |]. simpl in H.
  destruct (players s !! Contract.playerId d) as [p |] eqn:Hp;
    [| by run_inv H; auto].
  destruct (bool_decide _) eqn:Hclub; [| by run_inv H; auto].
  apply bool_decide_eq_true in Hclub.
  apply savePlayer_inr in H as (p' & Hp' & _ & ->). simpl in *.
  rewrite Hp in Hp'. injection Hp' as <-.
  repeat split; try done. right. by exists p.
Qed.

Lemma sweep_ages today l n db :
  NoDup l.*1 ->
  (∀ id d, (id, d) ∈ l ->
     ∃ d0, contracts db !! id = Some d0 ∧ Contract.status d0 = Active) ->
  rtc lifecycle (contracts db)
      (contracts (ContractService1.sweep today l n db).1).
Proof.
  revert n db. induction l as [| [id d] l IH]; intros n db Hnd Hall; simpl;
    [done |].
  simpl in Hnd. apply NoDup_cons in Hnd as [Hid Hnd].
  destruct (withTransaction (ContractService1.expireOne today id d) db)
    as [db1 [e | u]] eqn:Hrun.
  - apply withTransaction_inl in Hrun as ->. apply IH; [done |].
    intros id' d' Hin. apply (Hall id' d'). by right.
  - apply withTransaction_inr, expireOne_inr in Hrun
      as (d0 & Hd0 & Hcs & _).
    destruct (Hall id d) as (d0' & Hd0' & Hact); [left |].
    rewrite Hd0 in Hd0'. injection Hd0' as <-.
    eapply rtc_l.
    { apply (lc_close _ id d0 (Contract.set_status Expired d0)); [done | done | |].
    - simpl. discriminate.
    - apply sameTerms_set_status. }
    rewrite <- Hcs. apply IH; [done |].
    intros id' d' Hin. rewrite Hcs, lookup_insert_ne.
    + apply (Hall id' d'). by right.
    + intros ->. apply Hid. apply list_elem_of_fmap. by exists (id', d').
Qed.

Lemma expired_listed today db id d :
  (id, d) ∈ find (ContractService2.isExpiredAt today) (contracts db) ->
  ∃ d0, contracts db !! id = Some d0 ∧ Contract.status d0 = Active.
Proof.
  intros [Hid Hexp]%find_elem. exists d. split; [done |].
  by apply isExpiredAt_Active in Hexp.
Qed.

Lemma withTransaction_ages {A} (m : Session A) db :
  ages m -> rtc lifecycle (contracts db) (contracts (withTransaction m db).1).
Proof.
  intros Hm. unfold withTransaction.
  destruct (m db db) as [e | [a s']] eqn:E; simpl; [done |]. by eapply Hm.
Qed.

Lemma engineStep_ages db db' :
  engineStep db db' -> rtc lifecycle (contracts db) (contracts db').
Proof.
  destruct 1.
  - apply withTransaction_ages, ages_createContractIn.
  - apply withTransaction_ages, ages_renewContractIn.
  - apply withTransaction_ages, ages_terminateContractIn.
  - apply withTransaction_ages, ages_terminateContractIn1.
  - apply withTransaction_ages, ages_completeTransferIn.
  - apply withTransaction_ages, ages_completeTransferIn2.
  - unfold ContractService2.processExpiredContracts, withTransaction.
    destruct (ContractService2.expireAll _ 0 db db) as [e | [a s']] eqn:E;
      simpl; [done |].
    eapply expireAll_ages; [apply find_NoDup | apply expired_listed | exact E].
  - apply sweep_ages; [apply find_NoDup | apply expired_listed].
Qed.

(** X1.  Across any sequence of engine operations (create, renew, terminate,
    complete a transfer, sweep; either listing) no contract is ever deleted,
    the player, club, dates and salary of a contract never change, and a
    contract that is Terminated or Expired is never changed again. *)
Theorem contracts_are_never_rewritten db db' k d :
  reachable db db' -> contracts db !! k = Some d ->
  ∃ d', contracts db' !! k = Some d'
        ∧ sameTerms d d'
        ∧ (Contract.status d ≠ Active -> d' = d).
Proof.
  intros Hreach. eapply lifecycles_keep. clear k d.
  induction Hreach as [| db1 db2 db3 Hstep _ IH]; [done |].
  etrans; [by apply engineStep_ages | done].
Qed.

Lemma contracts_are_never_rewritten_witness :
  ∃ d',
    contracts
      (ContractService2.createContract Sample.jul2025 Sample.oneYearWithA
         (ContractService2.terminateContract Sample.jul2025 0%N
            (mkTerminationData None None false false) Sample.db1).1).1 !! 0%N
    = Some d'
    ∧ sameTerms
        (Contract.mk Sample.playerX Sample.clubA Sample.jul2025 Sample.jul2026
                     100000 ∅ Active) d'
    ∧ (Contract.status
         (Contract.mk Sample.playerX Sample.clubA Sample.jul2025 Sample.jul2026
                      100000 ∅ Active) ≠ Active ->
       d' = Contract.mk Sample.playerX Sample.clubA Sample.jul2025 Sample.jul2026
                        100000 ∅ Active).
Proof.
  apply (contracts_are_never_rewritten Sample.db1).
  - eapply rtc_l; [apply step_terminateContract |].
    eapply rtc_l; [apply step_createContract |]. apply rtc_refl.
  - vm_compute. reflexivity.
Defined.

(** ** What a contract creation checks and writes *)

Lemma validateContract_checks cd c s b s' :
  ContractService2.validateContract cd c s = inr (b, s') ->
  s' = s ∧ ∃ p cl sd ed sal club,
    cd_playerId cd = Some p ∧ cd_clubId cd = Some cl
    ∧ cd_startDate cd = Some sd ∧ cd_endDate cd = Some ed
    ∧ cd_salary cd = Some sal
    ∧ is_Some (players s !! p) ∧ clubs s !! cl = Some club
    ∧ ContractService2.minDuration <= getTime ed - getTime sd
    ∧ getTime ed - getTime sd <= ContractService2.maxDuration
    ∧ ContractService2.calculateClubSalaryExpenses (Some cl) c + sal
      <= Club.budget club.
Proof.
  unfold ContractService2.validateContract. intros H.
  destruct (cd_playerId cd) as [p |]; [| done].
  destruct (cd_clubId cd) as [cl |]; [| done].
  destruct (cd_startDate cd) as [sd |]; [| done].
  destruct (cd_endDate cd) as [ed |]; [| done].
  destruct (cd_salary cd) as [sal |]; [| done].
  run_inv H. simpl in H.
  destruct (players s !! p) as [pl |] eqn:Hp; [| done].
  destruct (clubs s !! cl) as [club |] eqn:Hc; [| done].
  destruct (getTime ed <=? getTime sd) eqn:Hle; [done |].
  destruct (_ <? ContractService2.minDuration) eqn:Hmin; [done |].
  destruct (ContractService2.maxDuration <? _) eqn:Hmax; [done |].
  run_inv H.
  destruct (findOne _ _) eqn:Hfind in H; [done |].
  run_inv H.
  destruct (Club.budget club <? _) eqn:Hbudget; [done |].
  run_inv H. split; [done |].
  exists p, cl, sd, ed, sal, club. repeat split; try done; try lia.
Qed.

(** The full effect of a successful creation inside a session. *)
Lemma createContractIn_effect now cd c s id doc s' :
  ContractService2.createContractIn now cd c s = inr ((id, doc), s') ->
  ∃ player club,
    players s !! Contract.playerId doc = Some player
    ∧ clubs s !! Contract.clubId doc = Some club
    ∧ Player.preSave now player = None
    ∧ 0 <= Contract.salary doc
    ∧ ContractService2.minDuration
      <= getTime (Contract.endDate doc) - getTime (Contract.startDate doc)
    ∧ getTime (Contract.endDate doc) - getTime (Contract.startDate doc)
      <= ContractService2.maxDuration
    ∧ ContractService2.calculateClubSalaryExpenses (Some (Contract.clubId doc)) c
      + Contract.salary doc <= Club.budget club
    ∧ players s'
      = <[Contract.playerId doc :=
            Player.set_currentClub (Some (Contract.clubId doc)) player]> (players s)
    ∧ clubs s'
      = (if existsb (N.eqb (Contract.playerId doc)) (Club.currentSquad club)
         then clubs s
         else <[Contract.clubId doc :=
                  Club.set_currentSquad
                    (Club.currentSquad club ++ [Contract.playerId doc]) club]>
                (clubs s))
    ∧ contracts s' = <[id := doc]> (contracts s)
    ∧ transfers s' = transfers s
    ∧ contracts s !! id = None
    ∧ Contract.status doc = Active.
Proof.
  unfold ContractService2.createContractIn. intros H. run_inv H.
  match goal with
  | Hv : ContractService2.validateContract _ _ _ = _ |- _ =>
      apply validateContract_checks in Hv;
      destruct Hv as (-> & p & cl & sd & ed & sal & club & Hp & Hcl & Hsd & Hed
                      & Hsal & [player Hplayer] & Hclub & Hmin & Hmax & Hbudget)
  end.
  match goal with
  | Hi : insertContract _ _ _ = inr _ |- _ =>
      pose proof Hi as Hins;
      apply insertContract_inr in Hi;
      destruct Hi as (Hid & -> & Hp' & Hcl' & Hsd' & Hed' & Hsal' & Hst)
  end.
  rewrite Hp in Hp'. rewrite Hcl in Hcl'. rewrite Hsd in Hsd'.
  rewrite Hed in Hed'. rewrite Hsal in Hsal'.
  injection Hp' as ->. injection Hcl' as ->. injection Hsd' as ->.
  injection Hed' as ->. injection Hsal' as ->.
  assert (0 <= Contract.salary doc) as Hnonneg.
  { unfold insertContract in Hins. rewrite Hp, Hcl, Hsd, Hed, Hsal in Hins.
    destruct (Contract.salary doc <? 0) eqn:Hneg; [done | lia]. }
  simpl in *. rewrite Hp, Hcl in *. simpl in *. rewrite Hplayer in *.
  match goal with
  | Hs : savePlayer _ _ _ _ _ = inr _ |- _ =>
      apply savePlayer_inr in Hs; destruct Hs as (player' & Hplayer' & Hpre & ->)
  end.
  simpl in *. rewrite Hplayer in Hplayer'. injection Hplayer' as <-.
  rewrite Hclub in *.
  assert (contracts s !! id = None) as Hfresh.
  { subst id. apply newId_fresh. }
  exists player, club.
  assert (Player.preSave now player = None) as Hpre'.
  { unfold Player.preSave, Player.age in *. simpl in Hpre. exact Hpre. }
  destruct (existsb (N.eqb (Contract.playerId doc)) (Club.currentSquad club)).
  - match goal with
    | Hr : mret _ _ _ = inr _ |- _ => apply mret_inr in Hr as [_ ->]
    end.
    repeat split; done.
  - match goal with
    | Hr : saveClub _ _ _ _ = inr _ |- _ =>
        apply saveClub_inr in Hr as (club' & Hclub' & ->)
    end.
    simpl in *. rewrite Hclub in Hclub'. injection Hclub' as <-.
    repeat split; done.
Qed.

Lemma preSave_None today p :
  Player.preSave today p = None -> 16 <= Player.age today p <= 50.
Proof.
  unfold Player.preSave.
  destruct (Player.age today p <? 16) eqn:H1; [done |].
  destruct (50 <? Player.age today p) eqn:H2; [done |]. lia.
Qed.

(** X2.  A contract creation that succeeds has passed every check of the
    service and of the schemas: the player is between 16 and 50 years old,
    the salary is not negative, the term lasts between 30 days and five
    times 365 days, and the budget of the club covers the salaries of its
    Active contracts plus the new salary. *)
Theorem createContract_accepts_only_valid now cd db db' id doc :
  ContractService2.createContract now cd db = (db', inr (id, doc)) ->
  ∃ player club,
    players db !! Contract.playerId doc = Some player
    ∧ clubs db !! Contract.clubId doc = Some club
    ∧ 16 <= Player.age now player <= 50
    ∧ 0 <= Contract.salary doc
    ∧ ContractService2.minDuration
      <= getTime (Contract.endDate doc) - getTime (Contract.startDate doc)
      <= ContractService2.maxDuration
    ∧ ContractService2.calculateClubSalaryExpenses (Some (Contract.clubId doc)) db
      + Contract.salary doc <= Club.budget club.
Proof.
  intros H. apply withTransaction_inr, createContractIn_effect in H
    as (player & club & Hp & Hc & Hpre & Hsal & Hmin & Hmax & Hbud & _).
  apply preSave_None in Hpre.
  exists player, club. repeat split; try done; lia.
Qed.

Lemma createContract_accepts_only_valid_witness :
  ∃ player club,
    players Sample.db0 !! Sample.playerX = Some player
    ∧ clubs Sample.db0 !! Sample.clubA = Some club
    ∧ 16 <= Player.age Sample.jul2025 player <= 50
    ∧ 0 <= 100000
    ∧ ContractService2.minDuration
      <= getTime Sample.jul2026 - getTime Sample.jul2025
      <= ContractService2.maxDuration
    ∧ ContractService2.calculateClubSalaryExpenses (Some Sample.clubA) Sample.db0
      + 100000 <= Club.budget club.
Proof.
  apply (createContract_accepts_only_valid Sample.jul2025 Sample.oneYearWithA
           Sample.db0 Sample.db1 0%N
           (Contract.mk Sample.playerX Sample.clubA Sample.jul2025 Sample.jul2026
                        100000 ∅ Active)).
  vm_compute. reflexivity.
Defined.

(** X3.  A contract creation that succeeds stores one Active contract under
    an unused id, registers the player with the club, and lists the player
    in the squad of the club once more only if the squad did not list the
    player; the budget of the club, every other player, every other club
    (the former club of the player included) and the transfers stay as they
    were. *)
Theorem createContract_registers_player now cd db db' id doc :
  ContractService2.createContract now cd db = (db', inr (id, doc)) ->
  contracts db !! id = None
  ∧ contracts db' = <[id := doc]> (contracts db)
  ∧ Contract.status doc = Active
  ∧ (∃ player,
       players db !! Contract.playerId doc = Some player
       ∧ players db'
         = <[Contract.playerId doc :=
               Player.set_currentClub (Some (Contract.clubId doc)) player]>
             (players db))
  ∧ (∃ club club',
       clubs db !! Contract.clubId doc = Some club
       ∧ clubs db' !! Contract.clubId doc = Some club'
       ∧ Club.budget club' = Club.budget club
       ∧ Contract.playerId doc ∈ Club.currentSquad club'
       ∧ (∀ p, p ∈ Club.currentSquad club'
               ↔ p ∈ Club.currentSquad club ∨ p = Contract.playerId doc)
       ∧ (NoDup (Club.currentSquad club) -> NoDup (Club.currentSquad club')))
  ∧ (∀ j, j ≠ Contract.clubId doc -> clubs db' !! j = clubs db !! j)
  ∧ transfers db' = transfers db.
Proof.
  intros H. apply withTransaction_inr, createContractIn_effect in H
    as (player & club & Hp & Hc & _ & _ & _ & _ & _ & Hps & Hcs & Hks & Hts
        & Hfresh & Hact).
  split; [done |]. split; [done |]. split; [done |].
  split; [by exists player |].
  destruct (existsb (N.eqb (Contract.playerId doc)) (Club.currentSquad club))
    eqn:Hin.
  - apply existsb_exists in Hin as (q & Hq%list_elem_of_In & <-%N.eqb_eq).
    split; [| by rewrite Hcs].
    exists club, club. rewrite Hcs. repeat split; try done.
    + by left.
    + by intros [? | ->].
  - assert (Contract.playerId doc ∉ Club.currentSquad club) as Hnotin.
    { intros Hq%list_elem_of_In.
      assert (existsb (N.eqb (Contract.playerId doc)) (Club.currentSquad club)
              = true) as E; [| congruence].
      apply existsb_exists. exists (Contract.playerId doc).
      split; [done | apply N.eqb_refl]. }
    split; [| split; [by intros j Hj; rewrite Hcs, lookup_insert_ne | done]].
    eexists club, _. rewrite Hcs, lookup_insert_eq. repeat split; try done; simpl.
    + apply elem_of_app. right. by left.
    + intros [? | ->%list_elem_of_singleton]%elem_of_app; auto.
    + intros [? | ->]; apply elem_of_app; [by left | right; by left].
    + intros Hnd. apply NoDup_app. split; [done |]. split; [| apply NoDup_singleton].
      intros q Hq ->%list_elem_of_singleton. done.
Qed.

Lemma createContract_registers_player_witness :
  contracts Sample.db0 !! 0%N = None
  ∧ (Player.currentClub <$> players Sample.db1 !! Sample.playerX)
    = Some (Some Sample.clubA)
  ∧ (Club.currentSquad <$> clubs Sample.db1 !! Sample.clubA)
    = Some [Sample.playerX].
Proof.
  destruct (createContract_registers_player Sample.jul2025 Sample.oneYearWithA
              Sample.db0 Sample.db1 0%N
              (Contract.mk Sample.playerX Sample.clubA Sample.jul2025
                           Sample.jul2026 100000 ∅ Active))
    as (Hfresh & _); [vm_compute; reflexivity |].
  split; [exact Hfresh |]. split; vm_compute; reflexivity.
Defined.

(** ** The salary expenses of a club follow its Active contracts *)

Lemma sumSalaries_perm l l' : l ≡ₚ l' -> sumSalaries l = sumSalaries l'.
Proof. induction 1; simpl; lia. Qed.

Lemma List_filter_perm {A} (f : A -> bool) l l' :
  l ≡ₚ l' -> List.filter f l ≡ₚ List.filter f l'.
Proof.
  induction 1 as [| x l l' _ IH | x y l | l1 l2 l3 _ IH1 _ IH2]; simpl.
  - done.
  - destruct (f x); [by constructor | done].
  - destruct (f x), (f y); try done. apply perm_swap.
  - by etrans.
Qed.

Lemma find_insert_fresh {D} (f : D -> bool) (m : gmap ObjectId D) k d :
  m !! k = None ->
  find f (<[k := d]> m) ≡ₚ (if f d then [(k, d)] else []) ++ find f m.
Proof.
  intros Hk. unfold find.
  etrans; [apply List_filter_perm, map_to_list_insert, Hk |].
  simpl. by destruct (f d).
Qed.

(** The sum over the matching contracts after one document was written. *)
Lemma sumSalaries_insert (f : Contract.t -> bool) (m : gmap ObjectId Contract.t)
    k d :
  sumSalaries (find f (<[k := d]> m))
  = sumSalaries (find f m)
    - match m !! k with
      | Some d0 => if f d0 then Contract.salary d0 else 0
      | None => 0
      end
    + (if f d then Contract.salary d else 0).
Proof.
  destruct (m !! k) as [d0 |] eqn:Hk.
  - rewrite <- (insert_delete_eq m k d).
    rewrite <- (insert_delete_id m k d0 Hk) at 2.
    rewrite (sumSalaries_perm _ _
               (find_insert_fresh f (delete k m) k d (lookup_delete_eq m k))).
    rewrite (sumSalaries_perm _ _
               (find_insert_fresh f (delete k m) k d0 (lookup_delete_eq m k))).
    destruct (f d), (f d0); simpl; lia.
  - rewrite (sumSalaries_perm _ _ (find_insert_fresh f m k d Hk)).
    destruct (f d); simpl; lia.
Qed.

(** X4.  A contract creation that succeeds raises the salary expenses of
    the club by the salary of the new contract, leaves the salary expenses
    of every other club as they were, and the budget of the club still
    covers its salary expenses afterwards. *)
Theorem createContract_raises_salary_expenses now cd db db' id doc :
  ContractService2.createContract now cd db = (db', inr (id, doc)) ->
  ContractService2.calculateClubSalaryExpenses (Some (Contract.clubId doc)) db'
  = ContractService2.calculateClubSalaryExpenses (Some (Contract.clubId doc)) db
    + Contract.salary doc
  ∧ (∀ j, j ≠ Contract.clubId doc ->
       ContractService2.calculateClubSalaryExpenses (Some j) db'
       = ContractService2.calculateClubSalaryExpenses (Some j) db)
  ∧ ∃ club', clubs db' !! Contract.clubId doc = Some club'
       ∧ ContractService2.calculateClubSalaryExpenses
           (Some (Contract.clubId doc)) db' <= Club.budget club'.
Proof.
  intros H. apply withTransaction_inr, createContractIn_effect in H
    as (player & club & _ & Hc & _ & _ & _ & _ & Hbud & _ & Hcs & Hks & _
        & Hfresh & Hact).
  assert (∀ j,
    ContractService2.calculateClubSalaryExpenses (Some j) db'
    = ContractService2.calculateClubSalaryExpenses (Some j) db
      + (if bool_decide (j = Contract.clubId doc) then Contract.salary doc else 0))
    as Hexp.
  { intros j. unfold ContractService2.calculateClubSalaryExpenses.
    rewrite Hks, sumSalaries_insert, Hfresh.
    unfold isActive. rewrite (bool_decide_eq_true_2 _ Hact), andb_true_r.
    destruct (decide (j = Contract.clubId doc)) as [-> | Hne].
    - rewrite !bool_decide_eq_true_2 by done. lia.
    - rewrite (bool_decide_eq_false_2 (j = _)) by done.
      rewrite bool_decide_eq_false_2 by congruence. lia. }
  split; [| split].
  - rewrite Hexp, bool_decide_eq_true_2 by done. done.
  - intros j Hj. rewrite Hexp, bool_decide_eq_false_2 by done. lia.
  - rewrite Hexp, bool_decide_eq_true_2 by done.
    destruct (existsb _ _).
    + exists club. by rewrite Hcs.
    + eexists. rewrite Hcs, lookup_insert_eq. split; [done |]. simpl. done.
Qed.

Lemma createContract_raises_salary_expenses_witness :
  ContractService2.calculateClubSalaryExpenses (Some Sample.clubA) Sample.db1
  = ContractService2.calculateClubSalaryExpenses (Some Sample.clubA) Sample.db0
    + 100000.
Proof.
  destruct (createContract_raises_salary_expenses Sample.jul2025
              Sample.oneYearWithA Sample.db0 Sample.db1 0%N
              (Contract.mk Sample.playerX Sample.clubA Sample.jul2025
                           Sample.jul2026 100000 ∅ Active))
    as (Hexp & _); [vm_compute; reflexivity |].
  exact Hexp.
Defined.

(** X5.  A termination that succeeds (either listing) lowers the salary
    expenses of the club of the contract by the salary of the contract and
    leaves the salary expenses of every other club as they were. *)
Theorem terminateContract_lowers_salary_expenses now k td db db' c' :
  ContractService2.terminateContract now k td db = (db', inr c')
  ∨ ContractService1.terminateContract now k td db = (db', inr c') ->
  ContractService2.calculateClubSalaryExpenses (Some (Contract.clubId c')) db'
  = ContractService2.calculateClubSalaryExpenses (Some (Contract.clubId c')) db
    - Contract.salary c'
  ∧ ∀ j, j ≠ Contract.clubId c' ->
      ContractService2.calculateClubSalaryExpenses (Some j) db'
      = ContractService2.calculateClubSalaryExpenses (Some j) db.
Proof.
  intros H.
  assert (∃ d, contracts db !! k = Some d ∧ Contract.status d = Active
               ∧ contracts db' = <[k := c']> (contracts db)
               ∧ Contract.status c' = Terminated ∧ sameTerms d c')
    as (d & Hk & Hact & Hks & Hst & (_ & Hclub & _ & _ & Hsal)).
  { destruct H as [H | H]; apply withTransaction_inr in H.
    - apply terminateContractIn_annotates in H
        as (d & Hk & Hact & -> & Hst & Hterms & _). by exists d.
    - apply terminateContractIn1_annotates in H
        as (d & Hk & Hact & Hks & _ & _ & Hst & Hterms & _). by exists d. }
  assert (∀ j,
    ContractService2.calculateClubSalaryExpenses (Some j) db'
    = ContractService2.calculateClubSalaryExpenses (Some j) db
      - (if bool_decide (j = Contract.clubId c') then Contract.salary c' else 0))
    as Hexp.
  { intros j. unfold ContractService2.calculateClubSalaryExpenses.
    rewrite Hks, sumSalaries_insert, Hk.
    unfold isActive. rewrite (bool_decide_eq_true_2 _ Hact), andb_true_r.
    rewrite (bool_decide_eq_false_2 (Contract.status c' = Active)),
      andb_false_r by congruence.
    rewrite <- Hclub, <- Hsal.
    destruct (decide (j = Contract.clubId c')) as [-> | Hne].
    - rewrite !bool_decide_eq_true_2 by done. lia.
    - rewrite (bool_decide_eq_false_2 (j = _)) by done.
      rewrite bool_decide_eq_false_2 by congruence. lia. }
  split.
  - rewrite Hexp, bool_decide_eq_true_2 by done. done.
  - intros j Hj. rewrite Hexp, bool_decide_eq_false_2 by done. lia.
Qed.

Lemma terminateContract_lowers_salary_expenses_witness :
  ContractService2.calculateClubSalaryExpenses (Some Sample.clubA)
    (ContractService2.terminateContract Sample.jul2025 0%N
       (mkTerminationData None None false false) Sample.db1).1
  = ContractService2.calculateClubSalaryExpenses (Some Sample.clubA) Sample.db1
    - 100000.
Proof.
  destruct (terminateContract_lowers_salary_expenses Sample.jul2025 0%N
              (mkTerminationData None None false false) Sample.db1
              (ContractService2.terminateContract Sample.jul2025 0%N
                 (mkTerminationData None None false false) Sample.db1).1
              (Contract.mk Sample.playerX Sample.clubA Sample.jul2025
                 Sample.jul2026 100000
                 (<["terminationDate" := MDate Sample.jul2025]>
                    (<["terminationReason" := MString "Transfer"]> ∅))
                 Terminated))
    as (Hexp & _); [left; vm_compute; reflexivity |].
  exact Hexp.
Defined.

(** ** Termination *)

(** X6.  A termination that succeeds (second listing) finds the contract
    Active and rewrites that one document only: the status becomes
    Terminated, the reason (by default Transfer) and the date of the
    termination are recorded among the clauses, a compensation fee is
    recorded only when it is present and not 0, and the parties, the terms
    and every other clause of the contract, as well as all players, clubs
    and transfers, stay as they were. *)
Theorem terminateContract_records_termination now k td db db' c' :
  ContractService2.terminateContract now k td db = (db', inr c') ->
  ∃ d, contracts db !! k = Some d ∧ Contract.status d = Active
    ∧ db' = set_contracts (<[k := c']> (contracts db)) db
    ∧ Contract.status c' = Terminated
    ∧ sameTerms d c'
    ∧ Contract.clauses c' !! "terminationReason"
      = Some (MString (strOr (reason td) "Transfer"))
    ∧ Contract.clauses c' !! "terminationDate" = Some (MDate now)
    ∧ Contract.clauses c' !! "terminationFee"
      = (if truthy (compensationFee td)
         then MNumber <$> compensationFee td
         else Contract.clauses d !! "terminationFee")
    ∧ ∀ key, key ≠ "terminationReason" -> key ≠ "terminationDate" ->
             key ≠ "terminationFee" ->
             Contract.clauses c' !! key = Contract.clauses d !! key.
Proof.
  intros H. by apply withTransaction_inr, terminateContractIn_annotates in H.
Qed.

Lemma terminateContract_records_termination_witness :
  ∃ d, contracts Sample.db1 !! 0%N = Some d ∧ Contract.status d = Active
    ∧ Contract.clauses d !! "terminationFee" = None.
Proof.
  destruct (terminateContract_records_termination Sample.jul2025 0%N
              (mkTerminationData (Some "") (Some 0) false false) Sample.db1
              (ContractService2.terminateContract Sample.jul2025 0%N
                 (mkTerminationData (Some "") (Some 0) false false)
                 Sample.db1).1
              (Contract.mk Sample.playerX Sample.clubA Sample.jul2025
                 Sample.jul2026 100000
                 (<["terminationDate" := MDate Sample.jul2025]>
                    (<["terminationReason" := MString "Transfer"]> ∅))
                 Terminated))
    as (d & Hd & Hact & _ & _ & _ & _ & _ & Hfee & _);
    [vm_compute; reflexivity |].
  exists d. split; [exact Hd |]. split; [exact Hact |].
  simpl in Hfee. rewrite <- Hfee. vm_compute. reflexivity.
Defined.

(** The optional release of the player at the end of a termination of the
    first listing. *)
Lemma releasePlayer_inr now (td : TerminationData) (d : Contract.t) c s u s' :
  (if updatePlayerStatus td then
     player ← inSession (findPlayer (Some (Contract.playerId d)));
     match player with
     | Some _ =>
         if freeAgent td then
           savePlayer now (Contract.playerId d) (Player.set_currentClub None)
         else mret tt
     | None => mret tt
     end
   else mret tt) c s = inr (u, s') ->
  contracts s' = contracts s ∧ clubs s' = clubs s ∧ transfers s' = transfers s
  ∧ players s'
    = match players s !! Contract.playerId d with
      | Some p =>
          if updatePlayerStatus td && freeAgent td
          then <[Contract.playerId d := Player.set_currentClub None p]> (players s)
          else players s
      | None => players s
      end.
Proof.
  intros H. destruct (updatePlayerStatus td); simpl.
  - run_inv H. simpl in H.
    destruct (players s !! Contract.playerId d) as [p |] eqn:Hp.
    + destruct (freeAgent td).
      * apply savePlayer_inr in H as (p' & Hp' & _ & ->). simpl.
        rewrite Hp in Hp'. by injection Hp' as <-.
      * by run_inv H.
    + by run_inv H.
  - run_inv H. by destruct (players s !! Contract.playerId d).
Qed.

(** X7.  A termination of the first listing that succeeds makes the player
    a free agent exactly when the caller asked for it with both
    updatePlayerStatus and freeAgent and the player document exists,
    whichever club the player is registered with; in every other case the
    players stay as they were.  The clubs, and so the squad that lists the
    player, and the transfers are never touched. *)
Theorem terminateContract1_frees_player_on_request now k td db db' c' :
  ContractService1.terminateContract now k td db = (db', inr c') ->
  clubs db' = clubs db ∧ transfers db' = transfers db
  ∧ players db'
    = match players db !! Contract.playerId c' with
      | Some p =>
          if updatePlayerStatus td && freeAgent td
          then <[Contract.playerId c' := Player.set_currentClub None p]> (players db)
          else players db
      | None => players db
      end.
Proof.
  intros H. apply withTransaction_inr in H.
  unfold ContractService1.terminateContractIn in H. run_inv H.
  destruct (contracts db !! k) as [d |] eqn:Hk; [| done].
  destruct (isActive d) eqn:Hact; [| done]. simpl in H.
  run_inv H.
  match goal with
  | Hs : saveContract _ _ _ _ = inr _ |- _ =>
      apply saveContract_inr in Hs; destruct Hs as (d' & Hk' & ->)
  end.
  match goal with
  | Hm : (if updatePlayerStatus td then _ else _) _ _ = inr _ |- _ =>
      apply releasePlayer_inr in Hm as (_ & Hcl & Htr & Hpl)
  end.
  simpl in *. rewrite Hcl, Htr, Hpl.
  by destruct (truthy (compensationFee td)).
Qed.

Lemma terminateContract1_frees_player_on_request_witness :
  (Player.currentClub
     <$> players
           (ContractService1.terminateContract Sample.jul2025 0%N
              (mkTerminationData None None true true) Sample.db1).1
         !! Sample.playerX) = Some None
  ∧ (Club.currentSquad
       <$> clubs
             (ContractService1.terminateContract Sample.jul2025 0%N
                (mkTerminationData None None true true) Sample.db1).1
           !! Sample.clubA) = Some [Sample.playerX].
Proof.
  destruct (terminateContract1_frees_player_on_request Sample.jul2025 0%N
              (mkTerminationData None None true true) Sample.db1
              (ContractService1.terminateContract Sample.jul2025 0%N
                 (mkTerminationData None None true true) Sample.db1).1
              (Contract.mk Sample.playerX Sample.clubA Sample.jul2025
                 Sample.jul2026 100000
                 (<["terminationDate" := MDate Sample.jul2025]>
                    (<["terminationReason" := MString "Unspecified"]> ∅))
                 Terminated))
    as (Hcl & _ & Hpl); [vm_compute; reflexivity |].
  rewrite Hcl, Hpl. split; vm_compute; reflexivity.
Defined.

(** X8.  A contract that is Terminated or Expired refuses every further
    operation: terminating it (either listing), renewing it and updating it
    all fail with a validation error (400) and leave the store as it was. *)
Theorem closed_contract_refuses_operations now k d db :
  contracts db !! k = Some d -> Contract.status d ≠ Active ->
  (∀ td, ∃ e, ContractService2.terminateContract now k td db = (db, inl e)
              ∧ isValidationError e)
  ∧ (∀ td, ∃ e, ContractService1.terminateContract now k td db = (db, inl e)
                ∧ isValidationError e)
  ∧ (∀ rd, ∃ e, ContractService2.renewContract now k rd db = (db, inl e)
                ∧ isValidationError e)
  ∧ (∀ ud, ∃ e, ContractService1.updateContract k ud db = (db, inl e)
                ∧ isValidationError e).
Proof.
  intros Hk Hst.
  assert (isActive d = false) as Hact by by apply bool_decide_eq_false.
  repeat split; intros x; eexists;
    unfold ContractService2.terminateContract, ContractService1.terminateContract,
      ContractService2.renewContract, ContractService1.updateContract,
      withTransaction, ContractService2.terminateContractIn,
      ContractService1.terminateContractIn, ContractService2.renewContractIn,
      mbind, Session_bind, inSession;
    rewrite Hk, Hact; simpl; split; reflexivity.
Qed.

Lemma closed_contract_refuses_operations_witness :
  ∃ e, ContractService2.renewContract Sample.jul2025 0%N
         (mkContractData None None None (Some Sample.jul2028) (Some 150000) None)
         (ContractService2.terminateContract Sample.jul2025 0%N
            (mkTerminationData None None false false) Sample.db1).1
       = ((ContractService2.terminateContract Sample.jul2025 0%N
             (mkTerminationData None None false false) Sample.db1).1, inl e)
       ∧ isValidationError e.
Proof.
  destruct (closed_contract_refuses_operations Sample.jul2025 0%N
              (Contract.mk Sample.playerX Sample.clubA Sample.jul2025
                 Sample.jul2026 100000
                 (<["terminationDate" := MDate Sample.jul2025]>
                    (<["terminationReason" := MString "Transfer"]> ∅))
                 Terminated)
              (ContractService2.terminateContract Sample.jul2025 0%N
                 (mkTerminationData None None false false) Sample.db1).1)
    as (_ & _ & Hrenew & _);
    [vm_compute; reflexivity | simpl; discriminate |].
  apply Hrenew.
Defined.

(** ** The sweeps of expired contracts *)

(** The players after some steps of the loop of the first listing: a
    player is as before, or was registered with the club of one of the
    contracts of the list and is a free agent now. *)
Lemma sweep_players today l n db :
  let r := ContractService1.sweep today l n db in
  clubs r.1 = clubs db ∧ transfers r.1 = transfers db
  ∧ n <= r.2 <= n + Z.of_nat (length l)
  ∧ ∀ i, players r.1 !! i = players db !! i
         ∨ ∃ p id d, (id, d) ∈ l ∧ Contract.playerId d = i
             ∧ players db !! i = Some p
             ∧ Player.currentClub p = Some (Contract.clubId d)
             ∧ players r.1 !! i = Some (Player.set_currentClub None p).
Proof.
  revert n db. induction l as [| [id d] l IH]; intros n db; simpl.
  { repeat split; try done; try lia. by left. }
  destruct (withTransaction (ContractService1.expireOne today id d) db)
    as [db1 [e | u]] eqn:Hrun.
  - apply withTransaction_inl in Hrun as ->.
    destruct (IH n db) as (Hcl & Htr & Hn & Hpl).
    repeat split; try done; try lia.
    intros i. destruct (Hpl i) as [E | (p & id' & d' & Hin & ?)]; [by left |].
    right. exists p, id', d'. split; [by right | done].
  - apply withTransaction_inr, expireOne_inr in Hrun
      as (d0 & _ & _ & Hcl1 & Htr1 & Hpl1).
    destruct (IH (n + 1) db1) as (Hcl & Htr & Hn & Hpl).
    rewrite Hcl, Htr, Hcl1, Htr1. repeat split; try done; try lia.
    intros i. destruct (Hpl i) as [E | (p1 & id' & d' & Hin & Hd' & Hp1 & Hc1 & E)].
    + rewrite E. destruct Hpl1 as [-> | (p & Hp & Hc & ->)]; [by left |].
      destruct (decide (Contract.playerId d = i)) as [<- | Hne].
      * right. exists p, id, d. rewrite lookup_insert_eq.
        split; [by left | done].
      * left. by rewrite lookup_insert_ne.
    + destruct Hpl1 as [Hsame | (p & Hp & Hc & Hins)].
      * right. exists p1, id', d'. rewrite <- Hsame. split; [by right | done].
      * rewrite Hins in Hp1.
        destruct (decide (Contract.playerId d = i)) as [<- | Hne].
        -- rewrite lookup_insert_eq in Hp1. injection Hp1 as <-.
           simpl in Hc1. done.
        -- rewrite lookup_insert_ne in Hp1 by done.
           right. exists p1, id', d'. split; [by right | done].
Qed.

(** X9.  The sweep of the first listing never touches a club or a
    transfer, counts at most the contracts it found expired, and changes a
    player only by making the player a free agent, which happens only to a
    player who was registered with the club of one of the contracts found
    expired; a player registered elsewhere keeps the registration. *)
Theorem processExpiredContracts1_frees_registered_players today db :
  let r := ContractService1.processExpiredContracts today db in
  clubs r.1 = clubs db ∧ transfers r.1 = transfers db
  ∧ 0 <= r.2
       <= Z.of_nat (length (find (ContractService2.isExpiredAt today) (contracts db)))
  ∧ ∀ i, players r.1 !! i = players db !! i
         ∨ ∃ p k d, contracts db !! k = Some d
             ∧ Contract.status d = Active
             ∧ getTime (Contract.endDate d) < getTime today
             ∧ Contract.playerId d = i
             ∧ players db !! i = Some p
             ∧ Player.currentClub p = Some (Contract.clubId d)
             ∧ players r.1 !! i = Some (Player.set_currentClub None p).
Proof.
  unfold ContractService1.processExpiredContracts.
  set (l := find (ContractService2.isExpiredAt today) (contracts db)).
  destruct (sweep_players today l 0 db) as (Hcl & Htr & Hn & Hpl).
  simpl. repeat split; try done; try lia.
  intros i. destruct (Hpl i) as [E | (p & id & d & Hin & ?)]; [by left |].
  right. exists p, id, d. apply find_elem in Hin as [Hid Hexp].
  unfold ContractService2.isExpiredAt in Hexp.
  apply andb_true_iff in Hexp as [Hact%isActive_true Hend%Z.ltb_lt].
  done.
Qed.

(** What the loop of the second listing writes. *)
Lemma expireAll_inr l n c s n' s' :
  ContractService2.expireAll l n c s = inr (n', s') ->
  n' = n + Z.of_nat (length l)
  ∧ players s' = players s ∧ clubs s' = clubs s ∧ transfers s' = transfers s
  ∧ ∀ k, contracts s' !! k
         = (if bool_decide (k ∈ l.*1) then Contract.set_status Expired
            else id) <$> contracts s !! k.
Proof.
  revert n s. induction l as [| [i d] l IH]; intros n s H; simpl in H.
  { apply mret_inr in H as [-> ->]. repeat split; try done; try (simpl; lia).
    intros k. simpl. by destruct (contracts s !! k). }
  run_inv H.
  match goal with
  | Hs : saveContract _ _ _ _ = inr _ |- _ =>
      apply saveContract_inr in Hs; destruct Hs as (d0 & Hd0 & ->)
  end.
  apply IH in H as (-> & -> & -> & -> & Hks).
  change (((i, d) :: l).*1) with (i :: l.*1).
  repeat split; try done; try (cbn [length]; lia).
  intros k. rewrite Hks. cbn [contracts set_contracts].
  destruct (decide (k = i)) as [-> | Hne].
  - rewrite lookup_insert_eq, Hd0.
    rewrite (bool_decide_eq_true_2 (i ∈ i :: l.*1)) by left.
    by destruct (bool_decide _).
  - rewrite lookup_insert_ne by done.
    destruct (decide (k ∈ l.*1)) as [Hin | Hnotin].
    + rewrite !bool_decide_eq_true_2; [done | by right | done].
    + rewrite !bool_decide_eq_false_2; [done | | done].
      by intros [? | ?]%elem_of_cons.
Qed.

(** X10.  The sweep of the second listing always commits; it counts the
    Active contracts that ended before the as-of date and gives the status
    Expired to exactly those, leaving every other contract, and every
    player (who stays registered with the club), club and transfer, as it
    was. *)
Theorem processExpiredContracts2_expires_exactly today db :
  ∃ db',
    ContractService2.processExpiredContracts today db
    = (db', inr (Z.of_nat (length (find (ContractService2.isExpiredAt today)
                                        (contracts db)))))
    ∧ players db' = players db ∧ clubs db' = clubs db
    ∧ transfers db' = transfers db
    ∧ contracts db'
      = (λ d, if ContractService2.isExpiredAt today d
              then Contract.set_status Expired d else d) <$> contracts db.
Proof.
  unfold ContractService2.processExpiredContracts, withTransaction.
  set (l := find (ContractService2.isExpiredAt today) (contracts db)).
  destruct (expireAll_spec l 0 db db) as (db' & Hrun & _).
  { intros id d [Hid _]%find_elem. eauto. }
  rewrite Hrun. exists db'.
  apply expireAll_inr in Hrun as (_ & Hpl & Hcl & Htr & Hks).
  split; [do 2 f_equal; lia |]. repeat split; try done.
  apply map_eq. intros k. rewrite Hks, lookup_fmap.
  destruct (contracts db !! k) as [d |] eqn:Hk; [| done]. simpl. f_equal.
  destruct (ContractService2.isExpiredAt today d) eqn:Hexp.
  - rewrite bool_decide_eq_true_2; [done |].
    apply list_elem_of_fmap. exists (k, d). split; [done |]. by apply find_elem.
  - rewrite bool_decide_eq_false_2; [done |].
    intros ([k' d'] & -> & [Hk' Hexp']%find_elem)%list_elem_of_fmap.
    simpl in *. congruence.
Qed.

(** ** Updating a contract *)

(** X11.  An update that succeeds finds the contract Active and returns the
    updated document; whatever the update data name, the player, the club
    and the status of the contract stay as they were; the dates, the salary
    and the clauses are those of the update data where it gives them, and a
    salary it gives is not negative.  Nothing else in the store changes,
    and no check on the dates or on the budget of the club is made. *)
Theorem updateContract_keeps_parties_and_status k ud db db' r :
  ContractService1.updateContract k ud db = (db', inr r) ->
  ∃ d c', r = Some c' ∧ contracts db !! k = Some d
    ∧ db' = set_contracts (<[k := c']> (contracts db)) db
    ∧ Contract.playerId c' = Contract.playerId d
    ∧ Contract.clubId c' = Contract.clubId d
    ∧ Contract.status d = Active ∧ Contract.status c' = Active
    ∧ Contract.startDate c' = default (Contract.startDate d) (ContractService1.ud_startDate ud)
    ∧ Contract.endDate c' = default (Contract.endDate d) (ContractService1.ud_endDate ud)
    ∧ Contract.salary c' = default (Contract.salary d) (ContractService1.ud_salary ud)
    ∧ Contract.clauses c' = default (Contract.clauses d) (ContractService1.ud_clauses ud)
    ∧ ∀ v, ContractService1.ud_salary ud = Some v -> 0 <= v.
Proof.
  unfold ContractService1.updateContract, ContractService1.findByIdAndUpdate.
  destruct (contracts db !! k) as [d |] eqn:Hk; [| done].
  destruct (isActive d) eqn:Hact; [| done]. simpl.
  destruct (truthyNegative (ContractService1.ud_salary ud)) eqn:Hneg; [done |].
  intros [= <- <-].
  apply bool_decide_eq_true in Hact.
  eexists d, _. repeat split; try done.
  intros v Hv. rewrite Hv in Hneg. simpl in Hneg. lia.
Qed.

Lemma updateContract_keeps_parties_and_status_witness :
  ∃ d c',
    contracts Sample.db1 !! 0%N = Some d
    ∧ Contract.playerId c' = Contract.playerId d
    ∧ Contract.status c' = Active
    ∧ Contract.endDate c' = Sample.jan2025
    ∧ getTime (Contract.endDate c') < getTime (Contract.startDate c').
Proof.
  destruct (updateContract_keeps_parties_and_status 0%N
              (ContractService1.mkUpdateData (Some Sample.veteran)
                 (Some Sample.clubB) (Some "Terminated") None
                 (Some Sample.jan2025) None None)
              Sample.db1
              (ContractService1.updateContract 0%N
                 (ContractService1.mkUpdateData (Some Sample.veteran)
                    (Some Sample.clubB) (Some "Terminated") None
                    (Some Sample.jan2025) None None)
                 Sample.db1).1
              (Some (Contract.mk Sample.playerX Sample.clubA Sample.jul2025
                       Sample.jan2025 100000 ∅ Active)))
    as (d & c' & Hr & Hk & _ & Hp & _ & _ & Hst & Hsd & Hed & _);
    [vm_compute; reflexivity |].
  exists d, c'. injection Hr as <-.
  split; [exact Hk |]. split; [exact Hp |]. split; [exact Hst |].
  split; [exact Hed |]. vm_compute. reflexivity.
Defined.

(** ** Frames: what an operation leaves alone *)

Lemma frames_bind {A B C} (field : Store -> C) (m : Session A)
    (k : A -> Session B) :
  frames field m -> (∀ a, frames field (k a)) -> frames field (m ≫= k).
Proof.
  intros Hm Hk c s b s' (a & s1 & H1 & H2)%bind_inr.
  rewrite (Hk _ _ _ _ _ H2), (Hm _ _ _ _ H1). done.
Qed.

Lemma frames_throw {A C} (field : Store -> C) e : frames field (throw e : Session A).
Proof. done. Qed.

Lemma frames_withTransaction {A C} (field : Store -> C) (m : Session A) db :
  frames field m -> field (withTransaction m db).1 = field db.
Proof.
  intros Hm. unfold withTransaction.
  destruct (m db db) as [e | [a s']] eqn:E; simpl; [done |]. by eapply Hm.
Qed.

(** A primitive of the store that does not write the part in question. *)
Ltac frame_prim :=
  let H := fresh "H" in
  intros ? ? ? ? H;
  first
    [ apply inSession_inr in H as [_ ->]; reflexivity
    | apply noSession_inr in H as [_ ->]; reflexivity
    | apply savePlayer_inr in H as (? & _ & _ & ->); reflexivity
    | apply saveMarketValue_inr in H as (? & _ & ->); reflexivity
    | apply saveContract_inr in H as (? & _ & ->); reflexivity
    | apply saveTransfer_inr in H as (? & _ & ->); reflexivity
    | apply saveBudget_inr in H as (_ & ? & _ & ->); reflexivity
    | apply saveClub_inr in H as (? & _ & ->); reflexivity
    | apply mret_inr in H as [_ ->]; reflexivity ].

Ltac frames_auto :=
  repeat first
    [ apply frames_throw
    | apply frames_bind; [| intros ?]
    | match goal with
      | |- frames _ (match ?x with _ => _ end) => destruct x
      | |- frames _ (match ?x with _ => _ end _) => destruct x
      | |- frames _ (let _ := _ in _) => simpl
      end
    | solve [frame_prim] ].

Lemma frames_transfers_insertContract cd : frames transfers (insertContract cd).
Proof. intros c s [id doc] s' (_ & -> & _)%insertContract_inr. done. Qed.

Lemma frames_transfers_validateContract cd :
  frames transfers (ContractService2.validateContract cd).
Proof. unfold ContractService2.validateContract. frames_auto. Qed.

Lemma frames_transfers_createContractIn now cd :
  frames transfers (ContractService2.createContractIn now cd).
Proof.
  unfold ContractService2.createContractIn.
  apply frames_bind; [apply frames_transfers_validateContract |].
  intros _.
  apply frames_bind; [apply frames_transfers_insertContract |]. intros ?.
  frames_auto.
Qed.

Lemma frames_transfers_terminateContractIn now k td :
  frames transfers (ContractService2.terminateContractIn now k td).
Proof. unfold ContractService2.terminateContractIn. frames_auto. Qed.

Lemma frames_transfers_terminateContractIn1 now k td :
  frames transfers (ContractService1.terminateContractIn now k td).
Proof. unfold ContractService1.terminateContractIn. frames_auto. Qed.

Lemma frames_transfers_renewContractIn now k rd :
  frames transfers (ContractService2.renewContractIn now k rd).
Proof.
  unfold ContractService2.renewContractIn.
  apply frames_bind; [frames_auto |]. intros [old |]; [| done].
  destruct (negb _); [done |].
  apply frames_bind; [apply frames_transfers_terminateContractIn |]. intros _.
  apply frames_bind; [apply frames_transfers_createContractIn |]. intros ?.
  unfold ContractService2.updatePlayerValueOnRenewal. frames_auto.
Qed.

Lemma frames_transfers_release i v : frames transfers (BudgetLedger.release i v).
Proof. unfold BudgetLedger.release. frames_auto. Qed.

Lemma frames_transfers_reserve i v : frames transfers (BudgetLedger.reserve i v).
Proof. unfold BudgetLedger.reserve. frames_auto. Qed.

Lemma frames_transfers_settle i j v : frames transfers (BudgetLedger.settle i j v).
Proof. unfold BudgetLedger.settle. frames_auto. Qed.

Lemma frames_transfers_validateTransfer td :
  frames transfers (TransferCommon.validateTransfer td).
Proof.
  unfold TransferCommon.validateTransfer, TransferCommon.validateClubBudgets,
    TransferCommon.validateContractStatus,
    TransferCommon.validateSquadRegistration.
  frames_auto.
Qed.

Ltac frames_transfers :=
  repeat first
    [ apply frames_transfers_terminateContractIn
    | apply frames_transfers_createContractIn
    | apply frames_transfers_validateContract
    | apply frames_transfers_insertContract
    | apply frames_transfers_settle
    | apply frames_transfers_release
    | apply frames_transfers_reserve
    | apply frames_transfers_validateTransfer
    | progress frames_auto
    | progress unfold TransferCommon.terminateOldContract,
        TransferCommon.createNewContract, TransferService1.updatePlayerValue,
        TransferService2.updatePlayerValue, TransferService2.releaseClubBudgets,
        TransferService2.reserveClubBudgets ].

(** Turns every step of an inverted run, except the write of the
    transfer, into the fact that it leaves the transfers alone. *)
Ltac transfers_steps :=
  repeat match goal with
  | Hs : saveTransfer _ _ _ ?s1 = inr (_, ?s2) |- _ =>
      let d := fresh "d" in
      let Hd := fresh "Hd" in
      let Hw := fresh "Hw" in
      apply saveTransfer_inr in Hs as (d & Hd & Hw);
      assert (transfers s2 = <[_ := _]> (transfers s1)) by (by rewrite Hw);
      clear Hw
  | Hm : ?m _ ?s1 = inr (_, ?s2) |- _ =>
      assert (transfers s2 = transfers s1)
        by (let K := fresh in
            assert (frames transfers m) as K by frames_transfers;
            exact (K _ _ _ _ Hm));
      clear Hm
  end.

Ltac transfers_chain :=
  repeat match goal with
  | E : transfers ?s2 = transfers _ |- _ => rewrite E in *; clear E
  end.

Lemma sameDeal_refl t : sameDeal t t.
Proof. by repeat split. Qed.

Lemma sameDeal_trans t1 t2 t3 : sameDeal t1 t2 -> sameDeal t2 t3 -> sameDeal t1 t3.
Proof.
  unfold sameDeal. intros (? & ? & ? & ? & ? & ? & ? & ?) (? & ? & ? & ? & ? & ? & ? & ?).
  repeat split; congruence.
Qed.

(** What a completion writes into the transfers (first listing). *)
Lemma completeTransferIn_transfers now id cd c s t' s' :
  TransferService1.completeTransferIn now id cd c s = inr (t', s') ->
  ∃ t, transfers s !! id = Some t ∧ Transfer.status t = Pending
    ∧ transfers s' = <[id := t']> (transfers s)
    ∧ Transfer.status t' = Completed ∧ sameDeal t t'
    ∧ Transfer.additionalTerms t' = Transfer.additionalTerms t.
Proof.
  intros H. unfold TransferService1.completeTransferIn in H. run_inv H.
  destruct (transfers s !! id) as [t |] eqn:Ht; [| done].
  destruct (bool_decide (Transfer.status t = Pending)) eqn:Hst; [| done].
  apply bool_decide_eq_true in Hst. simpl in H. run_inv H.
  destruct (players s !! _) as [player |]; [| done].
  destruct (clubs s !! Transfer.fromClub t) as [fromClub |]; [| done].
  destruct (clubs s !! Transfer.toClub t) as [toClub |]; [| done].
  run_inv H. transfers_steps. transfers_chain.
  rewrite Ht in Hd. injection Hd as <-. exists t.
  match goal with
  | |- context [match ?x with Some _ => _ | None => _ end] => destruct x
  end; by repeat split.
Qed.

(** What a completion writes into the transfers (second listing). *)
Lemma completeTransferIn2_transfers now id c s t' s' :
  TransferService2.completeTransferIn now id c s = inr (t', s') ->
  ∃ t, transfers s !! id = Some t ∧ Transfer.status t = Pending
    ∧ transfers s' = <[id := t']> (transfers s)
    ∧ Transfer.status t' = Completed ∧ sameDeal t t'
    ∧ Transfer.additionalTerms t' = Transfer.additionalTerms t.
Proof.
  intros H. unfold TransferService2.completeTransferIn in H. run_inv H.
  destruct (transfers s !! id) as [t |] eqn:Ht; [| done].
  destruct (bool_decide (Transfer.status t = Pending)) eqn:Hst; [| done].
  apply bool_decide_eq_true in Hst. simpl in H. run_inv H.
  destruct (players s !! _) as [player |]; [| done].
  destruct (clubs s !! Transfer.fromClub t) as [fromClub |]; [| done].
  destruct (clubs s !! Transfer.toClub t) as [toClub |]; [| done].
  run_inv H. transfers_steps. transfers_chain.
  rewrite Ht in Hd. injection Hd as <-. exists t. by repeat split.
Qed.

(** What a cancellation writes into the transfers (either listing). *)
Lemma cancelTransferIn_transfers id why c s t' s' :
  TransferService1.cancelTransferIn id why c s = inr (t', s')
  ∨ TransferService2.cancelTransferIn id why c s = inr (t', s') ->
  ∃ t, transfers s !! id = Some t ∧ Transfer.status t = Pending
    ∧ transfers s' = <[id := t']> (transfers s)
    ∧ Transfer.status t' = Cancelled ∧ sameDeal t t'
    ∧ Transfer.additionalTerms t'
      = <["cancellationReason" := MString why]> (Transfer.additionalTerms t)
    ∧ Transfer.contractDetails t' = Transfer.contractDetails t
    ∧ players s' = players s ∧ contracts s' = contracts s.
Proof.
  intros [H | H];
    [unfold TransferService1.cancelTransferIn in H
    |unfold TransferService2.cancelTransferIn in H];
    run_inv H;
    (destruct (transfers s !! id) as [t |] eqn:Ht; [| done]);
    (destruct (bool_decide (Transfer.status t = Pending)) eqn:Hst; [| done]);
    apply bool_decide_eq_true in Hst; simpl in H; run_inv H;
    match goal with
    | Hr : _ _ s = inr (_, ?s1) |- _ =>
        assert (players s1 = players s ∧ contracts s1 = contracts s
                ∧ transfers s1 = transfers s) as (Hp & Hc & Htr)
    end.
  1,3: unfold TransferService2.releaseClubBudgets, BudgetLedger.release in *;
    run_inv H0; destruct (clubs s !! _); [| done];
    apply saveBudget_inr in H0 as (_ & ? & _ & ->); done.
  all: apply saveTransfer_inr in H1 as (d & Hd & ->); simpl;
    rewrite Htr in Hd; rewrite Ht in Hd; injection Hd as <-;
    exists t; rewrite Hp, Hc, Htr; by repeat split.
Qed.

Lemma dealEvent_keeps m m' k t :
  dealEvent m m' -> m !! k = Some t ->
  ∃ t', m' !! k = Some t' ∧ sameDeal t t'
        ∧ (Transfer.status t ≠ Pending -> t' = t).
Proof.
  intros [j e e' Hj Hpending Hsettled Hdeal | j e Hj] Hk.
  - destruct (decide (j = k)) as [-> | Hne].
    + rewrite Hk in Hj. injection Hj as <-. exists e'.
      rewrite lookup_insert_eq. split; [done |]. split; [done |]. congruence.
    + exists t. rewrite lookup_insert_ne by done.
      split; [done |]. split; [apply sameDeal_refl | done].
  - destruct (decide (j = k)) as [-> | Hne]; [congruence |].
    exists t. rewrite lookup_insert_ne by done.
    split; [done |]. split; [apply sameDeal_refl | done].
Qed.

Lemma dealEvents_keep m m' :
  rtc dealEvent m m' -> ∀ k t, m !! k = Some t ->
  ∃ t', m' !! k = Some t' ∧ sameDeal t t'
        ∧ (Transfer.status t ≠ Pending -> t' = t).
Proof.
  induction 1 as [m | m1 m2 m3 Hstep _ IH]; intros k t Hk.
  - exists t. split; [done |]. split; [apply sameDeal_refl | done].
  - destruct (dealEvent_keeps _ _ _ _ Hstep Hk) as (t2 & Hk2 & Ht2 & Hfix2).
    destruct (IH k t2 Hk2) as (t3 & Hk3 & Ht3 & Hfix3).
    exists t3. split; [done |]. split; [by eapply sameDeal_trans |].
    intros Hsettled. rewrite <- (Hfix2 Hsettled).
    apply Hfix3. by rewrite (Hfix2 Hsettled).
Qed.

(** A transaction whose body settles one Pending transfer. *)
Lemma withTransaction_settles {A} (m : Session A) db :
  (∀ c s a s', m c s = inr (a, s') ->
     ∃ k t t', transfers s !! k = Some t ∧ Transfer.status t = Pending
       ∧ transfers s' = <[k := t']> (transfers s)
       ∧ Transfer.status t' ≠ Pending ∧ sameDeal t t') ->
  rtc dealEvent (transfers db) (transfers (withTransaction m db).1).
Proof.
  intros Hm. unfold withTransaction.
  destruct (m db db) as [e | [a s']] eqn:E; simpl; [done |].
  destruct (Hm _ _ _ _ E) as (k & t & t' & Hk & Hp & -> & Hs & Hd).
  apply rtc_once. by eapply de_settle.
Qed.

Lemma frames_rtc {C} (R : relation C) (x y : C) : y = x -> rtc R x y.
Proof. by intros ->. Qed.

Lemma engineStep_transfers db db' :
  engineStep db db' -> rtc dealEvent (transfers db) (transfers db').
Proof.
  destruct 1.
  - apply frames_rtc, frames_withTransaction, frames_transfers_createContractIn.
  - apply frames_rtc, frames_withTransaction, frames_transfers_renewContractIn.
  - apply frames_rtc, frames_withTransaction, frames_transfers_terminateContractIn.
  - apply frames_rtc, frames_withTransaction,
      frames_transfers_terminateContractIn1.
  - apply withTransaction_settles. intros c s t' s' Hrun.
    apply completeTransferIn_transfers in Hrun
      as (t & Hk & Hp & Htr & Hst & Hdeal & _).
    exists transferId, t, t'. split; [done |]. split; [done |]. split; [done |].
    split; [congruence | done].
  - apply withTransaction_settles. intros c s t' s' Hrun.
    apply completeTransferIn2_transfers in Hrun
      as (t & Hk & Hp & Htr & Hst & Hdeal & _).
    exists transferId, t, t'. split; [done |]. split; [done |]. split; [done |].
    split; [congruence | done].
  - apply frames_rtc.
    unfold ContractService2.processExpiredContracts, withTransaction.
    destruct (ContractService2.expireAll _ 0 db db) as [e | [n s']] eqn:Hrun;
      simpl; [done |].
    by apply expireAll_inr in Hrun as (_ & _ & _ & Htr & _).
  - apply frames_rtc.
    by destruct (sweep_players today
                   (find (ContractService2.isExpiredAt today) (contracts db))
                   0 db) as (_ & Htr & _).
Qed.

Lemma marketStep_transfers db db' :
  marketStep db db' -> rtc dealEvent (transfers db) (transfers db').
Proof.
  destruct 1 as [db' Hstep | k ud | now td | now td | k why | k why | now body].
  - by apply engineStep_transfers.
  - apply frames_rtc. unfold ContractService1.updateContract,
      ContractService1.findByIdAndUpdate.
    repeat case_match; done.
  - destruct (TransferService1.initiateTransfer now td db)
      as [db' [e | [id t]]] eqn:Hrun; simpl.
    + by apply withTransaction_inl in Hrun as ->.
    + destruct (initiateTransfer_inr now td db db' id t (or_introl Hrun))
        as (_ & _ & _ & _ & _ & -> & _ & _ & -> & _).
      apply rtc_once, de_open, newId_fresh.
  - destruct (TransferService2.initiateTransfer now td db)
      as [db' [e | [id t]]] eqn:Hrun; simpl.
    + by apply withTransaction_inl in Hrun as ->.
    + destruct (initiateTransfer_inr now td db db' id t (or_intror Hrun))
        as (_ & _ & _ & _ & _ & -> & _ & _ & -> & _).
      apply rtc_once, de_open, newId_fresh.
  - apply withTransaction_settles. intros c s t' s' Hrun.
    destruct (cancelTransferIn_transfers k why c s t' s' (or_introl Hrun))
      as (t & Hk & Hp & Htr & Hst & Hdeal & _).
    exists k, t, t'. split; [done |]. split; [done |]. split; [done |].
    split; [congruence | done].
  - apply withTransaction_settles. intros c s t' s' Hrun.
    destruct (cancelTransferIn_transfers k why c s t' s' (or_intror Hrun))
      as (t & Hk & Hp & Htr & Hst & Hdeal & _).
    exists k, t, t'. split; [done |]. split; [done |]. split; [done |].
    split; [congruence | done].
  - unfold createTransfer, withTransaction.
    destruct (insertTransfer now body db db) as [e | [[id t] s']] eqn:Hrun;
      simpl; [done |].
    apply insertTransfer_inr in Hrun as (_ & -> & ->). simpl.
    apply rtc_once, de_open, newId_fresh.
Qed.

(** X12.  Across any sequence of operations of the contract service, the
    transfer service (initiate, complete, cancel; either listing) and the
    transfer controller's create, no transfer is ever deleted, the player,
    clubs, fee, date, type, window and sell-on clause of a transfer never
    change, and a transfer that is no longer Pending is never changed
    again. *)
Theorem transfers_are_never_rewritten db db' k t :
  rtc marketStep db db' -> transfers db !! k = Some t ->
  ∃ t', transfers db' !! k = Some t'
        ∧ sameDeal t t'
        ∧ (Transfer.status t ≠ Pending -> t' = t).
Proof.
  intros Hreach. eapply dealEvents_keep. clear k t.
  induction Hreach as [| db1 db2 db3 Hstep _ IH]; [done |].
  etrans; [by apply marketStep_transfers | done].
Qed.

Lemma transfers_are_never_rewritten_witness :
  ∃ t',
    transfers
      (TransferService1.cancelTransfer 0%N "late"
         (TransferService1.completeTransfer Sample.jul2025 0%N None
            (TransferService1.initiateTransfer Sample.jul2025 Sample.sale
               Sample.db1).1).1).1 !! 0%N = Some t'
    ∧ Transfer.status t' = Completed.
Proof.
  destruct (transfers_are_never_rewritten
              (TransferService1.completeTransfer Sample.jul2025 0%N None
                 (TransferService1.initiateTransfer Sample.jul2025 Sample.sale
                    Sample.db1).1).1
              (TransferService1.cancelTransfer 0%N "late"
                 (TransferService1.completeTransfer Sample.jul2025 0%N None
                    (TransferService1.initiateTransfer Sample.jul2025
                       Sample.sale Sample.db1).1).1).1
              0%N
              (Transfer.mk Sample.playerX Sample.clubA Sample.clubB 7000000
                 Sample.jul2025 None Permanent Completed Summer
                 (mkSellOn 0 false) ∅))
    as (t' & Ht' & _ & Hfix).
  - eapply rtc_l; [apply ms_cancelTransfer1 | apply rtc_refl].
  - vm_compute. reflexivity.
  - exists t'. split; [exact Ht' |]. rewrite Hfix; [reflexivity |].
    simpl. discriminate.
Defined.

Ltac refuse k Hk Hst :=
  eexists;
  unfold TransferService1.completeTransfer, TransferService2.completeTransfer,
    TransferService1.cancelTransfer, TransferService2.cancelTransfer,
    withTransaction, TransferService1.completeTransferIn,
    TransferService2.completeTransferIn, TransferService1.cancelTransferIn,
    TransferService2.cancelTransferIn, mbind, Session_bind, inSession;
  rewrite Hk, Hst; simpl; split; reflexivity.

(** X13.  A transfer that is Completed, Cancelled or Failed refuses both
    completion and cancellation (either listing): the call fails with a
    validation error (400) and leaves the store as it was; no budget is
    released or credited a second time. *)
Theorem settled_transfer_refuses_operations now k t db :
  transfers db !! k = Some t -> Transfer.status t ≠ Pending ->
  (∀ cd, ∃ e, TransferService1.completeTransfer now k cd db = (db, inl e)
              ∧ isValidationError e)
  ∧ (∃ e, TransferService2.completeTransfer now k db = (db, inl e)
          ∧ isValidationError e)
  ∧ (∀ why, ∃ e, TransferService1.cancelTransfer k why db = (db, inl e)
                 ∧ isValidationError e)
  ∧ (∀ why, ∃ e, TransferService2.cancelTransfer k why db = (db, inl e)
                 ∧ isValidationError e).
Proof.
  intros Hk Hst.
  assert (bool_decide (Transfer.status t = Pending) = false) as Hb
    by by apply bool_decide_eq_false.
  split; [intros cd; refuse k Hk Hb |].
  split; [refuse k Hk Hb |].
  split; intros why; refuse k Hk Hb.
Qed.

Lemma settled_transfer_refuses_operations_witness :
  ∃ e,
    TransferService1.cancelTransfer 0%N "late"
      (TransferService1.completeTransfer Sample.jul2025 0%N None
         (TransferService1.initiateTransfer Sample.jul2025 Sample.sale
            Sample.db1).1).1
    = ((TransferService1.completeTransfer Sample.jul2025 0%N None
          (TransferService1.initiateTransfer Sample.jul2025 Sample.sale
             Sample.db1).1).1, inl e)
    ∧ isValidationError e.
Proof.
  destruct (settled_transfer_refuses_operations Sample.jul2025 0%N
              (Transfer.mk Sample.playerX Sample.clubA Sample.clubB 7000000
                 Sample.jul2025 None Permanent Completed Summer
                 (mkSellOn 0 false) ∅)
              (TransferService1.completeTransfer Sample.jul2025 0%N None
                 (TransferService1.initiateTransfer Sample.jul2025 Sample.sale
                    Sample.db1).1).1)
    as (_ & _ & Hcancel & _);
    [vm_compute; reflexivity | simpl; discriminate |].
  apply Hcancel.
Defined.

(** X14.  A cancellation that succeeds (either listing) finds the transfer
    Pending and stores it as Cancelled with the reason recorded under
    cancellationReason among its additional terms; the deal and the other
    terms of the transfer, and all players and contracts, stay as they
    were. *)
Theorem cancelTransfer_records_reason k why db db' t' :
  TransferService1.cancelTransfer k why db = (db', inr t')
  ∨ TransferService2.cancelTransfer k why db = (db', inr t') ->
  ∃ t, transfers db !! k = Some t ∧ Transfer.status t = Pending
    ∧ transfers db' = <[k := t']> (transfers db)
    ∧ Transfer.status t' = Cancelled ∧ sameDeal t t'
    ∧ Transfer.additionalTerms t'
      = <["cancellationReason" := MString why]> (Transfer.additionalTerms t)
    ∧ Transfer.contractDetails t' = Transfer.contractDetails t
    ∧ players db' = players db ∧ contracts db' = contracts db.
Proof.
  intros [H | H]; apply withTransaction_inr in H;
    apply (cancelTransferIn_transfers k why db db t' db'); auto.
Qed.

Lemma cancelTransfer_records_reason_witness :
  ∃ t, transfers (TransferService1.initiateTransfer Sample.jul2025 Sample.sale
                    Sample.db1).1 !! 0%N = Some t
       ∧ Transfer.status t = Pending.
Proof.
  destruct (cancelTransfer_records_reason 0%N "late"
              (TransferService1.initiateTransfer Sample.jul2025 Sample.sale
                 Sample.db1).1
              (TransferService1.cancelTransfer 0%N "late"
                 (TransferService1.initiateTransfer Sample.jul2025 Sample.sale
                    Sample.db1).1).1
              (Transfer.mk Sample.playerX Sample.clubA Sample.clubB 7000000
                 Sample.jul2025 None Permanent Cancelled Summer
                 (mkSellOn 0 false) {["cancellationReason" := MString "late"]}))
    as (t & Ht & Hst & _); [left; vm_compute; reflexivity |].
  exists t. split; [exact Ht | exact Hst].
Defined.

(** ** Reading the change log *)

Lemma slice_newest {A} (n : Z) (l : list A) :
  0 < n -> CDC.slice (- n) l = drop (length l - Z.to_nat n) l.
Proof.
  intros Hn. unfold CDC.slice.
  rewrite (proj2 (Z.ltb_lt _ _)) by lia. f_equal. lia.
Qed.

Lemma slice_from {A} (n : Z) (l : list A) :
  0 <= n -> CDC.slice n l = drop (Z.to_nat n) l.
Proof.
  intros Hn. unfold CDC.slice.
  rewrite (proj2 (Z.ltb_ge _ _)) by lia.
  destruct (decide (n <= Z.of_nat (length l))) as [Hle | Hgt].
  - f_equal. lia.
  - rewrite !drop_ge by lia. done.
Qed.

Lemma slice_suffix {A} (n : Z) (l : list A) : CDC.slice n l `suffix_of` l.
Proof. unfold CDC.slice. apply suffix_drop. Qed.

(** X15.  getAllChanges returns an end of the change log, oldest first: for
    a positive limit the newest changes, as many as the limit or the whole
    log if it is shorter (100 by default); for the limit 0 the whole log;
    and for a negative limit -k the log without its k oldest entries. *)
Theorem getAllChanges_returns_newest limit cdc :
  let n := default 100 limit in
  let r := CDC.getAllChanges limit cdc in
  r `suffix_of` CDC.changeLog cdc
  ∧ (0 < n ->
       Z.of_nat (length r) = Z.min n (Z.of_nat (length (CDC.changeLog cdc))))
  ∧ (n = 0 -> r = CDC.changeLog cdc)
  ∧ (n < 0 -> r = drop (Z.to_nat (- n)) (CDC.changeLog cdc)).
Proof.
  simpl. unfold CDC.getAllChanges. split; [apply slice_suffix |].
  split; [| split].
  - intros Hn. rewrite slice_newest, length_drop by done. lia.
  - intros ->. by rewrite slice_from.
  - intros Hn. by rewrite slice_from by lia.
Qed.

Lemma getAllChanges_returns_newest_witness :
  CDC.getAllChanges (Some 0)
    (logged true [SampleCDC.inserted; SampleCDC.updated])
  = [SampleCDC.inserted; SampleCDC.updated]
  ∧ Z.of_nat (length (CDC.getAllChanges (Some 1)
                        (logged true [SampleCDC.inserted; SampleCDC.updated])))
    = 1.
Proof.
  destruct (getAllChanges_returns_newest (Some 0)
              (logged true [SampleCDC.inserted; SampleCDC.updated]))
    as (_ & _ & Hzero & _).
  destruct (getAllChanges_returns_newest (Some 1)
              (logged true [SampleCDC.inserted; SampleCDC.updated]))
    as (_ & Hone & _).
  split.
  - rewrite Hzero; [vm_compute; reflexivity | reflexivity].
  - rewrite Hone; [vm_compute; reflexivity | simpl; lia].
Defined.

Lemma List_filter_sublist {A} (f : A -> bool) (l : list A) :
  List.filter f l `sublist_of` l.
Proof.
  induction l as [| x l IH]; simpl; [done |].
  destruct (f x); by constructor.
Qed.

(** X16.  getChangesForModel returns changes of the change log in their
    order, every one of them stamped with the model asked for, and for a
    positive limit (10 by default) as many of them as the limit, or all
    the changes of that model in the log if they are fewer. *)
Theorem getChangesForModel_returns_only_that_model modelName limit cdc :
  let n := default 10 limit in
  let r := CDC.getChangesForModel modelName limit cdc in
  r `sublist_of` CDC.changeLog cdc
  ∧ (∀ change, change ∈ r -> CDC.cdcModelName change = Some modelName)
  ∧ (0 < n ->
       Z.of_nat (length r)
       = Z.min n
           (Z.of_nat
              (length (List.filter
                         (λ change,
                            bool_decide (CDC.cdcModelName change = Some modelName))
                         (CDC.changeLog cdc))))).
Proof.
  simpl. unfold CDC.getChangesForModel.
  set (matching := List.filter _ (CDC.changeLog cdc)).
  split; [| split].
  - etrans; [apply sublist_drop |]. apply List_filter_sublist.
  - intros change Hin.
    assert (change ∈ matching) as Hm.
    { destruct (slice_suffix (- default 10 limit) matching) as [k Hk].
      rewrite Hk. apply elem_of_app. by right. }
    apply list_elem_of_In, filter_In in Hm as [_ Hm].
    by apply bool_decide_eq_true in Hm.
  - intros Hn. rewrite slice_newest, length_drop by done. lia.
Qed.

Lemma getChangesForModel_returns_only_that_model_witness :
  Z.of_nat
    (length (CDC.getChangesForModel "Player" (Some 5)
               (CDC.handleChange Sample.jul2025 "Club" SampleCDC.updated
                  (CDC.handleChange Sample.jul2025 "Player" SampleCDC.inserted
                     (CDC.constructor true))))) = 1.
Proof.
  destruct (getChangesForModel_returns_only_that_model "Player" (Some 5)
              (CDC.handleChange Sample.jul2025 "Club" SampleCDC.updated
                 (CDC.handleChange Sample.jul2025 "Player" SampleCDC.inserted
                    (CDC.constructor true))))
    as (_ & _ & Hlen).
  rewrite Hlen; [vm_compute; reflexivity | simpl; lia].
Defined.

Lemma logChange_last change cdc :
  (1 <= CDC.maxChangeLogSize cdc)%nat ->
  ∃ older, CDC.changeLog (CDC.logChange change cdc) = older ++ [change].
Proof.
  unfold CDC.logChange. intros Hmax.
  destruct (_ <? _)%nat eqn:Hfull; simpl; [| by eexists].
  destruct (CDC.changeLog cdc) as [| oldest rest]; simpl.
  - apply Nat.ltb_lt in Hfull. simpl in Hfull. lia.
  - by eexists.
Qed.

(** X17.  A change handled by the bus can be read back at once: if the log
    keeps at least one entry, then right after handleChange the newest
    entry returned by getAllChanges, and by getChangesForModel for the
    model of the change, is that change stamped with the capture time and
    the model name. *)
Theorem handleChange_then_read_back now modelName change cdc :
  (1 <= CDC.maxChangeLogSize cdc)%nat ->
  let cdc' := CDC.handleChange now modelName change cdc in
  CDC.getAllChanges (Some 1) cdc' = [CDC.stamp now modelName change]
  ∧ CDC.getChangesForModel modelName (Some 1) cdc'
    = [CDC.stamp now modelName change].
Proof.
  intros Hmax. simpl.
  unfold CDC.getAllChanges, CDC.getChangesForModel.
  rewrite handleChange_changeLog.
  destruct (logChange_last (CDC.stamp now modelName change) cdc Hmax)
    as [older ->].
  assert (∀ l : list CDC.Change,
            CDC.slice (Z.opp 1) (l ++ [CDC.stamp now modelName change])
            = [CDC.stamp now modelName change]) as Hlast.
  { intros l. rewrite (slice_newest 1 (l ++ _)) by lia. rewrite length_app.
    replace (length l + length [CDC.stamp now modelName change] - Z.to_nat 1)%nat
      with (length l) by (simpl; lia).
    by rewrite drop_app_length. }
  split; [apply Hlast |].
  rewrite List.filter_app. simpl.
  rewrite bool_decide_eq_true_2 by done. apply Hlast.
Qed.

Lemma handleChange_then_read_back_witness :
  CDC.getAllChanges (Some 1)
    (CDC.handleChange Sample.jul2025 "Player" SampleCDC.inserted
       (CDC.constructor true))
  = [CDC.stamp Sample.jul2025 "Player" SampleCDC.inserted].
Proof.
  apply (handleChange_then_read_back Sample.jul2025 "Player" SampleCDC.inserted
           (CDC.constructor true)).
  simpl. lia.
Defined.

(** X18.  resolveConflict returns one of its two arguments; between two
    stamped changes it returns one with the later capture time, and when
    the capture times are equal, or when one of the changes carries no
    capture time, it returns the second argument, so that the outcome of a
    tie depends on the order of the arguments. *)
Theorem resolveConflict_later_wins change1 change2 :
  let r := CDC.resolveConflict change1 change2 in
  (r = change1 ∨ r = change2)
  ∧ (∀ t1 t2, CDC.cdcTimestamp change1 = Some t1 ->
               CDC.cdcTimestamp change2 = Some t2 ->
               ∃ t, CDC.cdcTimestamp r = Some t
                    ∧ getTime t = Z.max (getTime t1) (getTime t2)
                    ∧ (getTime t1 <= getTime t2 -> r = change2))
  ∧ (CDC.cdcTimestamp change1 = None ∨ CDC.cdcTimestamp change2 = None ->
     r = change2).
Proof.
  simpl. unfold CDC.resolveConflict. split; [| split].
  - repeat case_match; auto.
  - intros t1 t2 H1 H2. rewrite H1, H2.
    destruct (getTime t2 <? getTime t1) eqn:Hlt.
    + apply Z.ltb_lt in Hlt. exists t1. split; [done |]. split; lia.
    + apply Z.ltb_ge in Hlt. exists t2. split; [done |]. split; [lia | done].
  - intros [-> | ->]; [done |]. by destruct (CDC.cdcTimestamp change1).
Qed.

Lemma resolveConflict_later_wins_witness :
  CDC.resolveConflict
    (CDC.stamp Sample.jul2025 "Player" SampleCDC.inserted)
    (CDC.stamp Sample.jul2025 "Player" SampleCDC.updated)
  = CDC.stamp Sample.jul2025 "Player" SampleCDC.updated.
Proof.
  destruct (resolveConflict_later_wins
              (CDC.stamp Sample.jul2025 "Player" SampleCDC.inserted)
              (CDC.stamp Sample.jul2025 "Player" SampleCDC.updated))
    as (_ & Hlater & _).
  destruct (Hlater Sample.jul2025 Sample.jul2025) as (t & _ & _ & Htie);
    [reflexivity | reflexivity |].
  apply Htie. simpl. lia.
Defined.

(** X19.  triggerChange does nothing on a bus that is not enabled.  On an
    enabled bus it handles a change marked as manually triggered that
    carries the document, its id and the capture time: the change becomes
    the newest entry of the log (if the log keeps at least one entry) and
    its events are published as for a change of the feed. *)
Theorem triggerChange_only_when_enabled now modelName op id document cdc :
  let manual :=
    CDC.mkChange op id 0 (Some document) (Some now) (Some modelName) true in
  let cdc' := CDC.triggerChange now modelName op id document cdc in
  (CDC.isEnabled cdc = false -> cdc' = cdc)
  ∧ (CDC.isEnabled cdc = true ->
     CDC.emitted cdc' = CDC.emitted cdc ++ published now modelName manual
     ∧ ((1 <= CDC.maxChangeLogSize cdc)%nat ->
        CDC.getAllChanges (Some 1) cdc' = [manual])).
Proof.
  simpl. unfold CDC.triggerChange. split; intros ->; simpl; [done |].
  split; [apply handleChange_emitted |].
  intros Hmax.
  unfold CDC.getAllChanges. rewrite handleChange_changeLog.
  match goal with
  | |- context [CDC.logChange ?x cdc] =>
      destruct (logChange_last x cdc Hmax) as [older ->]
  end.
  rewrite (slice_newest 1 (older ++ _)) by lia. rewrite length_app.
  match goal with
  | |- drop ?n _ = _ => replace n with (length older) by (simpl; lia)
  end.
  by rewrite drop_app_length.
Qed.

Lemma triggerChange_only_when_enabled_witness :
  CDC.triggerChange Sample.jul2025 "Player" "insert" Sample.playerX
    (CDC.PlayerDoc (Player.mk Sample.jan2000 None 0)) (CDC.constructor false)
  = CDC.constructor false.
Proof.
  destruct (triggerChange_only_when_enabled Sample.jul2025 "Player" "insert"
              Sample.playerX (CDC.PlayerDoc (Player.mk Sample.jan2000 None 0))
              (CDC.constructor false)) as [Hoff _].
  apply Hoff. reflexivity.
Defined.

(** X20.  After any sequence of logged changes, from a fresh instance, the
    change log is that sequence without all but its 1000 newest changes, in
    arrival order. *)
Theorem changeLog_keeps_newest_1000 enabled changes :
  CDC.changeLog (logged enabled changes) = drop (length changes - 1000) changes.
Proof.
  pose proof (logChanges_changeLog (CDC.constructor enabled) changes) as H.
  simpl in H. destruct H as [_ H]; [done | lia |]. exact H.
Qed.

(** ** What the transfer service and the schema accept *)

Lemma newTransfer_valid now data t :
  newTransfer now data = Some t ->
  0 <= Transfer.transferFee t
  ∧ 0 <= percentage (Transfer.sellOnClause t) <= 100
  ∧ Transfer.date t = default now (td_date data)
  ∧ Transfer.contractDetails t = td_contractDetails data
  ∧ Transfer.additionalTerms t = default ∅ (td_additionalTerms data)
  ∧ (Transfer.transferType t = Loan ->
     ∃ n, td_loanDuration data = Some n ∧ 1 <= n).
Proof.
  unfold newTransfer. intros H.
  destruct (td_playerId data); [| done].
  destruct (td_fromClub data); [| done].
  destruct (td_toClub data); [| done].
  destruct (td_transferFee data) as [fee |]; [| done].
  simpl in H.
  destruct (castOr castTransferType Permanent _) as [type |]; [| done].
  destruct (castOr castTransferStatus Completed _); [| done].
  simpl in H.
  destruct (td_transferWindow data ≫= castTransferWindow); [| done].
  simpl in H.
  destruct (fee <? 0) eqn:Hfee; [done |]. simpl in H.
  match type of H with
  | (if ?b || _ || _ then _ else _) = _ => destruct b eqn:Hloan; [done |]
  end.
  simpl in H.
  destruct (percentage _ <? 0) eqn:Hlo; [done |]. simpl in H.
  destruct (100 <? percentage _) eqn:Hhi; [done |].
  injection H as <-. simpl. repeat split; try done; try lia.
  intros ->. destruct (td_loanDuration data) as [months |]; [| done].
  exists months. split; [done | lia].
Qed.

Lemma validateTransfer_checks td c s b s' :
  TransferCommon.validateTransfer td c s = inr (b, s') ->
  s' = s
  ∧ TransferCommon.validateTransferWindow (td_date td) = true
  ∧ is_Some (findPlayer (td_playerId td) s)
  ∧ (∃ club, findClub (td_toClub td) c = Some club
       ∧ (length (Club.currentSquad club) < 25)%nat
       ∧ ∀ fee, td_transferFee td = Some fee -> fee <= Club.budget club)
  ∧ ∃ k contract, contracts c !! k = Some contract
       ∧ Some (Contract.playerId contract) = td_playerId td
       ∧ Contract.status contract = Active.
Proof.
  unfold TransferCommon.validateTransfer. intros H. run_inv H.
  destruct (findPlayer _ _) eqn:Hplayer; [| done].
  destruct (TransferCommon.validateTransferWindow _) eqn:Hwindow; [| done].
  simpl in H. run_inv H.
  match goal with
  | H0 : TransferCommon.validateClubBudgets _ _ _ _ _ = inr _ |- _ =>
      unfold TransferCommon.validateClubBudgets in H0; run_inv H0;
      destruct (findClub (td_toClub td) c) as [club |] eqn:Hclub; [| done];
      match type of H0 with
      | (if ?b then _ else _) _ _ = _ => destruct b eqn:Hbudget; [done |]
      end; run_inv H0
  end.
  match goal with
  | H0 : TransferCommon.validateContractStatus _ _ _ = inr _ |- _ =>
      unfold TransferCommon.validateContractStatus in H0; run_inv H0;
      destruct (findOne _ _) as [[k contract] |] eqn:Hfind; [| done];
      run_inv H0
  end.
  match goal with
  | H0 : TransferCommon.validateSquadRegistration _ _ _ = inr _ |- _ =>
      unfold TransferCommon.validateSquadRegistration in H0; run_inv H0;
      rewrite Hclub in H0;
      match type of H0 with
      | (if ?b then _ else _) _ _ = _ => destruct b eqn:Hsquad; [done |]
      end; run_inv H0
  end.
  split; [done |]. split; [done |]. split; [by eexists |]. split.
  - exists club. split; [done |]. split; [by apply Nat.leb_gt in Hsquad |].
    intros fee Hfee. rewrite Hfee in Hbudget. lia.
  - apply findOne_Some in Hfind as [Hk Hmatch]. simpl in Hmatch.
    apply andb_true_iff in Hmatch as [Hpl%bool_decide_eq_true Hact%isActive_true].
    by exists k, contract.
Qed.

(** X24.  A transfer initiation that succeeds (either listing) has passed
    every check: the data carry a date in June, July, August or January
    (an absent date is rejected), the player exists and holds some Active
    contract, the buying club exists, lists fewer than 25 players and has a
    budget that covers the fee, and the fee is not negative.  Whether the
    selling club is the club of that contract is not checked. *)
Theorem initiateTransfer_accepts_only_valid now td db db' id t :
  TransferService1.initiateTransfer now td db = (db', inr (id, t))
  ∨ TransferService2.initiateTransfer now td db = (db', inr (id, t)) ->
  ∃ d player club k contract,
    td_date td = Some d
    ∧ ((5 <= getMonth d <= 7) ∨ getMonth d = 0)
    ∧ players db !! Transfer.playerId t = Some player
    ∧ clubs db !! Transfer.toClub t = Some club
    ∧ (length (Club.currentSquad club) < 25)%nat
    ∧ 0 <= Transfer.transferFee t <= Club.budget club
    ∧ contracts db !! k = Some contract
    ∧ Contract.playerId contract = Transfer.playerId t
    ∧ Contract.status contract = Active.
Proof.
  intros H.
  assert (∃ data b s1,
            TransferCommon.validateTransfer td db db = inr (b, s1)
            ∧ newTransfer now data = Some t
            ∧ td_playerId data = td_playerId td
            ∧ td_toClub data = td_toClub td
            ∧ td_transferFee data = td_transferFee td)
    as (data & b & s1 & Hval & Hnew & Hpl & Hto & Hfee).
  { destruct H as [H | H]; apply withTransaction_inr in H;
      [unfold TransferService1.initiateTransferIn in H
      |unfold TransferService2.initiateTransferIn in H];
      run_inv H;
      match goal with
      | Hv : TransferCommon.validateTransfer _ _ _ = inr _,
        Hi : insertTransfer _ ?data _ _ = inr _ |- _ =>
          apply insertTransfer_inr in Hi as (Hnew & _ & _);
          exists data; eexists _, _; by repeat split
      end. }
  apply validateTransfer_checks in Hval
    as (_ & Hwindow & [player Hplayer] & (club & Hclub & Hsquad & Hbudget)
        & k & contract & Hk & Hcp & Hact).
  destruct (newTransfer_valid _ _ _ Hnew) as (Hnonneg & _).
  apply newTransfer_Some in Hnew as (_ & Hpl' & _ & Hto' & Hfee' & _).
  rewrite Hpl in Hpl'. rewrite Hto in Hto'. rewrite Hfee in Hfee'.
  rewrite Hpl' in Hplayer, Hcp. rewrite Hto' in Hclub. simpl in *.
  unfold TransferCommon.validateTransferWindow in Hwindow.
  destruct (td_date td) as [d |]; [| done].
  exists d, player, club, k, contract. split; [done |].
  split; [lia |]. split; [done |]. split; [done |]. split; [done |].
  split; [split; [done | by apply Hbudget] |].
  split; [done |]. split; [congruence | done].
Qed.

Lemma initiateTransfer_accepts_only_valid_witness :
  ∃ d player club k contract,
    td_date Sample.sale = Some d
    ∧ ((5 <= getMonth d <= 7) ∨ getMonth d = 0)
    ∧ players Sample.db1 !! Sample.playerX = Some player
    ∧ clubs Sample.db1 !! Sample.clubB = Some club
    ∧ (length (Club.currentSquad club) < 25)%nat
    ∧ 0 <= 7000000 <= Club.budget club
    ∧ contracts Sample.db1 !! k = Some contract
    ∧ Contract.playerId contract = Sample.playerX
    ∧ Contract.status contract = Active.
Proof.
  apply (initiateTransfer_accepts_only_valid Sample.jul2025 Sample.sale
           Sample.db1
           (TransferService1.initiateTransfer Sample.jul2025 Sample.sale
              Sample.db1).1
           0%N
           (Transfer.mk Sample.playerX Sample.clubA Sample.clubB 7000000
              Sample.jul2025 None Permanent Pending Summer
              (mkSellOn 0 false) ∅)).
  left. vm_compute. reflexivity.
Defined.

(** X25.  A transfer document created through the controller is written
    without the service: it is stored under an unused id, with the contract
    reference and the additional terms that the body carries (none when the
    body has none), and no player, club (so no budget) or contract changes,
    even when the document is stored as Completed.  The schema accepts it
    only with a fee that is not negative, a sell-on percentage between 0
    and 100 and, for a loan, a loan duration of at least one month. *)
Theorem createTransfer_writes_only_the_transfer now body db db' id t :
  createTransfer now body db = (db', inr (id, t)) ->
  players db' = players db ∧ clubs db' = clubs db
  ∧ contracts db' = contracts db
  ∧ transfers db !! id = None
  ∧ transfers db' = <[id := t]> (transfers db)
  ∧ Transfer.contractDetails t = td_contractDetails body
  ∧ Transfer.additionalTerms t = default ∅ (td_additionalTerms body)
  ∧ 0 <= Transfer.transferFee t
  ∧ 0 <= percentage (Transfer.sellOnClause t) <= 100
  ∧ (Transfer.transferType t = Loan ->
     ∃ n, td_loanDuration body = Some n ∧ 1 <= n).
Proof.
  intros H. apply withTransaction_inr, insertTransfer_inr in H
    as (Hnew & -> & ->).
  apply newTransfer_valid in Hnew as (Hfee & Hpct & _ & Hcd & Hterms & Hloan).
  simpl. repeat split; try done; try lia. apply newId_fresh.
Qed.

Lemma createTransfer_writes_only_the_transfer_witness :
  let body :=
    mkTransferData (Some Sample.playerX) (Some Sample.clubA)
      (Some Sample.clubB) (Some 7000000) (Some Sample.jul2025)
      (Some "Permanent") None (Some "Summer") None None (Some 0%N) None in
  let created := createTransfer Sample.jul2025 body Sample.db1 in
  clubs created.1 = clubs Sample.db1
  ∧ players created.1 = players Sample.db1
  ∧ (Transfer.contractDetails <$> transfers created.1 !! 0%N)
    = Some (Some 0%N).
Proof.
  intros body created.
  destruct (createTransfer_writes_only_the_transfer Sample.jul2025 body
              Sample.db1 created.1 0%N
              (Transfer.mk Sample.playerX Sample.clubA Sample.clubB 7000000
                 Sample.jul2025 (Some 0%N) Permanent Completed Summer
                 (mkSellOn 0 false) ∅))
    as (Hplayers & Hclubs & _ & _ & Htransfers & _);
    [vm_compute; reflexivity |].
  split; [exact Hclubs |]. split; [exact Hplayers |].
  rewrite Htransfers, lookup_insert_eq. reflexivity.
Defined.

(** ** Completing a transfer moves the player *)

(** X26.  A completion of the second listing that succeeds registers the
    player with the buying club and sets the market value of the player to
    the rounded nine tenths of the fee; it removes the player from the
    squad of the selling club and appends the player to the squad of the
    buying club, without looking whether the squad lists the player
    already; the other players and the squads of the other clubs stay as
    they were. *)
Theorem completeTransfer2_moves_player now id db db' t' :
  TransferService2.completeTransfer now id db = (db', inr t') ->
  ∃ t player fromClub toClub,
    transfers db !! id = Some t
    ∧ players db !! Transfer.playerId t = Some player
    ∧ clubs db !! Transfer.fromClub t = Some fromClub
    ∧ clubs db !! Transfer.toClub t = Some toClub
    ∧ players db'
      = <[Transfer.playerId t :=
            Player.mk (Player.dateOfBirth player) (Some (Transfer.toClub t))
                      (baseValue (Transfer.transferFee t))]> (players db)
    ∧ squadOf (Transfer.toClub t) db'
      = Some ((if decide (Transfer.fromClub t = Transfer.toClub t)
               then List.filter (λ i, negb (N.eqb i (Transfer.playerId t)))
                                (Club.currentSquad fromClub)
               else Club.currentSquad toClub) ++ [Transfer.playerId t])
    ∧ (Transfer.fromClub t ≠ Transfer.toClub t ->
       squadOf (Transfer.fromClub t) db'
       = Some (List.filter (λ i, negb (N.eqb i (Transfer.playerId t)))
                           (Club.currentSquad fromClub)))
    ∧ ∀ j, j ≠ Transfer.fromClub t -> j ≠ Transfer.toClub t ->
           clubs db' !! j = clubs db !! j.
Proof.
  intros H%withTransaction_inr.
  unfold TransferService2.completeTransferIn in H. run_inv H.
  destruct (transfers db !! id) as [t |] eqn:Ht; [| done].
  destruct (negb _); [done |]. run_inv H.
  destruct (players db !! _) as [player |] eqn:Hplayer; [| done].
  destruct (clubs db !! Transfer.fromClub t) as [fromClub |] eqn:Hfrom; [| done].
  destruct (clubs db !! Transfer.toClub t) as [toClub |] eqn:Hto; [| done].
  run_inv H.
  match goal with
  | Hold : (match findOne _ _ with _ => _ end) _ _ = inr (_, ?s1) |- _ =>
      assert (players s1 = players db ∧ clubs s1 = clubs db) as [Hp1 Hc1];
      [ destruct (findOne _ _) as [[oldId ?] |] in Hold;
        [ run_inv Hold;
          match goal with
          | Ht' : TransferCommon.terminateOldContract _ _ _ _ = inr _ |- _ =>
              apply terminateContractIn_annotates in Ht'
                as (_ & _ & _ & -> & _)
          end; done
        | by apply mret_inr in Hold as [_ ->] ]
      | clear Hold ]
  end.
  match goal with
  | Hnew : (match Transfer.contractDetails t with _ => _ end) _ ?s1 = inr (_, ?s2)
    |- _ =>
      assert (s2 = s1) as ->;
      [ destruct (Transfer.contractDetails t);
        [ run_inv Hnew;
          match goal with
          | Hc : TransferCommon.createNewContract _ _ _ _ = inr _ |- _ =>
              unfold TransferCommon.createNewContract,
                ContractService2.createContractIn in Hc;
              run_inv Hc; done
          end
        | by apply mret_inr in Hnew as [_ ->] ]
      | clear Hnew ]
  end.
  repeat match goal with
  | Hs : BudgetLedger.settle _ _ _ _ _ = inr _ |- _ =>
      apply settle_inr in Hs; destruct Hs as (? & ? & ->)
  | Hs : saveTransfer _ _ _ _ = inr _ |- _ =>
      apply saveTransfer_inr in Hs; destruct Hs as (? & ? & ->)
  | Hs : saveClub _ _ _ _ = inr _ |- _ =>
      apply saveClub_inr in Hs; destruct Hs as (? & ? & ->)
  | Hs : savePlayer _ _ _ _ _ = inr _ |- _ =>
      apply savePlayer_inr in Hs; destruct Hs as (? & ? & ? & ->)
  | Hs : TransferService2.updatePlayerValue _ _ _ _ _ = inr _ |- _ =>
      apply updatePlayerValue2_inr in Hs; destruct Hs as (? & ? & -> & ->)
  end.
  simpl in *. rewrite Hp1, Hc1 in *.
  repeat match goal with
  | E : <[?i := _]> _ !! ?i = Some _ |- _ =>
      rewrite lookup_insert_eq in E; injection E as <-
  | E : players db !! _ = Some _ |- _ =>
      rewrite Hplayer in E; injection E as <-
  | E : clubs db !! Transfer.fromClub t = Some _ |- _ =>
      rewrite Hfrom in E; injection E as <-
  end.
  exists t, player, fromClub, toClub.
  split; [done |]. split; [done |]. split; [done |]. split; [done |].
  split; [by rewrite insert_insert_eq |].
  unfold squadOf. simpl.
  match goal with
  | E : _ !! Transfer.toClub t = Some ?c |- _ =>
      rename E into Hto'; rename c into toClub'
  end.
  split; [| split].
  - rewrite lookup_insert_eq. simpl. do 2 f_equal.
    destruct (decide (Transfer.fromClub t = Transfer.toClub t)) as [E | E].
    + rewrite <- E, lookup_insert_eq in Hto'. by injection Hto' as <-.
    + rewrite !lookup_insert_ne in Hto' by done.
      rewrite Hto in Hto'. by injection Hto' as <-.
  - intros Hne. rewrite lookup_insert_ne by done.
    by rewrite lookup_insert_eq.
  - intros j Hj1 Hj2. by rewrite !lookup_insert_ne.
Qed.

Lemma completeTransfer2_moves_player_witness :
  squadOf Sample.clubB
    (TransferService2.completeTransfer Sample.jul2025 0%N
       (TransferService2.initiateTransfer Sample.jul2025 Sample.sale
          Sample.db1).1).1
  = Some [Sample.playerX]
  ∧ squadOf Sample.clubA
      (TransferService2.completeTransfer Sample.jul2025 0%N
         (TransferService2.initiateTransfer Sample.jul2025 Sample.sale
            Sample.db1).1).1
    = Some [].
Proof.
  destruct (completeTransfer2_moves_player Sample.jul2025 0%N
              (TransferService2.initiateTransfer Sample.jul2025 Sample.sale
                 Sample.db1).1
              (TransferService2.completeTransfer Sample.jul2025 0%N
                 (TransferService2.initiateTransfer Sample.jul2025 Sample.sale
                    Sample.db1).1).1
              (Transfer.mk Sample.playerX Sample.clubA Sample.clubB 7000000
                 Sample.jul2025 None Permanent Completed Summer
                 (mkSellOn 0 false) ∅))
    as (t & player & fromClub & toClub & Ht & _ & Hfrom & Hto & _ & Hsq & Hsq'
        & _);
    [vm_compute; reflexivity |].
  vm_compute in Ht. injection Ht as <-.
  vm_compute in Hfrom. injection Hfrom as <-.
  vm_compute in Hto. injection Hto as <-.
  split.
  - etrans; [apply Hsq | vm_compute; reflexivity].
  - etrans; [apply Hsq'; simpl; discriminate | vm_compute; reflexivity].
Defined.

(** X27.  A completion of the first listing without contract data that
    succeeds registers the player with the buying club and leaves the
    market value of the player as it was; it removes the player from the
    squad of the selling club and appends the player to the squad of the
    buying club only if the squad, as loaded before, does not list the
    player; the other players and the squads of the other clubs stay as
    they were. *)
Theorem completeTransfer1_moves_player now id db db' t' :
  TransferService1.completeTransfer now id None db = (db', inr t') ->
  ∃ t player fromClub toClub,
    transfers db !! id = Some t
    ∧ players db !! Transfer.playerId t = Some player
    ∧ clubs db !! Transfer.fromClub t = Some fromClub
    ∧ clubs db !! Transfer.toClub t = Some toClub
    ∧ players db'
      = <[Transfer.playerId t :=
            Player.set_currentClub (Some (Transfer.toClub t)) player]>
          (players db)
    ∧ (Transfer.fromClub t ≠ Transfer.toClub t ->
       squadOf (Transfer.fromClub t) db'
       = Some (List.filter (λ i, negb (N.eqb i (Transfer.playerId t)))
                           (Club.currentSquad fromClub))
       ∧ squadOf (Transfer.toClub t) db'
         = Some (if existsb (N.eqb (Transfer.playerId t))
                            (Club.currentSquad toClub)
                 then Club.currentSquad toClub
                 else Club.currentSquad toClub ++ [Transfer.playerId t]))
    ∧ ∀ j, j ≠ Transfer.fromClub t -> j ≠ Transfer.toClub t ->
           clubs db' !! j = clubs db !! j.
Proof.
  intros H%withTransaction_inr.
  unfold TransferService1.completeTransferIn in H. run_inv H.
  destruct (transfers db !! id) as [t |] eqn:Ht; [| done].
  destruct (negb _); [done |]. run_inv H.
  destruct (players db !! _) as [player |] eqn:Hplayer; [| done].
  destruct (clubs db !! Transfer.fromClub t) as [fromClub |] eqn:Hfrom; [| done].
  destruct (clubs db !! Transfer.toClub t) as [toClub |] eqn:Hto; [| done].
  run_inv H.
  match goal with
  | Hold : (match findOne _ _ with _ => _ end) _ _ = inr (_, ?s1) |- _ =>
      assert (players s1 = players db ∧ clubs s1 = clubs db) as [Hp1 Hc1];
      [ destruct (findOne _ _) as [[oldId ?] |] in Hold;
        [ run_inv Hold;
          match goal with
          | Ht' : TransferCommon.terminateOldContract _ _ _ _ = inr _ |- _ =>
              apply terminateContractIn_annotates in Ht'
                as (_ & _ & _ & -> & _)
          end; done
        | by apply mret_inr in Hold as [_ ->] ]
      | clear Hold ]
  end.
  match goal with
  | Hv : TransferService1.updatePlayerValue _ _ _ _ ?s1 = inr (_, ?s2) |- _ =>
      assert (s2 = s1) as ->;
      [ unfold TransferService1.updatePlayerValue in Hv; run_inv Hv;
        destruct (findPlayer _ _); [by run_inv Hv | done]
      | clear Hv ]
  end.
  repeat match goal with
  | Hs : BudgetLedger.settle _ _ _ _ _ = inr _ |- _ =>
      apply settle_inr in Hs; destruct Hs as (? & ? & ->)
  | Hs : saveTransfer _ _ _ _ = inr _ |- _ =>
      apply saveTransfer_inr in Hs; destruct Hs as (? & ? & ->)
  | Hs : savePlayer _ _ _ _ _ = inr _ |- _ =>
      apply savePlayer_inr in Hs; destruct Hs as (? & ? & ? & ->)
  end.
  simpl in *. rewrite Hp1, Hc1 in *.
  repeat match goal with
  | E : players db !! _ = Some _ |- _ =>
      rewrite Hplayer in E; injection E as <-
  | E : clubs db !! Transfer.fromClub t = Some _ |- _ =>
      rewrite Hfrom in E; injection E as <-
  end.
  exists t, player, fromClub, toClub.
  split; [done |]. split; [done |]. split; [done |]. split; [done |].
  match goal with
  | Hs : (if (0 <? _)%nat then _ else _) _ _ = inr _ |- _ =>
      rename Hs into Hleave
  end.
  match goal with
  | Hs : (if existsb _ _ then _ else _) _ _ = inr (?u, ?s2) |- _ =>
      rename Hs into Hjoin; rename s2 into final; rename u into done'
  end.
  assert (∃ s1,
            players s1
            = <[Transfer.playerId t :=
                  Player.set_currentClub (Some (Transfer.toClub t)) player]>
                (players db)
            ∧ squadOf (Transfer.fromClub t) s1
              = Some (List.filter (λ i, negb (N.eqb i (Transfer.playerId t)))
                                  (Club.currentSquad fromClub))
            ∧ (∀ j, j ≠ Transfer.fromClub t -> clubs s1 !! j = clubs db !! j)
            ∧ (if existsb (N.eqb (Transfer.playerId t)) (Club.currentSquad toClub)
               then mret ()
               else saveClub (Transfer.toClub t)
                      (λ c, Club.set_currentSquad
                              (Club.currentSquad c ++ [Transfer.playerId t]) c))
                db s1 = inr (done', final))
    as (s1 & Hps & Hleft & Hrest & Hjoin').
  { destruct (0 <? length (Club.currentSquad fromClub))%nat eqn:Hsome.
    - apply saveClub_inr in Hleave as (c1 & Hc1' & ->). simpl in Hc1'.
      rewrite lookup_insert_eq in Hc1'. injection Hc1' as <-.
      eexists. split; [| split; [| split; [| exact Hjoin]]]; simpl.
      + done.
      + unfold squadOf. simpl. by rewrite lookup_insert_eq.
      + intros j Hj. by rewrite !lookup_insert_ne.
    - apply mret_inr in Hleave as [_ ->].
      eexists. split; [| split; [| split; [| exact Hjoin]]]; simpl.
      + done.
      + unfold squadOf. simpl. rewrite lookup_insert_eq. simpl.
        destruct (Club.currentSquad fromClub); [done | simpl in Hsome; done].
      + intros j Hj. by rewrite !lookup_insert_ne. }
  clear Hleave Hjoin.
  destruct (existsb (N.eqb (Transfer.playerId t)) (Club.currentSquad toClub)).
  - apply mret_inr in Hjoin' as [_ ->].
    split; [done |]. split.
    + intros Hne. split; [done |]. unfold squadOf.
      rewrite Hrest by done. by rewrite Hto.
    + intros j Hj1 Hj2. by apply Hrest.
  - apply saveClub_inr in Hjoin' as (c2 & Hc2 & ->). simpl.
    split; [done |]. split.
    + intros Hne. rewrite Hrest in Hc2 by done. rewrite Hto in Hc2.
      injection Hc2 as <-. unfold squadOf in *. simpl. split.
      * by rewrite lookup_insert_ne.
      * by rewrite lookup_insert_eq.
    + intros j Hj1 Hj2. rewrite lookup_insert_ne by done. by apply Hrest.
Qed.

Lemma completeTransfer1_moves_player_witness :
  squadOf Sample.clubB
    (TransferService1.completeTransfer Sample.jul2025 0%N None
       (TransferService1.initiateTransfer Sample.jul2025 Sample.sale
          Sample.db1).1).1
  = Some [Sample.playerX].
Proof.
  destruct (completeTransfer1_moves_player Sample.jul2025 0%N
              (TransferService1.initiateTransfer Sample.jul2025 Sample.sale
                 Sample.db1).1
              (TransferService1.completeTransfer Sample.jul2025 0%N None
                 (TransferService1.initiateTransfer Sample.jul2025 Sample.sale
                    Sample.db1).1).1
              (Transfer.mk Sample.playerX Sample.clubA Sample.clubB 7000000
                 Sample.jul2025 None Permanent Completed Summer
                 (mkSellOn 0 false) ∅))
    as (t & player & fromClub & toClub & Ht & _ & _ & Hto & _ & Hsq & _);
    [vm_compute; reflexivity |].
  vm_compute in Ht. injection Ht as <-.
  vm_compute in Hto. injection Hto as <-.
  destruct Hsq as [_ Hsq]; [simpl; discriminate |].
  etrans; [apply Hsq | vm_compute; reflexivity].
Defined.

(** ** The player documents across the operations *)

Lemma grooms_frames {A} (m : Session A) : frames players m -> grooms m.
Proof. intros Hm c s a s' H. by rewrite (Hm _ _ _ _ H). Qed.

Lemma grooms_throw {A} e : grooms (throw e : Session A).
Proof. done. Qed.

Lemma grooms_bind {A B} (m : Session A) (k : A -> Session B) :
  grooms m -> (∀ a, grooms (k a)) -> grooms (m ≫= k).
Proof.
  intros Hm Hk c s b s' (a & s1 & H1 & H2)%bind_inr.
  etrans; [by eapply Hm | by eapply Hk].
Qed.

Lemma grooms_savePlayer_club now id v :
  grooms (savePlayer now id (Player.set_currentClub v)).
Proof.
  intros c s a s' (p & Hp & _ & ->)%savePlayer_inr. simpl.
  apply rtc_once. by eapply pe_save.
Qed.

Lemma grooms_saveMarketValue now id v : grooms (saveMarketValue now id v).
Proof.
  unfold saveMarketValue. destruct (v <? 0) eqn:Hv; [done |].
  intros c s a s' (p & Hp & _ & ->)%savePlayer_inr. simpl.
  apply rtc_once. eapply pe_save; [done |]. split; [done |]. simpl. lia.
Qed.

Ltac grooms_auto :=
  repeat first
    [ apply grooms_throw
    | apply grooms_savePlayer_club
    | apply grooms_saveMarketValue
    | apply grooms_bind; [| intros ?]
    | match goal with
      | |- grooms (match ?x with _ => _ end) => destruct x
      | |- grooms (match ?x with _ => _ end _) => destruct x
      | |- grooms (let _ := _ in _) => simpl
      end
    | apply grooms_frames; solve [frame_prim] ].

Lemma frames_players_insertContract cd : frames players (insertContract cd).
Proof. intros c s [id doc] s' (_ & -> & _)%insertContract_inr. done. Qed.

Lemma frames_players_insertTransfer now data :
  frames players (insertTransfer now data).
Proof. intros c s [id doc] s' (_ & _ & ->)%insertTransfer_inr. done. Qed.

Lemma grooms_validateContract cd : grooms (ContractService2.validateContract cd).
Proof. unfold ContractService2.validateContract. grooms_auto. Qed.

Lemma grooms_createContractIn now cd :
  grooms (ContractService2.createContractIn now cd).
Proof.
  unfold ContractService2.createContractIn.
  apply grooms_bind; [apply grooms_validateContract |]. intros _.
  apply grooms_bind; [apply grooms_frames, frames_players_insertContract |].
  intros ?. grooms_auto.
Qed.

Lemma grooms_terminateContractIn now k td :
  grooms (ContractService2.terminateContractIn now k td).
Proof. unfold ContractService2.terminateContractIn. grooms_auto. Qed.

Lemma grooms_terminateContractIn1 now k td :
  grooms (ContractService1.terminateContractIn now k td).
Proof. unfold ContractService1.terminateContractIn. grooms_auto. Qed.

Lemma grooms_renewContractIn now k rd :
  grooms (ContractService2.renewContractIn now k rd).
Proof.
  unfold ContractService2.renewContractIn.
  apply grooms_bind; [grooms_auto |]. intros [old |]; [| done].
  destruct (negb _); [done |].
  apply grooms_bind; [apply grooms_terminateContractIn |]. intros _.
  apply grooms_bind; [apply grooms_createContractIn |]. intros ?.
  unfold ContractService2.updatePlayerValueOnRenewal. grooms_auto.
Qed.

Lemma grooms_settle i j v : grooms (BudgetLedger.settle i j v).
Proof. unfold BudgetLedger.settle. grooms_auto. Qed.

Lemma grooms_release i v : grooms (BudgetLedger.release i v).
Proof. unfold BudgetLedger.release. grooms_auto. Qed.

Lemma grooms_reserve i v : grooms (BudgetLedger.reserve i v).
Proof. unfold BudgetLedger.reserve. grooms_auto. Qed.

Lemma grooms_validateTransfer td : grooms (TransferCommon.validateTransfer td).
Proof.
  unfold TransferCommon.validateTransfer, TransferCommon.validateClubBudgets,
    TransferCommon.validateContractStatus,
    TransferCommon.validateSquadRegistration.
  grooms_auto.
Qed.

Ltac grooms_services :=
  repeat first
    [ apply grooms_terminateContractIn
    | apply grooms_createContractIn
    | apply grooms_validateContract
    | apply grooms_settle
    | apply grooms_release
    | apply grooms_reserve
    | apply grooms_validateTransfer
    | apply grooms_frames, frames_players_insertContract
    | apply grooms_frames, frames_players_insertTransfer
    | progress grooms_auto
    | progress unfold TransferCommon.terminateOldContract,
        TransferCommon.createNewContract, TransferService1.updatePlayerValue,
        TransferService2.updatePlayerValue, TransferService2.releaseClubBudgets,
        TransferService2.reserveClubBudgets ].

Lemma grooms_completeTransferIn now id cd :
  grooms (TransferService1.completeTransferIn now id cd).
Proof. unfold TransferService1.completeTransferIn. grooms_services. Qed.

Lemma grooms_completeTransferIn2 now id :
  grooms (TransferService2.completeTransferIn now id).
Proof. unfold TransferService2.completeTransferIn. grooms_services. Qed.

Lemma grooms_initiateTransferIn now td :
  grooms (TransferService1.initiateTransferIn now td).
Proof. unfold TransferService1.initiateTransferIn. grooms_services. Qed.

Lemma grooms_initiateTransferIn2 now td :
  grooms (TransferService2.initiateTransferIn now td).
Proof. unfold TransferService2.initiateTransferIn. grooms_services. Qed.

Lemma grooms_cancelTransferIn id why :
  grooms (TransferService1.cancelTransferIn id why).
Proof. unfold TransferService1.cancelTransferIn. grooms_services. Qed.

Lemma grooms_cancelTransferIn2 id why :
  grooms (TransferService2.cancelTransferIn id why).
Proof. unfold TransferService2.cancelTransferIn. grooms_services. Qed.

Lemma grooms_expireOne today id d :
  grooms (ContractService1.expireOne today id d).
Proof. unfold ContractService1.expireOne. grooms_auto. Qed.

Lemma withTransaction_grooms {A} (m : Session A) db :
  grooms m -> rtc playerEvent (players db) (players (withTransaction m db).1).
Proof.
  intros Hm. unfold withTransaction.
  destruct (m db db) as [e | [a s']] eqn:E; simpl; [done |]. by eapply Hm.
Qed.

Lemma sweep_grooms today l n db :
  rtc playerEvent (players db) (players (ContractService1.sweep today l n db).1).
Proof.
  revert n db. induction l as [| [id d] l IH]; intros n db; simpl; [done |].
  pose proof (withTransaction_grooms _ db (grooms_expireOne today id d)) as Hstep.
  destruct (withTransaction (ContractService1.expireOne today id d) db)
    as [db1 [e | u]]; (etrans; [exact Hstep | apply IH]).
Qed.

Lemma engineStep_players db db' :
  engineStep db db' -> rtc playerEvent (players db) (players db').
Proof.
  destruct 1.
  - apply withTransaction_grooms, grooms_createContractIn.
  - apply withTransaction_grooms, grooms_renewContractIn.
  - apply withTransaction_grooms, grooms_terminateContractIn.
  - apply withTransaction_grooms, grooms_terminateContractIn1.
  - apply withTransaction_grooms, grooms_completeTransferIn.
  - apply withTransaction_grooms, grooms_completeTransferIn2.
  - apply frames_rtc.
    unfold ContractService2.processExpiredContracts, withTransaction.
    destruct (ContractService2.expireAll _ 0 db db) as [e | [n s']] eqn:Hrun;
      simpl; [done |].
    by apply expireAll_inr in Hrun as (_ & Hpl & _).
  - apply sweep_grooms.
Qed.

Lemma marketStep_players db db' :
  marketStep db db' -> rtc playerEvent (players db) (players db').
Proof.
  destruct 1 as [db' Hstep | k ud | now td | now td | k why | k why | now body].
  - by apply engineStep_players.
  - apply frames_rtc. unfold ContractService1.updateContract,
      ContractService1.findByIdAndUpdate.
    repeat case_match; done.
  - apply withTransaction_grooms, grooms_initiateTransferIn.
  - apply withTransaction_grooms, grooms_initiateTransferIn2.
  - apply withTransaction_grooms, grooms_cancelTransferIn.
  - apply withTransaction_grooms, grooms_cancelTransferIn2.
  - apply withTransaction_grooms, grooms_frames, frames_players_insertTransfer.
Qed.

Lemma samePerson_refl p : samePerson p p.
Proof. by split. Qed.

Lemma samePerson_trans p1 p2 p3 :
  samePerson p1 p2 -> samePerson p2 p3 -> samePerson p1 p3.
Proof. intros [? ?] [? ?]. split; [congruence | auto]. Qed.

Lemma playerEvents_keep m m' :
  rtc playerEvent m m' -> ∀ i,
  match m !! i with
  | Some p => ∃ p', m' !! i = Some p' ∧ samePerson p p'
  | None => m' !! i = None
  end.
Proof.
  induction 1 as [m | m1 m2 m3 [j q q' Hj Hsame] _ IH]; intros i.
  - destruct (m !! i) as [p |]; [| done]. exists p. split; [done |].
    apply samePerson_refl.
  - specialize (IH i). destruct (decide (j = i)) as [-> | Hne].
    + rewrite lookup_insert_eq in IH. rewrite Hj.
      destruct IH as (p' & Hp' & Hsame'). exists p'. split; [done |].
      by eapply samePerson_trans.
    + by rewrite lookup_insert_ne in IH.
Qed.

(** X28.  Across any sequence of operations of the contract service, the
    transfer service and the transfer controller's create, the services
    neither create nor delete a player document, the date of birth of a
    player never changes, and a market value that was not negative never
    becomes negative. *)
Theorem players_keep_their_identity db db' i :
  rtc marketStep db db' ->
  match players db !! i with
  | Some p =>
      ∃ p', players db' !! i = Some p'
        ∧ Player.dateOfBirth p' = Player.dateOfBirth p
        ∧ (0 <= Player.marketValue p -> 0 <= Player.marketValue p')
  | None => players db' !! i = None
  end.
Proof.
  intros Hreach. apply playerEvents_keep. clear i.
  induction Hreach as [| db1 db2 db3 Hstep _ IH]; [done |].
  etrans; [by apply marketStep_players | done].
Qed.

Lemma players_keep_their_identity_witness :
  ∃ p',
    players
      (TransferService2.completeTransfer Sample.jul2025 0%N
         (TransferService2.initiateTransfer Sample.jul2025 Sample.sale
            Sample.db1).1).1 !! Sample.playerX = Some p'
    ∧ Player.dateOfBirth p' = Sample.jan2000
    ∧ (0 <= 5000000 -> 0 <= Player.marketValue p').
Proof.
  exact (players_keep_their_identity Sample.db1
           (TransferService2.completeTransfer Sample.jul2025 0%N
              (TransferService2.initiateTransfer Sample.jul2025 Sample.sale
                 Sample.db1).1).1
           Sample.playerX
           (rtc_l _ _ _ _ (ms_initiateTransfer2 _ Sample.jul2025 Sample.sale)
              (rtc_once _ _
                 (ms_engine _ _ (step_completeTransfer2 _ Sample.jul2025 0%N))))).
Defined.
